(** * The group metadata index of weshnet ([store_metadata_index.go])

    A shallow embedding of [metadataStoreIndex]: its data, its event
    handlers, the replay [UpdateIndex] and the query methods, followed by
    the properties of the replay.

    Conventions of the embedding.
    - A Go [[]byte] is [bytes]: [None] is the nil slice, [Some s] a slice
      holding the bytes of [s]; [str] is the conversion [string(b)] used for
      map keys and [blen] is [len(b)].
    - A Go map is a [gmap], a [map[K]struct{}] a [gset].  Go leaves the
      iteration order of a map unspecified; the listing queries are given in
      the order of [map_to_list] and [elements].
    - [admins] is the one map keyed by [crypto.PubKey] values.  These are
      interface values holding a pointer, and Go compares them by address:
      two keys of the same bytes, unmarshalled by two calls, are two keys of
      the map.  The map is the list of the key objects inserted, in the
      order of insertion; the address of a key object is its position, and
      the address of a key just unmarshalled is the next free position.
    - [*AccountContact] values are shared between two maps and handed out by
      [getContact], so they live in a store ([heap]) and the maps hold
      addresses ([loc]).
    - A run-time panic (nil dereference, index out of range) is [None] of the
      outcome type; an [error] result is a value next to the index, because a
      handler that returns an error has already changed the index.
    - The mutex is not modelled: every method runs to completion under it.
    - [m.logger] is the trace [logged] of the records it was given.
    - The packages the file imports ([protocoltypes], [secretstore],
      [cryptoutil], libp2p's [crypto]) and [openMetadataEntry] are not part
      of the sources: their types carry the fields the index reads, and what
      they compute is a parameter ([Externals]) or is modelled from the
      specification, as said where it is declared. *)

From stdpp Require Import gmap strings list fin_maps.

Set Warnings "-clear-no-such-hyp".

(** ** Byte slices and keys *)

Definition bytes : Type := option string.

Definition str (b : bytes) : string := default ""%string b.

Definition blen (b : bytes) : nat := String.length (str b).

(** [cryptoutil.KeySize]: the package is not part of the sources; 32 is the
    size of an Ed25519 public key. *)
Definition KeySize : nat := 32.

(** Modelled from the spec: [crypto.PubKey] belongs to libp2p and is not part
    of the sources.  The value of a public key is its raw bytes ([Raw()]
    cannot fail on it) and [Equals] compares the bytes.  As the key of a Go
    map a [crypto.PubKey] is compared by the address of the key object, not
    by its bytes: see [admins]. *)
Abbreviation PubKey := string (only parsing).

Definition Equals (a b : PubKey) : bool := bool_decide (a = b).

(** Modelled from the spec: [crypto.UnmarshalEd25519PublicKey] belongs to
    libp2p and is not part of the sources.  It accepts exactly the byte
    strings of the expected key size. *)
Definition UnmarshalEd25519PublicKey (data : bytes) : option PubKey :=
  if decide (blen data = KeySize) then Some (str data) else None.

(** [secretstore.MemberDevice], as built by [secretstore.NewMemberDevice]. *)
Record MemberDevice : Type := NewMemberDevice { Member : PubKey; Device : PubKey }.

(** ** Protocol types read by the index *)

Inductive GroupTypeEnum : Type :=
  | GroupTypeUndefined
  | GroupTypeAccount
  | GroupTypeContact
  | GroupTypeMultiMember.

Record Group : Type := { PublicKey : bytes; GroupType : GroupTypeEnum }.

Inductive ContactState : Type :=
  | ContactStateUndefined
  | ContactStateToRequest
  | ContactStateReceived
  | ContactStateAdded
  | ContactStateRemoved
  | ContactStateDiscarded
  | ContactStateBlocked.

Record ShareableContact : Type :=
  { PK : bytes; PublicRendezvousSeed : bytes; Metadata : bytes }.

Record ServiceToken : Type := { Token : string; AuthenticationURL : string }.

Record ContactAliasKeyAdded : Type := { DevicePK : bytes; AliasPK : bytes }.

Record AccountVerifiedCredentialRegistered : Type :=
  { Identifier : string; VerifiedCredential : string }.

(** The decoded events ([proto.Message]); each constructor carries the fields
    the handlers read.  Pointer fields that may be nil are options. *)
Inductive Message : Type :=
  | MsgGroupMemberDeviceAdded (MemberPK DevicePK : bytes)
  | MsgGroupDeviceChainKeyAdded (DevicePK DestMemberPK : bytes)
  | MsgAccountGroupJoined (Group : option Group)
  | MsgAccountGroupLeft (GroupPK : bytes)
  | MsgAccountContactRequestDisabled
  | MsgAccountContactRequestEnabled
  | MsgAccountContactRequestReferenceReset (PublicRendezvousSeed : bytes)
  | MsgAccountContactRequestOutgoingEnqueued
      (Contact : option ShareableContact) (OwnMetadata : bytes)
  | MsgAccountContactRequestOutgoingSent (ContactPK : bytes)
  | MsgAccountContactRequestIncomingReceived
      (ContactPK ContactRendezvousSeed ContactMetadata : bytes)
  | MsgAccountContactRequestIncomingDiscarded (ContactPK : bytes)
  | MsgAccountContactRequestIncomingAccepted (ContactPK : bytes)
  | MsgAccountContactBlocked (ContactPK : bytes)
  | MsgAccountContactUnblocked (ContactPK : bytes)
  | MsgContactAliasKeyAdded (evt : ContactAliasKeyAdded)
  | MsgAccountServiceTokenAdded (ServiceToken : option ServiceToken)
  | MsgAccountServiceTokenRemoved (TokenID : string)
  | MsgMultiMemberGroupInitialMemberAnnounced (MemberPK : bytes)
  | MsgMultiMemberGroupAdminRoleGranted
  | MsgGroupMetadataPayloadSent
  | MsgAccountVerifiedCredentialRegistered (e : AccountVerifiedCredentialRegistered).

Inductive EventType : Type :=
  | EventTypeUndefined
  | EventTypeAccountContactBlocked
  | EventTypeAccountContactRequestDisabled
  | EventTypeAccountContactRequestEnabled
  | EventTypeAccountContactRequestIncomingAccepted
  | EventTypeAccountContactRequestIncomingDiscarded
  | EventTypeAccountContactRequestIncomingReceived
  | EventTypeAccountContactRequestOutgoingEnqueued
  | EventTypeAccountContactRequestOutgoingSent
  | EventTypeAccountContactRequestReferenceReset
  | EventTypeAccountContactUnblocked
  | EventTypeAccountGroupJoined
  | EventTypeAccountGroupLeft
  | EventTypeContactAliasKeyAdded
  | EventTypeGroupDeviceChainKeyAdded
  | EventTypeGroupMemberDeviceAdded
  | EventTypeMultiMemberGroupAdminRoleGranted
  | EventTypeMultiMemberGroupInitialMemberAnnounced
  | EventTypeAccountServiceTokenAdded
  | EventTypeAccountServiceTokenRemoved
  | EventTypeGroupMetadataPayloadSent
  | EventTypeAccountVerifiedCredentialRegistered
  | EventTypeOther (tag : Z).

(** The error codes of [errcode] the index produces; [Wrap] keeps the code.
    [ErrCouldNotGetMember] is the [fmt.Errorf] of [postHandlerSentAliases]. *)
Inductive errcode : Type :=
  | ErrInvalidInput
  | ErrDeserialization
  | ErrMissingInput
  | ErrMissingMapKey
  | ErrGroupInvalidType
  | ErrOrbitDBOpen
  | ErrInternal
  | ErrCouldNotGetMember.

Inductive LogRecord : Type :=
  | UnableToOpenMetadataEntry
  | HandlerForEventTypeNotFound (ty : EventType)
  | UnableToHandleEvent (err : errcode).

(** A log entry: its content hash ([e.GetHash().String()]) and its payload. *)
Record Entry : Type := { entryHash : string; entryPayload : string }.

(** ** The index *)

Inductive accountGroupJoinedState : Type :=
  | accountGroupJoinedStateJoined
  | accountGroupJoinedStateLeft.

Record accountGroup : Type :=
  { ag_state : accountGroupJoinedState; ag_group : option Group }.

(** [contact] is a pointer in the source, to a struct that no other record
    shares: it is stored in place. *)
Record AccountContact : Type := { state : ContactState; contact : ShareableContact }.

Abbreviation loc := nat (only parsing).

Record metadataStoreIndex : Type :=
  { members : gmap string (list MemberDevice);
    devices : gmap string MemberDevice;
    handledEvents : gset string;
    sentSecrets : gset string;
    admins : list PubKey;
    contacts : gmap string loc;
    contactsFromGroupPK : gmap string loc;
    groups : gmap string accountGroup;
    serviceTokens : gmap string (option ServiceToken);
    contactRequestMetadata : gmap string bytes;
    verifiedCredentials : list AccountVerifiedCredentialRegistered;
    contactRequestSeed : bytes;
    contactRequestEnabled : option bool;
    eventsContactAddAliasKey : list ContactAliasKeyAdded;
    ownAliasKeySent : bool;
    otherAliasKey : bytes;
    group : Group;
    ownMemberDevice : option MemberDevice;
    heap : list AccountContact;
    logged : list LogRecord }.

Definition set_members (m : metadataStoreIndex) v : metadataStoreIndex :=
  {| members := v; devices := devices m; handledEvents := handledEvents m;
     sentSecrets := sentSecrets m; admins := admins m; contacts := contacts m;
     contactsFromGroupPK := contactsFromGroupPK m; groups := groups m;
     serviceTokens := serviceTokens m; contactRequestMetadata := contactRequestMetadata m;
     verifiedCredentials := verifiedCredentials m; contactRequestSeed := contactRequestSeed m;
     contactRequestEnabled := contactRequestEnabled m;
     eventsContactAddAliasKey := eventsContactAddAliasKey m;
     ownAliasKeySent := ownAliasKeySent m; otherAliasKey := otherAliasKey m; group := group m;
     ownMemberDevice := ownMemberDevice m; heap := heap m; logged := logged m |}.

Definition set_devices (m : metadataStoreIndex) v : metadataStoreIndex :=
  {| members := members m; devices := v; handledEvents := handledEvents m;
     sentSecrets := sentSecrets m; admins := admins m; contacts := contacts m;
     contactsFromGroupPK := contactsFromGroupPK m; groups := groups m;
     serviceTokens := serviceTokens m; contactRequestMetadata := contactRequestMetadata m;
     verifiedCredentials := verifiedCredentials m; contactRequestSeed := contactRequestSeed m;
     contactRequestEnabled := contactRequestEnabled m;
     eventsContactAddAliasKey := eventsContactAddAliasKey m;
     ownAliasKeySent := ownAliasKeySent m; otherAliasKey := otherAliasKey m; group := group m;
     ownMemberDevice := ownMemberDevice m; heap := heap m; logged := logged m |}.

Definition set_handledEvents (m : metadataStoreIndex) v : metadataStoreIndex :=
  {| members := members m; devices := devices m; handledEvents := v;
     sentSecrets := sentSecrets m; admins := admins m; contacts := contacts m;
     contactsFromGroupPK := contactsFromGroupPK m; groups := groups m;
     serviceTokens := serviceTokens m; contactRequestMetadata := contactRequestMetadata m;
     verifiedCredentials := verifiedCredentials m; contactRequestSeed := contactRequestSeed m;
     contactRequestEnabled := contactRequestEnabled m;
     eventsContactAddAliasKey := eventsContactAddAliasKey m;
     ownAliasKeySent := ownAliasKeySent m; otherAliasKey := otherAliasKey m; group := group m;
     ownMemberDevice := ownMemberDevice m; heap := heap m; logged := logged m |}.

Definition set_sentSecrets (m : metadataStoreIndex) v : metadataStoreIndex :=
  {| members := members m; devices := devices m; handledEvents := handledEvents m;
     sentSecrets := v; admins := admins m; contacts := contacts m;
     contactsFromGroupPK := contactsFromGroupPK m; groups := groups m;
     serviceTokens := serviceTokens m; contactRequestMetadata := contactRequestMetadata m;
     verifiedCredentials := verifiedCredentials m; contactRequestSeed := contactRequestSeed m;
     contactRequestEnabled := contactRequestEnabled m;
     eventsContactAddAliasKey := eventsContactAddAliasKey m;
     ownAliasKeySent := ownAliasKeySent m; otherAliasKey := otherAliasKey m; group := group m;
     ownMemberDevice := ownMemberDevice m; heap := heap m; logged := logged m |}.

Definition set_admins (m : metadataStoreIndex) v : metadataStoreIndex :=
  {| members := members m; devices := devices m; handledEvents := handledEvents m;
     sentSecrets := sentSecrets m; admins := v; contacts := contacts m;
     contactsFromGroupPK := contactsFromGroupPK m; groups := groups m;
     serviceTokens := serviceTokens m; contactRequestMetadata := contactRequestMetadata m;
     verifiedCredentials := verifiedCredentials m; contactRequestSeed := contactRequestSeed m;
     contactRequestEnabled := contactRequestEnabled m;
     eventsContactAddAliasKey := eventsContactAddAliasKey m;
     ownAliasKeySent := ownAliasKeySent m; otherAliasKey := otherAliasKey m; group := group m;
     ownMemberDevice := ownMemberDevice m; heap := heap m; logged := logged m |}.

Definition set_contacts (m : metadataStoreIndex) v : metadataStoreIndex :=
  {| members := members m; devices := devices m; handledEvents := handledEvents m;
     sentSecrets := sentSecrets m; admins := admins m; contacts := v;
     contactsFromGroupPK := contactsFromGroupPK m; groups := groups m;
     serviceTokens := serviceTokens m; contactRequestMetadata := contactRequestMetadata m;
     verifiedCredentials := verifiedCredentials m; contactRequestSeed := contactRequestSeed m;
     contactRequestEnabled := contactRequestEnabled m;
     eventsContactAddAliasKey := eventsContactAddAliasKey m;
     ownAliasKeySent := ownAliasKeySent m; otherAliasKey := otherAliasKey m; group := group m;
     ownMemberDevice := ownMemberDevice m; heap := heap m; logged := logged m |}.

Definition set_contactsFromGroupPK (m : metadataStoreIndex) v : metadataStoreIndex :=
  {| members := members m; devices := devices m; handledEvents := handledEvents m;
     sentSecrets := sentSecrets m; admins := admins m; contacts := contacts m;
     contactsFromGroupPK := v; groups := groups m; serviceTokens := serviceTokens m;
     contactRequestMetadata := contactRequestMetadata m;
     verifiedCredentials := verifiedCredentials m; contactRequestSeed := contactRequestSeed m;
     contactRequestEnabled := contactRequestEnabled m;
     eventsContactAddAliasKey := eventsContactAddAliasKey m;
     ownAliasKeySent := ownAliasKeySent m; otherAliasKey := otherAliasKey m; group := group m;
     ownMemberDevice := ownMemberDevice m; heap := heap m; logged := logged m |}.

Definition set_groups (m : metadataStoreIndex) v : metadataStoreIndex :=
  {| members := members m; devices := devices m; handledEvents := handledEvents m;
     sentSecrets := sentSecrets m; admins := admins m; contacts := contacts m;
     contactsFromGroupPK := contactsFromGroupPK m; groups := v;
     serviceTokens := serviceTokens m; contactRequestMetadata := contactRequestMetadata m;
     verifiedCredentials := verifiedCredentials m; contactRequestSeed := contactRequestSeed m;
     contactRequestEnabled := contactRequestEnabled m;
     eventsContactAddAliasKey := eventsContactAddAliasKey m;
     ownAliasKeySent := ownAliasKeySent m; otherAliasKey := otherAliasKey m; group := group m;
     ownMemberDevice := ownMemberDevice m; heap := heap m; logged := logged m |}.

Definition set_serviceTokens (m : metadataStoreIndex) v : metadataStoreIndex :=
  {| members := members m; devices := devices m; handledEvents := handledEvents m;
     sentSecrets := sentSecrets m; admins := admins m; contacts := contacts m;
     contactsFromGroupPK := contactsFromGroupPK m; groups := groups m; serviceTokens := v;
     contactRequestMetadata := contactRequestMetadata m;
     verifiedCredentials := verifiedCredentials m; contactRequestSeed := contactRequestSeed m;
     contactRequestEnabled := contactRequestEnabled m;
     eventsContactAddAliasKey := eventsContactAddAliasKey m;
     ownAliasKeySent := ownAliasKeySent m; otherAliasKey := otherAliasKey m; group := group m;
     ownMemberDevice := ownMemberDevice m; heap := heap m; logged := logged m |}.

Definition set_contactRequestMetadata (m : metadataStoreIndex) v : metadataStoreIndex :=
  {| members := members m; devices := devices m; handledEvents := handledEvents m;
     sentSecrets := sentSecrets m; admins := admins m; contacts := contacts m;
     contactsFromGroupPK := contactsFromGroupPK m; groups := groups m;
     serviceTokens := serviceTokens m; contactRequestMetadata := v;
     verifiedCredentials := verifiedCredentials m; contactRequestSeed := contactRequestSeed m;
     contactRequestEnabled := contactRequestEnabled m;
     eventsContactAddAliasKey := eventsContactAddAliasKey m;
     ownAliasKeySent := ownAliasKeySent m; otherAliasKey := otherAliasKey m; group := group m;
     ownMemberDevice := ownMemberDevice m; heap := heap m; logged := logged m |}.

Definition set_verifiedCredentials (m : metadataStoreIndex) v : metadataStoreIndex :=
  {| members := members m; devices := devices m; handledEvents := handledEvents m;
     sentSecrets := sentSecrets m; admins := admins m; contacts := contacts m;
     contactsFromGroupPK := contactsFromGroupPK m; groups := groups m;
     serviceTokens := serviceTokens m; contactRequestMetadata := contactRequestMetadata m;
     verifiedCredentials := v; contactRequestSeed := contactRequestSeed m;
     contactRequestEnabled := contactRequestEnabled m;
     eventsContactAddAliasKey := eventsContactAddAliasKey m;
     ownAliasKeySent := ownAliasKeySent m; otherAliasKey := otherAliasKey m; group := group m;
     ownMemberDevice := ownMemberDevice m; heap := heap m; logged := logged m |}.

Definition set_contactRequestSeed (m : metadataStoreIndex) v : metadataStoreIndex :=
  {| members := members m; devices := devices m; handledEvents := handledEvents m;
     sentSecrets := sentSecrets m; admins := admins m; contacts := contacts m;
     contactsFromGroupPK := contactsFromGroupPK m; groups := groups m;
     serviceTokens := serviceTokens m; contactRequestMetadata := contactRequestMetadata m;
     verifiedCredentials := verifiedCredentials m; contactRequestSeed := v;
     contactRequestEnabled := contactRequestEnabled m;
     eventsContactAddAliasKey := eventsContactAddAliasKey m;
     ownAliasKeySent := ownAliasKeySent m; otherAliasKey := otherAliasKey m; group := group m;
     ownMemberDevice := ownMemberDevice m; heap := heap m; logged := logged m |}.

Definition set_contactRequestEnabled (m : metadataStoreIndex) v : metadataStoreIndex :=
  {| members := members m; devices := devices m; handledEvents := handledEvents m;
     sentSecrets := sentSecrets m; admins := admins m; contacts := contacts m;
     contactsFromGroupPK := contactsFromGroupPK m; groups := groups m;
     serviceTokens := serviceTokens m; contactRequestMetadata := contactRequestMetadata m;
     verifiedCredentials := verifiedCredentials m; contactRequestSeed := contactRequestSeed m;
     contactRequestEnabled := v; eventsContactAddAliasKey := eventsContactAddAliasKey m;
     ownAliasKeySent := ownAliasKeySent m; otherAliasKey := otherAliasKey m; group := group m;
     ownMemberDevice := ownMemberDevice m; heap := heap m; logged := logged m |}.

Definition set_eventsContactAddAliasKey (m : metadataStoreIndex) v : metadataStoreIndex :=
  {| members := members m; devices := devices m; handledEvents := handledEvents m;
     sentSecrets := sentSecrets m; admins := admins m; contacts := contacts m;
     contactsFromGroupPK := contactsFromGroupPK m; groups := groups m;
     serviceTokens := serviceTokens m; contactRequestMetadata := contactRequestMetadata m;
     verifiedCredentials := verifiedCredentials m; contactRequestSeed := contactRequestSeed m;
     contactRequestEnabled := contactRequestEnabled m; eventsContactAddAliasKey := v;
     ownAliasKeySent := ownAliasKeySent m; otherAliasKey := otherAliasKey m; group := group m;
     ownMemberDevice := ownMemberDevice m; heap := heap m; logged := logged m |}.

Definition set_ownAliasKeySent (m : metadataStoreIndex) v : metadataStoreIndex :=
  {| members := members m; devices := devices m; handledEvents := handledEvents m;
     sentSecrets := sentSecrets m; admins := admins m; contacts := contacts m;
     contactsFromGroupPK := contactsFromGroupPK m; groups := groups m;
     serviceTokens := serviceTokens m; contactRequestMetadata := contactRequestMetadata m;
     verifiedCredentials := verifiedCredentials m; contactRequestSeed := contactRequestSeed m;
     contactRequestEnabled := contactRequestEnabled m;
     eventsContactAddAliasKey := eventsContactAddAliasKey m; ownAliasKeySent := v;
     otherAliasKey := otherAliasKey m; group := group m; ownMemberDevice := ownMemberDevice m;
     heap := heap m; logged := logged m |}.

Definition set_otherAliasKey (m : metadataStoreIndex) v : metadataStoreIndex :=
  {| members := members m; devices := devices m; handledEvents := handledEvents m;
     sentSecrets := sentSecrets m; admins := admins m; contacts := contacts m;
     contactsFromGroupPK := contactsFromGroupPK m; groups := groups m;
     serviceTokens := serviceTokens m; contactRequestMetadata := contactRequestMetadata m;
     verifiedCredentials := verifiedCredentials m; contactRequestSeed := contactRequestSeed m;
     contactRequestEnabled := contactRequestEnabled m;
     eventsContactAddAliasKey := eventsContactAddAliasKey m;
     ownAliasKeySent := ownAliasKeySent m; otherAliasKey := v; group := group m;
     ownMemberDevice := ownMemberDevice m; heap := heap m; logged := logged m |}.

Definition set_heap (m : metadataStoreIndex) v : metadataStoreIndex :=
  {| members := members m; devices := devices m; handledEvents := handledEvents m;
     sentSecrets := sentSecrets m; admins := admins m; contacts := contacts m;
     contactsFromGroupPK := contactsFromGroupPK m; groups := groups m;
     serviceTokens := serviceTokens m; contactRequestMetadata := contactRequestMetadata m;
     verifiedCredentials := verifiedCredentials m; contactRequestSeed := contactRequestSeed m;
     contactRequestEnabled := contactRequestEnabled m;
     eventsContactAddAliasKey := eventsContactAddAliasKey m;
     ownAliasKeySent := ownAliasKeySent m; otherAliasKey := otherAliasKey m; group := group m;
     ownMemberDevice := ownMemberDevice m; heap := v; logged := logged m |}.

Definition set_logged (m : metadataStoreIndex) v : metadataStoreIndex :=
  {| members := members m; devices := devices m; handledEvents := handledEvents m;
     sentSecrets := sentSecrets m; admins := admins m; contacts := contacts m;
     contactsFromGroupPK := contactsFromGroupPK m; groups := groups m;
     serviceTokens := serviceTokens m; contactRequestMetadata := contactRequestMetadata m;
     verifiedCredentials := verifiedCredentials m; contactRequestSeed := contactRequestSeed m;
     contactRequestEnabled := contactRequestEnabled m;
     eventsContactAddAliasKey := eventsContactAddAliasKey m;
     ownAliasKeySent := ownAliasKeySent m; otherAliasKey := otherAliasKey m; group := group m;
     ownMemberDevice := ownMemberDevice m; heap := heap m; logged := v |}.

(** What the index takes from its collaborators: the entry decoder
    [openMetadataEntry] (another file of the package), the secret store's
    [GetGroupForContact] and [ServiceToken.TokenID].  An [error] of the first
    two is [None]; [TokenID] is a method on a pointer that may be nil, and
    its [None] is a fault. *)
Record Externals : Type :=
  { openMetadataEntry : list Entry → Entry → Group → option (EventType * Message);
    GetGroupForContact : PubKey → option Group;
    TokenID : option ServiceToken → option string }.

(** The outcome of a handler: [None] is a panic, otherwise the index as the
    handler left it and the error it returned, if any. *)
Definition outcome : Type := option (metadataStoreIndex * option errcode).

Abbreviation ret m := (Some (m, @None errcode)) (only parsing).
Abbreviation fail m e := (Some (m, Some e)) (only parsing).
Abbreviation panic := (@None (metadataStoreIndex * option errcode)) (only parsing).

Inductive result (A : Type) : Type :=
  | Ok (a : A)
  | Error (e : errcode).
Arguments Ok {A} a.
Arguments Error {A} e.

Definition logError (m : metadataStoreIndex) (r : LogRecord) : metadataStoreIndex :=
  set_logged m (logged m ++ [r]).

(** [&AccountContact{...}]: a fresh address of the store. *)
Definition newAccountContact (m : metadataStoreIndex) (ac : AccountContact)
  : loc * metadataStoreIndex :=
  (length (heap m), set_heap m (heap m ++ [ac])).

(** [m.admins[pk]] for the key object at the address [p]. *)
Definition lookupAdmin (m : metadataStoreIndex) (p : loc) : option PubKey :=
  admins m !! p.

(** The address of a key object that [crypto.UnmarshalEd25519PublicKey] has
    just allocated: it is none of the addresses the map holds. *)
Definition freshKeyAddress (m : metadataStoreIndex) : loc := length (admins m).

(** ** Event handlers *)

Section Handlers.
Context (ext : Externals).

Definition handleGroupMemberDeviceAdded (m : metadataStoreIndex) (event : Message)
  : outcome :=
  match event with
  | MsgGroupMemberDeviceAdded MemberPK DevicePK =>
      match UnmarshalEd25519PublicKey MemberPK with
      | None => fail m ErrDeserialization
      | Some member =>
          match UnmarshalEd25519PublicKey DevicePK with
          | None => fail m ErrDeserialization
          | Some device =>
              match devices m !! str DevicePK with
              | Some _ => ret m
              | None =>
                  let memberDevice := NewMemberDevice member device in
                  let m := set_devices m (<[str DevicePK := memberDevice]> (devices m)) in
                  ret (set_members m
                         (<[str MemberPK :=
                              default [] (members m !! str MemberPK) ++ [memberDevice]]>
                            (members m)))
              end
          end
      end
  | _ => fail m ErrInvalidInput
  end.

Definition handleGroupDeviceChainKeyAdded (m : metadataStoreIndex) (event : Message)
  : outcome :=
  match event with
  | MsgGroupDeviceChainKeyAdded DevicePK DestMemberPK =>
      match UnmarshalEd25519PublicKey DestMemberPK with
      | None => fail m ErrDeserialization
      | Some _ =>
          match UnmarshalEd25519PublicKey DevicePK with
          | None => fail m ErrDeserialization
          | Some senderPK =>
              match ownMemberDevice m with
              | None => panic
              | Some own =>
                  if Equals (Device own) senderPK
                  then ret (set_sentSecrets m ({[str DestMemberPK]} ∪ sentSecrets m))
                  else ret m
              end
          end
      end
  | _ => fail m ErrInvalidInput
  end.

Definition unsafeGetMemberByDevice (m : metadataStoreIndex) (publicKeyBytes : bytes)
  : result PubKey :=
  if decide (blen publicKeyBytes ≠ KeySize) then Error ErrInvalidInput
  else match devices m !! str publicKeyBytes with
       | None => Error ErrMissingInput
       | Some device => Ok (Member device)
       end.

Definition handleGroupJoined (m : metadataStoreIndex) (event : Message) : outcome :=
  match event with
  | MsgAccountGroupJoined evtGroup =>
      match evtGroup with
      | None => panic
      | Some g =>
          match groups m !! str (PublicKey g) with
          | Some _ => ret m
          | None =>
              ret (set_groups m
                     (<[str (PublicKey g) :=
                          {| ag_state := accountGroupJoinedStateJoined;
                             ag_group := evtGroup |}]> (groups m)))
          end
      end
  | _ => fail m ErrInvalidInput
  end.

Definition handleGroupLeft (m : metadataStoreIndex) (event : Message) : outcome :=
  match event with
  | MsgAccountGroupLeft GroupPK =>
      match groups m !! str GroupPK with
      | Some _ => ret m
      | None =>
          ret (set_groups m
                 (<[str GroupPK :=
                      {| ag_state := accountGroupJoinedStateLeft; ag_group := None |}]>
                    (groups m)))
      end
  | _ => fail m ErrInvalidInput
  end.

Definition handleContactRequestDisabled (m : metadataStoreIndex) (event : Message)
  : outcome :=
  match contactRequestEnabled m with
  | Some _ => ret m
  | None =>
      match event with
      | MsgAccountContactRequestDisabled => ret (set_contactRequestEnabled m (Some false))
      | _ => fail m ErrInvalidInput
      end
  end.

Definition handleContactRequestEnabled (m : metadataStoreIndex) (event : Message)
  : outcome :=
  match contactRequestEnabled m with
  | Some _ => ret m
  | None =>
      match event with
      | MsgAccountContactRequestEnabled => ret (set_contactRequestEnabled m (Some true))
      | _ => fail m ErrInvalidInput
      end
  end.

Definition handleContactRequestReferenceReset (m : metadataStoreIndex) (event : Message)
  : outcome :=
  match event with
  | MsgAccountContactRequestReferenceReset seed =>
      match contactRequestSeed m with
      | Some _ => ret m
      | None => ret (set_contactRequestSeed m seed)
      end
  | _ => fail m ErrInvalidInput
  end.

(** [ac] is the address of the record; reading [ac.contact.PK] through an
    address the store does not hold would be a fault. *)
Definition registerContactFromGroupPK (m : metadataStoreIndex) (ac : loc) : outcome :=
  match GroupType (group m) with
  | GroupTypeAccount =>
      match heap m !! ac with
      | None => panic
      | Some rec =>
          match UnmarshalEd25519PublicKey (PK (contact rec)) with
          | None => fail m ErrDeserialization
          | Some contactPK =>
              match GetGroupForContact ext contactPK with
              | None => fail m ErrOrbitDBOpen
              | Some g =>
                  ret (set_contactsFromGroupPK m
                         (<[str (PublicKey g) := ac]> (contactsFromGroupPK m)))
              end
          end
      end
  | _ => fail m ErrGroupInvalidType
  end.

(** [m.contacts[k].contact.Metadata = v] when it is nil: a write through the
    address stored under [k]. *)
Definition fillMetadata (m : metadataStoreIndex) (k : string) (v : bytes)
  : option metadataStoreIndex :=
  l ← contacts m !! k;
  rec ← heap m !! l;
  match Metadata (contact rec) with
  | None =>
      Some (set_heap m
              (<[l := {| state := state rec;
                         contact := {| PK := PK (contact rec);
                                       PublicRendezvousSeed :=
                                         PublicRendezvousSeed (contact rec);
                                       Metadata := v |} |}]> (heap m)))
  | Some _ => Some m
  end.

Definition fillPublicRendezvousSeed (m : metadataStoreIndex) (k : string) (v : bytes)
  : option metadataStoreIndex :=
  l ← contacts m !! k;
  rec ← heap m !! l;
  match PublicRendezvousSeed (contact rec) with
  | None =>
      Some (set_heap m
              (<[l := {| state := state rec;
                         contact := {| PK := PK (contact rec);
                                       PublicRendezvousSeed := v;
                                       Metadata := Metadata (contact rec) |} |}]>
                 (heap m)))
  | Some _ => Some m
  end.

Definition handleContactRequestOutgoingEnqueued (m : metadataStoreIndex)
    (event : Message) : outcome :=
  match event with
  | MsgAccountContactRequestOutgoingEnqueued (Some evtContact) OwnMetadata =>
      match contacts m !! str (PK evtContact) with
      | Some _ =>
          m ← fillMetadata m (str (PK evtContact)) (Metadata evtContact);
          m ← fillPublicRendezvousSeed m (str (PK evtContact))
                (PublicRendezvousSeed evtContact);
          ret m
      | None =>
          let m :=
            match contactRequestMetadata m !! str (PK evtContact) with
            | Some data =>
                if decide (blen data = 0)
                then set_contactRequestMetadata m
                       (<[str (PK evtContact) := OwnMetadata]> (contactRequestMetadata m))
                else m
            | None =>
                set_contactRequestMetadata m
                  (<[str (PK evtContact) := OwnMetadata]> (contactRequestMetadata m))
            end in
          let '(ac, m) :=
            newAccountContact m
              {| state := ContactStateToRequest;
                 contact := {| PK := PK evtContact;
                               PublicRendezvousSeed := PublicRendezvousSeed evtContact;
                               Metadata := Metadata evtContact |} |} in
          let m := set_contacts m (<[str (PK evtContact) := ac]> (contacts m)) in
          registerContactFromGroupPK m ac
      end
  | _ => fail m ErrInvalidInput
  end.

Definition handleContactRequestOutgoingSent (m : metadataStoreIndex) (event : Message)
  : outcome :=
  match event with
  | MsgAccountContactRequestOutgoingSent ContactPK =>
      match contacts m !! str ContactPK with
      | Some _ => ret m
      | None =>
          let '(ac, m) :=
            newAccountContact m
              {| state := ContactStateAdded;
                 contact := {| PK := ContactPK; PublicRendezvousSeed := None;
                               Metadata := None |} |} in
          let m := set_contacts m (<[str ContactPK := ac]> (contacts m)) in
          registerContactFromGroupPK m ac
      end
  | _ => fail m ErrInvalidInput
  end.

Definition handleContactRequestIncomingReceived (m : metadataStoreIndex)
    (event : Message) : outcome :=
  match event with
  | MsgAccountContactRequestIncomingReceived ContactPK ContactRendezvousSeed
      ContactMetadata =>
      match contacts m !! str ContactPK with
      | Some _ =>
          m ← fillMetadata m (str ContactPK) ContactMetadata;
          m ← fillPublicRendezvousSeed m (str ContactPK) ContactRendezvousSeed;
          ret m
      | None =>
          let '(ac, m) :=
            newAccountContact m
              {| state := ContactStateReceived;
                 contact := {| PK := ContactPK;
                               PublicRendezvousSeed := ContactRendezvousSeed;
                               Metadata := ContactMetadata |} |} in
          let m := set_contacts m (<[str ContactPK := ac]> (contacts m)) in
          registerContactFromGroupPK m ac
      end
  | _ => fail m ErrInvalidInput
  end.

Definition handleContactRequestIncomingDiscarded (m : metadataStoreIndex)
    (event : Message) : outcome :=
  match event with
  | MsgAccountContactRequestIncomingDiscarded ContactPK =>
      match contacts m !! str ContactPK with
      | Some _ => ret m
      | None =>
          let '(ac, m) :=
            newAccountContact m
              {| state := ContactStateDiscarded;
                 contact := {| PK := ContactPK; PublicRendezvousSeed := None;
                               Metadata := None |} |} in
          let m := set_contacts m (<[str ContactPK := ac]> (contacts m)) in
          registerContactFromGroupPK m ac
      end
  | _ => fail m ErrInvalidInput
  end.

Definition handleContactRequestIncomingAccepted (m : metadataStoreIndex)
    (event : Message) : outcome :=
  match event with
  | MsgAccountContactRequestIncomingAccepted ContactPK =>
      match contacts m !! str ContactPK with
      | Some _ => ret m
      | None =>
          let '(ac, m) :=
            newAccountContact m
              {| state := ContactStateAdded;
                 contact := {| PK := ContactPK; PublicRendezvousSeed := None;
                               Metadata := None |} |} in
          let m := set_contacts m (<[str ContactPK := ac]> (contacts m)) in
          registerContactFromGroupPK m ac
      end
  | _ => fail m ErrInvalidInput
  end.

Definition handleContactBlocked (m : metadataStoreIndex) (event : Message) : outcome :=
  match event with
  | MsgAccountContactBlocked ContactPK =>
      match contacts m !! str ContactPK with
      | Some _ => ret m
      | None =>
          let '(ac, m) :=
            newAccountContact m
              {| state := ContactStateBlocked;
                 contact := {| PK := ContactPK; PublicRendezvousSeed := None;
                               Metadata := None |} |} in
          let m := set_contacts m (<[str ContactPK := ac]> (contacts m)) in
          registerContactFromGroupPK m ac
      end
  | _ => fail m ErrInvalidInput
  end.

Definition handleContactUnblocked (m : metadataStoreIndex) (event : Message) : outcome :=
  match event with
  | MsgAccountContactUnblocked ContactPK =>
      match contacts m !! str ContactPK with
      | Some _ => ret m
      | None =>
          let '(ac, m) :=
            newAccountContact m
              {| state := ContactStateRemoved;
                 contact := {| PK := ContactPK; PublicRendezvousSeed := None;
                               Metadata := None |} |} in
          let m := set_contacts m (<[str ContactPK := ac]> (contacts m)) in
          registerContactFromGroupPK m ac
      end
  | _ => fail m ErrInvalidInput
  end.

Definition handleContactAliasKeyAdded (m : metadataStoreIndex) (event : Message)
  : outcome :=
  match event with
  | MsgContactAliasKeyAdded evt =>
      ret (set_eventsContactAddAliasKey m (eventsContactAddAliasKey m ++ [evt]))
  | _ => fail m ErrInvalidInput
  end.

Definition handleAccountServiceTokenAdded (m : metadataStoreIndex) (event : Message)
  : outcome :=
  match event with
  | MsgAccountServiceTokenAdded evtServiceToken =>
      match TokenID ext evtServiceToken with
      | None => panic
      | Some tokenID =>
          match serviceTokens m !! tokenID with
          | Some _ => ret m
          | None =>
              ret (set_serviceTokens m (<[tokenID := evtServiceToken]> (serviceTokens m)))
          end
      end
  | _ => fail m ErrInvalidInput
  end.

Definition handleAccountServiceTokenRemoved (m : metadataStoreIndex) (event : Message)
  : outcome :=
  match event with
  | MsgAccountServiceTokenRemoved tokenID =>
      ret (set_serviceTokens m (<[tokenID := None]> (serviceTokens m)))
  | _ => fail m ErrInvalidInput
  end.

(** [pk] is the key object the unmarshalling has just allocated; [m.admins[pk]]
    looks its address up, and [m.admins[pk] = struct{}{}] inserts it as a new
    key of the map. *)
Definition handleMultiMemberInitialMember (m : metadataStoreIndex) (event : Message)
  : outcome :=
  match event with
  | MsgMultiMemberGroupInitialMemberAnnounced MemberPK =>
      match UnmarshalEd25519PublicKey MemberPK with
      | None => fail m ErrDeserialization
      | Some pk =>
          let p := freshKeyAddress m in
          match lookupAdmin m p with
          | Some _ => fail m ErrInternal
          | None => ret (set_admins m (admins m ++ [pk]))
          end
      end
  | _ => fail m ErrInvalidInput
  end.

Definition handleMultiMemberGrantAdminRole (m : metadataStoreIndex) (event : Message)
  : outcome := ret m.

Definition handleGroupMetadataPayloadSent (m : metadataStoreIndex) (event : Message)
  : outcome := ret m.

Definition handleAccountVerifiedCredentialRegistered (m : metadataStoreIndex)
    (event : Message) : outcome :=
  match event with
  | MsgAccountVerifiedCredentialRegistered e =>
      ret (set_verifiedCredentials m (verifiedCredentials m ++ [e]))
  | _ => fail m ErrInvalidInput
  end.

End Handlers.

(** ** The replay *)

Section Replay.
Context (ext : Externals).

Definition handler : Type := metadataStoreIndex → Message → outcome.

(** [m.eventHandlers], as [newMetadataIndex] fills it; it never changes. *)
Definition eventHandlers (ty : EventType) : option (list handler) :=
  match ty with
  | EventTypeAccountContactBlocked => Some [handleContactBlocked ext]
  | EventTypeAccountContactRequestDisabled => Some [handleContactRequestDisabled]
  | EventTypeAccountContactRequestEnabled => Some [handleContactRequestEnabled]
  | EventTypeAccountContactRequestIncomingAccepted =>
      Some [handleContactRequestIncomingAccepted ext]
  | EventTypeAccountContactRequestIncomingDiscarded =>
      Some [handleContactRequestIncomingDiscarded ext]
  | EventTypeAccountContactRequestIncomingReceived =>
      Some [handleContactRequestIncomingReceived ext]
  | EventTypeAccountContactRequestOutgoingEnqueued =>
      Some [handleContactRequestOutgoingEnqueued ext]
  | EventTypeAccountContactRequestOutgoingSent =>
      Some [handleContactRequestOutgoingSent ext]
  | EventTypeAccountContactRequestReferenceReset =>
      Some [handleContactRequestReferenceReset]
  | EventTypeAccountContactUnblocked => Some [handleContactUnblocked ext]
  | EventTypeAccountGroupJoined => Some [handleGroupJoined]
  | EventTypeAccountGroupLeft => Some [handleGroupLeft]
  | EventTypeContactAliasKeyAdded => Some [handleContactAliasKeyAdded]
  | EventTypeGroupDeviceChainKeyAdded => Some [handleGroupDeviceChainKeyAdded]
  | EventTypeGroupMemberDeviceAdded => Some [handleGroupMemberDeviceAdded]
  | EventTypeMultiMemberGroupAdminRoleGranted => Some [handleMultiMemberGrantAdminRole]
  | EventTypeMultiMemberGroupInitialMemberAnnounced =>
      Some [handleMultiMemberInitialMember]
  | EventTypeAccountServiceTokenAdded => Some [handleAccountServiceTokenAdded ext]
  | EventTypeAccountServiceTokenRemoved => Some [handleAccountServiceTokenRemoved]
  | EventTypeGroupMetadataPayloadSent => Some [handleGroupMetadataPayloadSent]
  | EventTypeAccountVerifiedCredentialRegistered =>
      Some [handleAccountVerifiedCredentialRegistered]
  | EventTypeUndefined | EventTypeOther _ => None
  end.

(** The inner loop [for _, h := range handlers]: the index after all
    handlers and [lastErr]. *)
Fixpoint runHandlers (hs : list handler) (event : Message) (m : metadataStoreIndex)
    (lastErr : option errcode) : outcome :=
  match hs with
  | [] => Some (m, lastErr)
  | h :: hs =>
      match h m event with
      | None => None
      | Some (m, None) => runHandlers hs event m lastErr
      | Some (m, Some err) =>
          runHandlers hs event (logError m (UnableToHandleEvent err)) (Some err)
      end
  end.

Definition markHandled (m : metadataStoreIndex) (e : Entry) : metadataStoreIndex :=
  set_handledEvents m ({[entryHash e]} ∪ handledEvents m).

Definition isAccount (g : Group) : bool :=
  match GroupType g with GroupTypeAccount => true | _ => false end.

(** What the loop body does once the entry passed the already-handled
    guard. *)
Definition dispatchEntry (log : list Entry) (m : metadataStoreIndex) (e : Entry)
  : option metadataStoreIndex :=
  match openMetadataEntry ext log e (group m) with
  | None => Some (logError m UnableToOpenMetadataEntry)
  | Some (ty, event) =>
      match eventHandlers ty with
      | None => Some (logError (markHandled m e) (HandlerForEventTypeNotFound ty))
      | Some handlers =>
          match runHandlers handlers event m None with
          | None => None
          | Some (m, Some _) => Some (markHandled m e)
          | Some (m, None) => Some (markHandled m e)
          end
      end
  end.

(** One iteration of the loop of [UpdateIndex]. *)
Definition replayEntry (log : list Entry) (m : metadataStoreIndex) (e : Entry)
  : option metadataStoreIndex :=
  let alreadyHandledEvent := bool_decide (entryHash e ∈ handledEvents m) in
  if negb (isAccount (group m)) && alreadyHandledEvent then Some m
  else dispatchEntry log m e.

(** [for i := len(entries) - 1; i >= 0; i--]: [replayFrom log entries n m]
    runs the iterations [i = n-1, ..., 0]. *)
Fixpoint replayFrom (log entries : list Entry) (n : nat) (m : metadataStoreIndex)
  : option metadataStoreIndex :=
  match n with
  | 0 => Some m
  | S i =>
      match entries !! i with
      | None => None
      | Some e => replayEntry log m e ≫= replayFrom log entries i
      end
  end.

Definition resetState (m : metadataStoreIndex) : metadataStoreIndex :=
  let m := set_contacts m ∅ in
  let m := set_contactsFromGroupPK m ∅ in
  let m := set_groups m ∅ in
  let m := set_serviceTokens m ∅ in
  let m := set_contactRequestMetadata m ∅ in
  let m := set_contactRequestEnabled m None in
  let m := set_contactRequestSeed m None in
  let m := set_verifiedCredentials m [] in
  set_handledEvents m ∅.

(** The loop of [postHandlerSentAliases] over the staged events. *)
Fixpoint sentAliasesLoop (evts : list ContactAliasKeyAdded) (m : metadataStoreIndex)
  : outcome :=
  match evts with
  | [] => ret m
  | evt :: evts =>
      match unsafeGetMemberByDevice m (DevicePK evt) with
      | Error _ => fail m ErrCouldNotGetMember
      | Ok memberPublicKey =>
          match ownMemberDevice m with
          | None => panic
          | Some own =>
              if Equals memberPublicKey (Member own)
              then sentAliasesLoop evts (set_ownAliasKeySent m true)
              else if decide (blen (AliasPK evt) ≠ KeySize)
                   then fail m ErrInvalidInput
                   else sentAliasesLoop evts (set_otherAliasKey m (AliasPK evt))
          end
      end
  end.

Definition postHandlerSentAliases (m : metadataStoreIndex) : outcome :=
  match sentAliasesLoop (eventsContactAddAliasKey m) m with
  | Some (m, None) => ret (set_eventsContactAddAliasKey m [])
  | o => o
  end.

(** [m.postIndexActions], as [newMetadataIndex] fills it. *)
Definition postIndexActions : list (metadataStoreIndex → outcome) :=
  [postHandlerSentAliases].

(** The closing loop of [UpdateIndex]: the first failing action ends the
    call with [ErrInternal]. *)
Fixpoint runPostIndexActions (hs : list (metadataStoreIndex → outcome))
    (m : metadataStoreIndex) : outcome :=
  match hs with
  | [] => ret m
  | h :: hs =>
      match h m with
      | None => None
      | Some (m, Some _) => fail m ErrInternal
      | Some (m, None) => runPostIndexActions hs m
      end
  end.

Definition UpdateIndex (m : metadataStoreIndex) (log : list Entry) : outcome :=
  let entries := log in
  let m := resetState m in
  m ← replayFrom log entries (length entries) m;
  runPostIndexActions postIndexActions m.

End Replay.

(** ** Queries *)

Definition getMemberByDevice (m : metadataStoreIndex) (devicePublicKey : PubKey)
  : result PubKey :=
  unsafeGetMemberByDevice m (Some devicePublicKey).

Definition getDevicesForMember (m : metadataStoreIndex) (pk : PubKey)
  : result (list PubKey) :=
  match members m !! pk with
  | None => Error ErrInvalidInput
  | Some mds => Ok (Device <$> mds)
  end.

Definition MemberCount (m : metadataStoreIndex) : nat := size (members m).

Definition DeviceCount (m : metadataStoreIndex) : nat := size (devices m).

(** The records of the returned map are new ones, copied field by field; they
    are given by value.  (Every address held by [m.contacts] is in the
    store: [contactsWf].) *)
Definition listContacts (m : metadataStoreIndex) : gmap string AccountContact :=
  omap
    (λ l,
       c ← heap m !! l;
       Some {| state := state c;
               contact := {| PK := PK (contact c);
                             PublicRendezvousSeed := PublicRendezvousSeed (contact c);
                             Metadata := Metadata (contact c) |} |})
    (contacts m).

Definition listVerifiedCredentials (m : metadataStoreIndex)
  : list AccountVerifiedCredentialRegistered :=
  verifiedCredentials m.

(** [md[0]] on an empty list is a fault. *)
Definition listMembers (m : metadataStoreIndex) : option (list PubKey) :=
  mapM (λ kv, Member <$> head (snd kv)) (map_to_list (members m)).

Definition listDevices (m : metadataStoreIndex) : list PubKey :=
  (λ kv, Device (snd kv)) <$> map_to_list (devices m).

Definition areSecretsAlreadySent (m : metadataStoreIndex) (pk : PubKey) : bool :=
  bool_decide (pk ∈ sentSecrets m).

Definition listServiceTokens (m : metadataStoreIndex) : list ServiceToken :=
  omap snd (map_to_list (serviceTokens m)).

(** One key for every entry of the map, each given by its bytes: a member
    whose key was inserted as several key objects is listed as often.  The
    code lists in the order of the map iteration, here the order is that of
    insertion. *)
Definition listAdmins (m : metadataStoreIndex) : list PubKey := admins m.

Definition listOtherMembersDevices (m : metadataStoreIndex) : list PubKey :=
  match ownMemberDevice m with
  | None => []
  | Some own =>
      let ownMemberPK := Member own in
      mjoin ((λ kv, if decide (ownMemberPK = fst kv) then [] else Device <$> snd kv)
               <$> map_to_list (members m))
  end.

Definition contactRequestsEnabled (m : metadataStoreIndex) : bool :=
  match contactRequestEnabled m with
  | Some b => b
  | None => false
  end.

Definition contactRequestsSeed (m : metadataStoreIndex) : bytes := contactRequestSeed m.

(** The result is the address held by [m.contacts], not a copy. *)
Definition getContact (m : metadataStoreIndex) (pk : PubKey) : result loc :=
  match contacts m !! pk with
  | None => Error ErrMissingMapKey
  | Some contact => Ok contact
  end.

(** ** Construction *)

Definition newMetadataIndex (g : Group) (md : option MemberDevice) : metadataStoreIndex :=
  {| members := ∅; devices := ∅; handledEvents := ∅; sentSecrets := ∅; admins := [];
     contacts := ∅; contactsFromGroupPK := ∅; groups := ∅; serviceTokens := ∅;
     contactRequestMetadata := ∅; verifiedCredentials := []; contactRequestSeed := None;
     contactRequestEnabled := None; eventsContactAddAliasKey := [];
     ownAliasKeySent := false; otherAliasKey := None; group := g;
     ownMemberDevice := md; heap := []; logged := [] |}.

(** ** The replay as a recursion on the entries in processing order *)

Section Runs.
Context (ext : Externals).

(** The iterations of the loop over [es], first entry first. *)
Fixpoint replayList (log es : list Entry) (m : metadataStoreIndex)
  : option metadataStoreIndex :=
  match es with
  | [] => Some m
  | e :: es => replayEntry ext log m e ≫= replayList log es
  end.

(** The same without the already-handled guard. *)
Fixpoint dispatchList (log es : list Entry) (m : metadataStoreIndex)
  : option metadataStoreIndex :=
  match es with
  | [] => Some m
  | e :: es => dispatchEntry ext log m e ≫= dispatchList log es
  end.

End Runs.

(** * Vocabulary of the properties *)

(** ** Logs and what their entries say *)

(** The entries of a log are told apart by their content hash.  The replay
    relies on it outside Account groups, where an entry whose hash was
    already handled is skipped. *)
Definition accountOrDistinct (g : Group) (log : list Entry) : Prop :=
  isAccount g = true ∨ NoDup (entryHash <$> log).

(** The newest entry of a log, in log order, for which [f] says something. *)
Definition newest {A} (f : Entry → option A) (log : list Entry) : option A :=
  head (omap f (reverse log)).

(** What a join or leave event says: the group key and the state it
    induces. *)
Definition groupEvent (d : EventType * Message)
  : option (string * accountGroupJoinedState) :=
  match d with
  | (EventTypeAccountGroupJoined, MsgAccountGroupJoined (Some g)) =>
      Some (str (PublicKey g), accountGroupJoinedStateJoined)
  | (EventTypeAccountGroupLeft, MsgAccountGroupLeft GroupPK) =>
      Some (str GroupPK, accountGroupJoinedStateLeft)
  | _ => None
  end.

(** The state an entry induces for the group [groupPK], when it is a join or
    leave event of that group. *)
Definition groupStateFor (ext : Externals) (log : list Entry) (g : Group)
    (groupPK : string) (e : Entry) : option accountGroupJoinedState :=
  d ← openMetadataEntry ext log e g;
  ks ← groupEvent d;
  if decide (fst ks = groupPK) then Some (snd ks) else None.

(** What a contact event says: the key of the contact and the record the
    event creates when the contact has none (the state it induces, with the
    rendezvous seed and metadata it carries). *)
Definition contactEvent (d : EventType * Message) : option (string * AccountContact) :=
  match d with
  | (EventTypeAccountContactRequestOutgoingEnqueued,
     MsgAccountContactRequestOutgoingEnqueued (Some c) _) =>
      Some (str (PK c),
            {| state := ContactStateToRequest;
               contact := {| PK := PK c; PublicRendezvousSeed := PublicRendezvousSeed c;
                             Metadata := Metadata c |} |})
  | (EventTypeAccountContactRequestOutgoingSent,
     MsgAccountContactRequestOutgoingSent pk) =>
      Some (str pk,
            {| state := ContactStateAdded;
               contact := {| PK := pk; PublicRendezvousSeed := None; Metadata := None |} |})
  | (EventTypeAccountContactRequestIncomingReceived,
     MsgAccountContactRequestIncomingReceived pk seed metadata) =>
      Some (str pk,
            {| state := ContactStateReceived;
               contact := {| PK := pk; PublicRendezvousSeed := seed;
                             Metadata := metadata |} |})
  | (EventTypeAccountContactRequestIncomingDiscarded,
     MsgAccountContactRequestIncomingDiscarded pk) =>
      Some (str pk,
            {| state := ContactStateDiscarded;
               contact := {| PK := pk; PublicRendezvousSeed := None; Metadata := None |} |})
  | (EventTypeAccountContactRequestIncomingAccepted,
     MsgAccountContactRequestIncomingAccepted pk) =>
      Some (str pk,
            {| state := ContactStateAdded;
               contact := {| PK := pk; PublicRendezvousSeed := None; Metadata := None |} |})
  | (EventTypeAccountContactBlocked, MsgAccountContactBlocked pk) =>
      Some (str pk,
            {| state := ContactStateBlocked;
               contact := {| PK := pk; PublicRendezvousSeed := None; Metadata := None |} |})
  | (EventTypeAccountContactUnblocked, MsgAccountContactUnblocked pk) =>
      Some (str pk,
            {| state := ContactStateRemoved;
               contact := {| PK := pk; PublicRendezvousSeed := None; Metadata := None |} |})
  | _ => None
  end.

(** The state an entry induces for the contact [contactPK], when it is a
    contact event of that contact. *)
Definition contactStateFor (ext : Externals) (log : list Entry) (g : Group)
    (contactPK : string) (e : Entry) : option ContactState :=
  d ← openMetadataEntry ext log e g;
  kc ← contactEvent d;
  if decide (fst kc = contactPK) then Some (state (snd kc)) else None.

(** The alias-key event of an entry, if it is one. *)
Definition aliasKeyEvent (d : option (EventType * Message)) : option ContactAliasKeyAdded :=
  match d with
  | Some (EventTypeContactAliasKeyAdded, MsgContactAliasKeyAdded evt) => Some evt
  | _ => None
  end.

(** The alias-key events of the entries [es], in that order. *)
Definition stagedAliasKeys (ext : Externals) (log : list Entry) (g : Group)
    (es : list Entry) : list ContactAliasKeyAdded :=
  omap (λ e, aliasKeyEvent (openMetadataEntry ext log e g)) es.

Definition credentialEvent (d : option (EventType * Message))
  : option AccountVerifiedCredentialRegistered :=
  match d with
  | Some (EventTypeAccountVerifiedCredentialRegistered,
          MsgAccountVerifiedCredentialRegistered c) => Some c
  | _ => None
  end.

(** The already-handled guard of the loop. *)
Definition skipsEntry (m : metadataStoreIndex) (e : Entry) : bool :=
  negb (isAccount (group m)) && bool_decide (entryHash e ∈ handledEvents m).

(** The entries whose handler faults: a join event without a group, a token
    event whose [TokenID] faults, a chain-key event with valid keys on an
    index without an own binding. *)
Definition entryFaults (ext : Externals) (own : option MemberDevice)
    (d : option (EventType * Message)) : bool :=
  match d with
  | Some (EventTypeAccountGroupJoined, MsgAccountGroupJoined None) => true
  | Some (EventTypeAccountServiceTokenAdded, MsgAccountServiceTokenAdded tok) =>
      bool_decide (TokenID ext tok = None)
  | Some (EventTypeGroupDeviceChainKeyAdded, MsgGroupDeviceChainKeyAdded dev dest) =>
      bool_decide (blen dest = KeySize) && bool_decide (blen dev = KeySize)
      && bool_decide (own = None)
  | _ => false
  end.

(** ** Readings of the index *)

(** The record of a contact, read through the address [m.contacts] holds. *)
Definition contactAt (m : metadataStoreIndex) (k : string) : option AccountContact :=
  l ← contacts m !! k; heap m !! l.

(** The addresses held by [m.contacts] are in the store, and two keys never
    share one. *)
Definition contactsWf (m : metadataStoreIndex) : Prop :=
  (∀ k l, contacts m !! k = Some l → l < length (heap m)) ∧
  (∀ k1 k2 l, contacts m !! k1 = Some l → contacts m !! k2 = Some l → k1 = k2).

(** An existing record takes the seed and metadata of an event where it has
    none; its state stays. *)
Definition fillFrom (new old : AccountContact) : AccountContact :=
  {| state := state old;
     contact :=
       {| PK := PK (contact old);
          PublicRendezvousSeed :=
            match PublicRendezvousSeed (contact old) with
            | Some s => Some s
            | None => PublicRendezvousSeed (contact new)
            end;
          Metadata :=
            match Metadata (contact old) with
            | Some s => Some s
            | None => Metadata (contact new)
            end |} |}.

(** The error of [registerContactFromGroupPK] for a contact key, if any. *)
Definition registrationError (ext : Externals) (g : Group) (contactPK : bytes)
  : option errcode :=
  if isAccount g
  then match UnmarshalEd25519PublicKey contactPK with
       | None => Some ErrDeserialization
       | Some pk =>
           match GetGroupForContact ext pk with
           | None => Some ErrOrbitDBOpen
           | Some _ => None
           end
       end
  else Some ErrGroupInvalidType.

(** What a caller reads through the address [getContact] returned. *)
Definition readContact (m : metadataStoreIndex) (r : result loc)
  : result (option AccountContact) :=
  match r with
  | Ok l => Ok (heap m !! l)
  | Error e => Error e
  end.

(** A caller's write through an address it was given. *)
Definition writeThrough (m : metadataStoreIndex) (l : loc) (rec : AccountContact)
  : metadataStoreIndex :=
  set_heap m (<[l := rec]> (heap m)).

(** The member of the sender of an alias-key event, by the device registry. *)
Definition senderMember (m : metadataStoreIndex) (evt : ContactAliasKeyAdded)
  : option PubKey :=
  match unsafeGetMemberByDevice m (DevicePK evt) with
  | Ok pk => Some pk
  | Error _ => None
  end.

(** The sender of the event is a device of the own member. *)
Definition fromOwnMember (m : metadataStoreIndex) (evt : ContactAliasKeyAdded) : bool :=
  match senderMember m evt, ownMemberDevice m with
  | Some pk, Some own => Equals pk (Member own)
  | _, _ => false
  end.

Definition fromOtherMember (m : metadataStoreIndex) (evt : ContactAliasKeyAdded) : bool :=
  negb (fromOwnMember m evt).

(** The member and device registries agree: a member's list holds bindings
    of that member, each registered under its device key; a registered device
    is in the list of its member; no list is empty or names a device twice. *)
Definition registryInv (m : metadataStoreIndex) : Prop :=
  (∀ k l b, members m !! k = Some l → b ∈ l → Member b = k) ∧
  (∀ k l b, members m !! k = Some l → b ∈ l → devices m !! Device b = Some b) ∧
  (∀ d b, devices m !! d = Some b →
          Device b = d ∧ ∃ l, members m !! Member b = Some l ∧ b ∈ l) ∧
  (∀ k l, members m !! k = Some l → NoDup (Device <$> l) ∧ l ≠ []).

(** The device key [d] is in the list of the member key [k]. *)
Definition deviceListedUnder (m : metadataStoreIndex) (d k : string) : Prop :=
  ∃ l, members m !! k = Some l ∧ d ∈ Device <$> l.

(** A sequence of events given to [handleGroupMemberDeviceAdded], one after
    the other, whatever each call returns. *)
Fixpoint memberDeviceEvents (m : metadataStoreIndex) (evs : list Message)
  : metadataStoreIndex :=
  match evs with
  | [] => m
  | ev :: evs =>
      match handleGroupMemberDeviceAdded m ev with
      | Some (m', _) => memberDeviceEvents m' evs
      | None => m
      end
  end.

(** Every entry of the member, device, admin and sent-secret maps of [m] is
    still in [m']; a member's list can only have grown at its end. *)
Definition registryGrows (m m' : metadataStoreIndex) : Prop :=
  (∀ k l, members m !! k = Some l → ∃ l', members m' !! k = Some (l ++ l')) ∧
  devices m ⊆ devices m' ∧
  admins m `prefix_of` admins m' ∧
  sentSecrets m ⊆ sentSecrets m'.

Definition registryOf (m : metadataStoreIndex) :=
  (members m, devices m, admins m, sentSecrets m).

(** The index with the per-replay structures emptied, every other field as
    it is. *)
Definition perReplayCleared (m : metadataStoreIndex) : metadataStoreIndex :=
  {| members := members m; devices := devices m; handledEvents := ∅;
     sentSecrets := sentSecrets m; admins := admins m; contacts := ∅;
     contactsFromGroupPK := ∅; groups := ∅; serviceTokens := ∅;
     contactRequestMetadata := ∅; verifiedCredentials := [];
     contactRequestSeed := None; contactRequestEnabled := None;
     eventsContactAddAliasKey := eventsContactAddAliasKey m;
     ownAliasKeySent := ownAliasKeySent m; otherAliasKey := otherAliasKey m;
     group := group m; ownMemberDevice := ownMemberDevice m; heap := heap m;
     logged := logged m |}.

(** The index with the alias-key staging and results blanked: what the
    post-action cannot change. *)
Definition eraseAliases (m : metadataStoreIndex) : metadataStoreIndex :=
  set_eventsContactAddAliasKey (set_otherAliasKey (set_ownAliasKeySent m false) None) [].

(** Two indexes answer every query alike. *)
Definition observablyEqual (m1 m2 : metadataStoreIndex) : Prop :=
  listContacts m1 = listContacts m2 ∧
  (∀ pk, readContact m1 (getContact m1 pk) = readContact m2 (getContact m2 pk)) ∧
  (∀ d, getMemberByDevice m1 d = getMemberByDevice m2 d) ∧
  (∀ pk, getDevicesForMember m1 pk = getDevicesForMember m2 pk) ∧
  MemberCount m1 = MemberCount m2 ∧
  DeviceCount m1 = DeviceCount m2 ∧
  listVerifiedCredentials m1 = listVerifiedCredentials m2 ∧
  listMembers m1 = listMembers m2 ∧
  listDevices m1 = listDevices m2 ∧
  (∀ pk, areSecretsAlreadySent m1 pk = areSecretsAlreadySent m2 pk) ∧
  listServiceTokens m1 = listServiceTokens m2 ∧
  listAdmins m1 = listAdmins m2 ∧
  listOtherMembersDevices m1 = listOtherMembersDevices m2 ∧
  contactRequestsEnabled m1 = contactRequestsEnabled m2 ∧
  contactRequestsSeed m1 = contactRequestsSeed m2.



(** ** The effect of an entry, part by part *)

(** The part of the index an event type works on. *)
Inductive domain : Type :=
  | Registry | Contacts | Roster | Tokens | Knobs | Aliases | Credentials | NoPart.

Global Instance domain_eq_dec : EqDecision domain.
Proof. solve_decision. Defined.

Definition domainOf (ty : EventType) : domain :=
  match ty with
  | EventTypeGroupMemberDeviceAdded | EventTypeGroupDeviceChainKeyAdded
  | EventTypeMultiMemberGroupInitialMemberAnnounced => Registry
  | EventTypeAccountContactBlocked | EventTypeAccountContactUnblocked
  | EventTypeAccountContactRequestIncomingAccepted
  | EventTypeAccountContactRequestIncomingDiscarded
  | EventTypeAccountContactRequestIncomingReceived
  | EventTypeAccountContactRequestOutgoingEnqueued
  | EventTypeAccountContactRequestOutgoingSent => Contacts
  | EventTypeAccountGroupJoined | EventTypeAccountGroupLeft => Roster
  | EventTypeAccountServiceTokenAdded | EventTypeAccountServiceTokenRemoved => Tokens
  | EventTypeAccountContactRequestDisabled | EventTypeAccountContactRequestEnabled
  | EventTypeAccountContactRequestReferenceReset => Knobs
  | EventTypeContactAliasKeyAdded => Aliases
  | EventTypeAccountVerifiedCredentialRegistered => Credentials
  | _ => NoPart
  end.

(** [m'] agrees with [m] outside the part [d]. *)
Definition agreeOutside (d : domain) (m m' : metadataStoreIndex) : Prop :=
  (d ≠ Registry →
   members m' = members m ∧ devices m' = devices m ∧ admins m' = admins m ∧
   sentSecrets m' = sentSecrets m) ∧
  (d ≠ Contacts →
   contacts m' = contacts m ∧ heap m' = heap m ∧
   contactsFromGroupPK m' = contactsFromGroupPK m ∧
   contactRequestMetadata m' = contactRequestMetadata m) ∧
  (d ≠ Roster → groups m' = groups m) ∧
  (d ≠ Tokens → serviceTokens m' = serviceTokens m) ∧
  (d ≠ Knobs →
   contactRequestEnabled m' = contactRequestEnabled m ∧
   contactRequestSeed m' = contactRequestSeed m) ∧
  (d ≠ Aliases → eventsContactAddAliasKey m' = eventsContactAddAliasKey m) ∧
  (d ≠ Credentials → verifiedCredentials m' = verifiedCredentials m).

(** A handler keeps the part [f] of the index. *)
Definition keeps {A} (f : metadataStoreIndex → A)
    (h : metadataStoreIndex → Message → outcome) : Prop :=
  ∀ m ev m' r, h m ev = Some (m', r) → f m' = f m.

(** No handler touches the bound group, the own binding, the handled set,
    the trace or the alias-key results. *)
Definition fixedPart (m : metadataStoreIndex) :=
  (group m, ownMemberDevice m, handledEvents m, logged m, ownAliasKeySent m,
   otherAliasKey m).

(** In an Account group no entry is skipped; in another group an entry is
    skipped only when its hash was handled, which needs an earlier entry with
    the same hash. *)
Definition unguarded (m : metadataStoreIndex) (es : list Entry) : Prop :=
  isAccount (group m) = true ∨
  (NoDup (entryHash <$> es) ∧ ∀ e, e ∈ es → entryHash e ∉ handledEvents m).

(** The effect of a decoded entry on the record of the contact [k]. *)
Definition contactStep (d : option (EventType * Message)) (k : string)
    (old : option AccountContact) : option AccountContact :=
  match d ≫= contactEvent with
  | Some (k', new) =>
      if decide (k' = k)
      then match old with
           | Some rec => Some (fillFrom new rec)
           | None => Some new
           end
      else old
  | None => old
  end.

(** The effect of a decoded entry on the service-token registry. *)
Definition tokensStep (ext : Externals) (d : option (EventType * Message))
    (st : gmap string (option ServiceToken)) : gmap string (option ServiceToken) :=
  match d with
  | Some (EventTypeAccountServiceTokenAdded, MsgAccountServiceTokenAdded tok) =>
      match TokenID ext tok with
      | Some id => match st !! id with Some _ => st | None => <[id := tok]> st end
      | None => st
      end
  | Some (EventTypeAccountServiceTokenRemoved, MsgAccountServiceTokenRemoved id) =>
      <[id := None]> st
  | _ => st
  end.

(** Every token of the registry is stored under its own id. *)
Definition tokensKeyed (ext : Externals) (st : gmap string (option ServiceToken)) : Prop :=
  ∀ k t, st !! k = Some (Some t) → TokenID ext (Some t) = Some k.

(** The effect of a decoded entry on the member, device, admin and
    sent-secret maps. *)
Definition registryStep (own : option MemberDevice) (d : option (EventType * Message))
    (reg : gmap string (list MemberDevice) * gmap string MemberDevice
           * list string * gset string)
  : gmap string (list MemberDevice) * gmap string MemberDevice
    * list string * gset string :=
  let '(mem, dev, adm, sent) := reg in
  match d with
  | Some (EventTypeGroupMemberDeviceAdded, MsgGroupMemberDeviceAdded mp dp) =>
      if bool_decide (blen mp = KeySize) && bool_decide (blen dp = KeySize)
      then match dev !! str dp with
           | Some _ => reg
           | None =>
               (<[str mp := default [] (mem !! str mp)
                            ++ [NewMemberDevice (str mp) (str dp)]]> mem,
                <[str dp := NewMemberDevice (str mp) (str dp)]> dev, adm, sent)
           end
      else reg
  | Some (EventTypeGroupDeviceChainKeyAdded, MsgGroupDeviceChainKeyAdded dp dest) =>
      if bool_decide (blen dest = KeySize) && bool_decide (blen dp = KeySize)
      then match own with
           | Some o =>
               if Equals (Device o) (str dp)
               then (mem, dev, adm, {[str dest]} ∪ sent)
               else reg
           | None => reg
           end
      else reg
  | Some (EventTypeMultiMemberGroupInitialMemberAnnounced,
          MsgMultiMemberGroupInitialMemberAnnounced mp) =>
      if bool_decide (blen mp = KeySize)
      then (mem, dev, adm ++ [str mp], sent)
      else reg
  | _ => reg
  end.

(** The effect of a decoded entry on the contact-request knobs and on the
    credential list. *)
Definition knobsStep (d : option (EventType * Message))
    (knobs : option bool * bytes) : option bool * bytes :=
  match d with
  | Some (EventTypeAccountContactRequestDisabled, MsgAccountContactRequestDisabled) =>
      (match fst knobs with Some b => Some b | None => Some false end, snd knobs)
  | Some (EventTypeAccountContactRequestEnabled, MsgAccountContactRequestEnabled) =>
      (match fst knobs with Some b => Some b | None => Some true end, snd knobs)
  | Some (EventTypeAccountContactRequestReferenceReset,
          MsgAccountContactRequestReferenceReset seed) =>
      (fst knobs, match snd knobs with Some s => Some s | None => seed end)
  | _ => knobs
  end.

(** * A small instance of the collaborators

    It runs the index on concrete logs: the decoder reads the event of an
    entry off a table keyed by the payload, the secret store derives a group
    for every contact and the id of a service token is its token string. *)

Definition demoDecoder (table : list (string * (EventType * Message)))
    (log : list Entry) (e : Entry) (g : Group) : option (EventType * Message) :=
  (list_to_map table : gmap string (EventType * Message)) !! entryPayload e.

Definition demoExternals (table : list (string * (EventType * Message))) : Externals :=
  {| openMetadataEntry := demoDecoder table;
     GetGroupForContact :=
       λ pk, Some {| PublicKey := Some ("group:" +:+ pk); GroupType := GroupTypeContact |};
     TokenID := λ t, Token <$> t |}.

Definition accountGroupDemo : Group :=
  {| PublicKey := Some "account"%string; GroupType := GroupTypeAccount |}.

Definition contactGroupDemo : Group :=
  {| PublicKey := Some "contact"%string; GroupType := GroupTypeContact |}.

(** Keys of the expected size. *)
Definition keyA : string := "AAAAAAAAAAAAAAAAAAAAAAAAAAAAAAAA".
Definition keyB : string := "BBBBBBBBBBBBBBBBBBBBBBBBBBBBBBBB".
Definition keyC : string := "CCCCCCCCCCCCCCCCCCCCCCCCCCCCCCCC".
Definition keyD : string := "DDDDDDDDDDDDDDDDDDDDDDDDDDDDDDDD".

Definition ownBindingDemo : MemberDevice := NewMemberDevice keyA keyB.

(** A group joined and then left. *)
Definition rosterTable : list (string * (EventType * Message)) :=
  [("join"%string,
    (EventTypeAccountGroupJoined,
     MsgAccountGroupJoined
       (Some {| PublicKey := Some keyC; GroupType := GroupTypeMultiMember |})));
   ("leave"%string, (EventTypeAccountGroupLeft, MsgAccountGroupLeft (Some keyC)))].

Definition rosterLog : list Entry :=
  [{| entryHash := "h1"; entryPayload := "join" |};
   {| entryHash := "h2"; entryPayload := "leave" |}].

(** A token added, removed and added again, and a second token. *)
Definition tokenTable : list (string * (EventType * Message)) :=
  [("add1"%string,
    (EventTypeAccountServiceTokenAdded,
     MsgAccountServiceTokenAdded
       (Some {| Token := "T1"; AuthenticationURL := "https://one" |})));
   ("remove1"%string,
    (EventTypeAccountServiceTokenRemoved, MsgAccountServiceTokenRemoved "T1"));
   ("add2"%string,
    (EventTypeAccountServiceTokenAdded,
     MsgAccountServiceTokenAdded
       (Some {| Token := "T2"; AuthenticationURL := "https://two" |})))].

Definition tokenLog : list Entry :=
  [{| entryHash := "h1"; entryPayload := "add1" |};
   {| entryHash := "h2"; entryPayload := "remove1" |};
   {| entryHash := "h3"; entryPayload := "add1" |};
   {| entryHash := "h4"; entryPayload := "add2" |}].

(** Scenario S6: an entry that does not decode between two member
    additions. *)
Definition malformedTable : list (string * (EventType * Message)) :=
  [("addA"%string,
    (EventTypeGroupMemberDeviceAdded, MsgGroupMemberDeviceAdded (Some keyA) (Some keyB)));
   ("addB"%string,
    (EventTypeGroupMemberDeviceAdded, MsgGroupMemberDeviceAdded (Some keyC) (Some keyD)))].

Definition malformedEntry : Entry := {| entryHash := "h2"; entryPayload := "garbage" |}.

Definition malformedLog : list Entry :=
  [{| entryHash := "h1"; entryPayload := "addA" |};
   malformedEntry;
   {| entryHash := "h3"; entryPayload := "addB" |}].

(** Scenario S2: a contact request enqueued and then sent. *)
Definition contactTable : list (string * (EventType * Message)) :=
  [("enqueued"%string,
    (EventTypeAccountContactRequestOutgoingEnqueued,
     MsgAccountContactRequestOutgoingEnqueued
       (Some {| PK := Some keyC; PublicRendezvousSeed := Some "seed"%string;
                Metadata := Some "meta"%string |})
       (Some "own"%string)));
   ("sent"%string,
    (EventTypeAccountContactRequestOutgoingSent,
     MsgAccountContactRequestOutgoingSent (Some keyC)))].

Definition contactLog : list Entry :=
  [{| entryHash := "h1"; entryPayload := "enqueued" |};
   {| entryHash := "h2"; entryPayload := "sent" |}].

(** The index after a replay of [contactLog]. *)
Definition afterContactLog : metadataStoreIndex :=
  match UpdateIndex (demoExternals contactTable)
          (newMetadataIndex accountGroupDemo None) contactLog with
  | Some (m, _) => m
  | None => newMetadataIndex accountGroupDemo None
  end.

Definition blockedRecord : AccountContact :=
  {| state := ContactStateBlocked;
     contact := {| PK := Some keyC; PublicRendezvousSeed := None; Metadata := None |} |}.

(** Scenario S5: the own device and a foreign device, each with an alias
    key. *)
Definition aliasTable : list (string * (EventType * Message)) :=
  [("addOwn"%string,
    (EventTypeGroupMemberDeviceAdded, MsgGroupMemberDeviceAdded (Some keyA) (Some keyB)));
   ("aliasOwn"%string,
    (EventTypeContactAliasKeyAdded,
     MsgContactAliasKeyAdded
       {| DevicePK := Some keyB;
          AliasPK := Some "aaaaaaaaaaaaaaaaaaaaaaaaaaaaaaaa"%string |}));
   ("addOther"%string,
    (EventTypeGroupMemberDeviceAdded, MsgGroupMemberDeviceAdded (Some keyC) (Some keyD)));
   ("aliasOther"%string,
    (EventTypeContactAliasKeyAdded,
     MsgContactAliasKeyAdded
       {| DevicePK := Some keyD;
          AliasPK := Some "cccccccccccccccccccccccccccccccc"%string |}))].

Definition aliasLog : list Entry :=
  [{| entryHash := "h1"; entryPayload := "addOwn" |};
   {| entryHash := "h2"; entryPayload := "aliasOwn" |};
   {| entryHash := "h3"; entryPayload := "addOther" |};
   {| entryHash := "h4"; entryPayload := "aliasOther" |}].

(** The index after a first replay of [aliasLog]. *)
Definition afterAliasLog : metadataStoreIndex :=
  match UpdateIndex (demoExternals aliasTable)
          (newMetadataIndex contactGroupDemo (Some ownBindingDemo)) aliasLog with
  | Some (m, _) => m
  | None => newMetadataIndex contactGroupDemo (Some ownBindingDemo)
  end.

(** * Tactics *)

(** Case analysis of a handler call [H : h m ev = Some (m', r)] on a known
    event constructor. *)
Ltac handler_inv H :=
  cbn in H;
  unfold handleContactRequestDisabled, handleContactRequestEnabled,
    handleMultiMemberGrantAdminRole, handleGroupMetadataPayloadSent,
    registerContactFromGroupPK, fillMetadata, fillPublicRendezvousSeed in H;
  cbn in H;
  repeat first
    [ progress simplify_eq/=
    | case_match
    | progress simplify_option_eq ].

(** The same for every event constructor. *)
Ltac handler_cases H ev := destruct ev; handler_inv H.

(** * Vocabulary of the properties of the queries *)

(** ** What the entries of a log say, continued *)

(** The flag an entry sets for contact requests, when it is an enable or a
    disable event. *)
Definition knobFlagFor (ext : Externals) (log : list Entry) (g : Group) (e : Entry)
  : option bool :=
  match openMetadataEntry ext log e g with
  | Some (EventTypeAccountContactRequestDisabled, MsgAccountContactRequestDisabled) =>
      Some false
  | Some (EventTypeAccountContactRequestEnabled, MsgAccountContactRequestEnabled) =>
      Some true
  | _ => None
  end.

(** The rendezvous seed an entry carries, when it is a reference reset. *)
Definition knobSeedFor (ext : Externals) (log : list Entry) (g : Group) (e : Entry)
  : bytes :=
  match openMetadataEntry ext log e g with
  | Some (EventTypeAccountContactRequestReferenceReset,
          MsgAccountContactRequestReferenceReset seed) => seed
  | _ => None
  end.

(** The credential an entry registers. *)
Definition credentialFor (ext : Externals) (log : list Entry) (g : Group) (e : Entry)
  : option AccountVerifiedCredentialRegistered :=
  credentialEvent (openMetadataEntry ext log e g).

(** The entry is a chain-key event with keys of the expected size by which
    the device of [own] sent its secret to the member [pk]. *)
Definition secretSentTo (ext : Externals) (log : list Entry) (g : Group)
    (own : MemberDevice) (pk : string) (e : Entry) : bool :=
  match openMetadataEntry ext log e g with
  | Some (EventTypeGroupDeviceChainKeyAdded, MsgGroupDeviceChainKeyAdded dev dest) =>
      bool_decide (blen dest = KeySize) && bool_decide (blen dev = KeySize)
      && Equals (Device own) (str dev) && bool_decide (str dest = pk)
  | _ => false
  end.

(** The key the entry announces as initial member, when it is of the
    expected size. *)
Definition announcedAdmin (ext : Externals) (log : list Entry) (g : Group)
    (e : Entry) : option PubKey :=
  match openMetadataEntry ext log e g with
  | Some (EventTypeMultiMemberGroupInitialMemberAnnounced,
          MsgMultiMemberGroupInitialMemberAnnounced mp) =>
      if bool_decide (blen mp = KeySize) then Some (str mp) else None
  | _ => None
  end.

(** The entry registers the device [d] with keys of the expected size; the
    result is the member it names. *)
Definition deviceAddedFor (ext : Externals) (log : list Entry) (g : Group)
    (d : string) (e : Entry) : option string :=
  match openMetadataEntry ext log e g with
  | Some (EventTypeGroupMemberDeviceAdded, MsgGroupMemberDeviceAdded mp dp) =>
      if bool_decide (blen mp = KeySize) && bool_decide (blen dp = KeySize)
         && bool_decide (str dp = d)
      then Some (str mp) else None
  | _ => None
  end.

(** The token an entry adds under the id [id]. *)
Definition tokenAddedFor (ext : Externals) (log : list Entry) (g : Group)
    (id : string) (e : Entry) : option (option ServiceToken) :=
  match openMetadataEntry ext log e g with
  | Some (EventTypeAccountServiceTokenAdded, MsgAccountServiceTokenAdded tok) =>
      if decide (TokenID ext tok = Some id) then Some tok else None
  | _ => None
  end.

(** The entry removes the token of id [id]. *)
Definition tokenRemovedBy (ext : Externals) (log : list Entry) (g : Group)
    (id : string) (e : Entry) : bool :=
  match openMetadataEntry ext log e g with
  | Some (EventTypeAccountServiceTokenRemoved, MsgAccountServiceTokenRemoved id') =>
      bool_decide (id' = id)
  | _ => false
  end.

(** The metadata and the rendezvous seed an entry carries for the contact
    [contactPK]. *)
Definition contactMetadataFor (ext : Externals) (log : list Entry) (g : Group)
    (contactPK : string) (e : Entry) : bytes :=
  d ← openMetadataEntry ext log e g;
  kc ← contactEvent d;
  if decide (fst kc = contactPK) then Metadata (contact (snd kc)) else None.

Definition contactSeedFor (ext : Externals) (log : list Entry) (g : Group)
    (contactPK : string) (e : Entry) : bytes :=
  d ← openMetadataEntry ext log e g;
  kc ← contactEvent d;
  if decide (fst kc = contactPK) then PublicRendezvousSeed (contact (snd kc)) else None.

(** The key bytes an entry carries for the contact [contactPK]. *)
Definition contactKeyFor (ext : Externals) (log : list Entry) (g : Group)
    (contactPK : string) (e : Entry) : option bytes :=
  d ← openMetadataEntry ext log e g;
  kc ← contactEvent d;
  if decide (fst kc = contactPK) then Some (PK (contact (snd kc))) else None.

(** The own metadata of an outgoing request enqueued for [contactPK]; an
    entry that is another contact event of [contactPK] says that there is
    none. *)
Definition ownMetadataFor (ext : Externals) (log : list Entry) (g : Group)
    (contactPK : string) (e : Entry) : option (option bytes) :=
  d ← openMetadataEntry ext log e g;
  kc ← contactEvent d;
  if decide (fst kc = contactPK)
  then match d with
       | (_, MsgAccountContactRequestOutgoingEnqueued _ OwnMetadata) =>
           Some (Some OwnMetadata)
       | _ => Some None
       end
  else None.

(** What the loop of [UpdateIndex] reports for an entry before any handler
    runs: that it does not decode, or that its type has no handler. *)
Definition reportFor (ext : Externals) (log : list Entry) (g : Group) (e : Entry)
  : option LogRecord :=
  match openMetadataEntry ext log e g with
  | None => Some UnableToOpenMetadataEntry
  | Some (ty, _) =>
      match eventHandlers ext ty with
      | None => Some (HandlerForEventTypeNotFound ty)
      | Some _ => None
      end
  end.

Definition isHandlerReport (r : LogRecord) : bool :=
  match r with
  | UnableToHandleEvent _ => true
  | _ => false
  end.

(** ** Readings of the index, continued *)

(** Every registered device key has the size of a key. *)
Definition keysSized (m : metadataStoreIndex) : Prop :=
  ∀ d b, devices m !! d = Some b → String.length d = KeySize.

(** A joined group is recorded with the group of the event, under its own
    key; a group that was left is recorded without a group. *)
Definition rosterWf (m : metadataStoreIndex) : Prop :=
  ∀ k g, groups m !! k = Some g →
         match ag_state g with
         | accountGroupJoinedStateJoined =>
             ∃ gr, ag_group g = Some gr ∧ str (PublicKey gr) = k
         | accountGroupJoinedStateLeft => ag_group g = None
         end.

(** Every contact is stored under the key its record carries. *)
Definition contactsKeyed (m : metadataStoreIndex) : Prop :=
  ∀ k l, contacts m !! k = Some l →
         ∃ rec, heap m !! l = Some rec ∧ str (PK (contact rec)) = k.

(** The key of the group the secret store derives for a contact key. *)
Definition groupKeyFor (ext : Externals) (contactPK : bytes) : option string :=
  pk ← UnmarshalEd25519PublicKey contactPK;
  g ← GetGroupForContact ext pk;
  Some (str (PublicKey g)).

(** Every entry of [contactsFromGroupPK] is the address of a contact of
    [contacts], under the key of the group derived for that contact. *)
Definition groupIndexWf (ext : Externals) (m : metadataStoreIndex) : Prop :=
  ∀ gk l, contactsFromGroupPK m !! gk = Some l →
          ∃ rec, heap m !! l = Some rec ∧
                 contacts m !! str (PK (contact rec)) = Some l ∧
                 groupKeyFor ext (PK (contact rec)) = Some gk.

(** The roster record an entry induces for the group [groupPK], when it is
    a join or leave event of that group. *)
Definition groupRecordFor (ext : Externals) (log : list Entry) (g : Group)
    (groupPK : string) (e : Entry) : option accountGroup :=
  match openMetadataEntry ext log e g with
  | Some (EventTypeAccountGroupJoined, MsgAccountGroupJoined (Some gr)) =>
      if decide (str (PublicKey gr) = groupPK)
      then Some {| ag_state := accountGroupJoinedStateJoined; ag_group := Some gr |}
      else None
  | Some (EventTypeAccountGroupLeft, MsgAccountGroupLeft pk) =>
      if decide (str pk = groupPK)
      then Some {| ag_state := accountGroupJoinedStateLeft; ag_group := None |}
      else None
  | _ => None
  end.

(** The records of a trace that come from the loop itself, not from a
    handler. *)
Definition loopReports (δ : list LogRecord) : list LogRecord :=
  List.filter (λ r, negb (isHandlerReport r)) δ.

(** A staged alias-key event the post-action cannot process: its sender is
    not a registered device, or it comes from another member with an alias
    key of the wrong size. *)
Definition aliasKeyRejected (m : metadataStoreIndex) (evt : ContactAliasKeyAdded) : Prop :=
  senderMember m evt = None ∨
  (fromOtherMember m evt = true ∧ blen (AliasPK evt) ≠ KeySize).

(** The effect of a decoded entry on the own metadata kept for the contact
    [contactPK]; [known] says that the contact has a record. *)
Definition ownMetadataStep (d : option (EventType * Message)) (contactPK : string)
    (known : bool) (old : option bytes) : option bytes :=
  match d with
  | Some (EventTypeAccountContactRequestOutgoingEnqueued,
          MsgAccountContactRequestOutgoingEnqueued (Some c) own) =>
      if decide (str (PK c) = contactPK)
      then if known then old
           else match old with
                | Some data => if decide (blen data = 0) then Some own else old
                | None => Some own
                end
      else old
  | _ => old
  end.

(** The message is of the Go type the handlers of the event type assert. *)
Definition eventMatches (ty : EventType) (ev : Message) : bool :=
  match ty, ev with
  | EventTypeGroupMemberDeviceAdded, MsgGroupMemberDeviceAdded _ _
  | EventTypeGroupDeviceChainKeyAdded, MsgGroupDeviceChainKeyAdded _ _
  | EventTypeAccountGroupJoined, MsgAccountGroupJoined _
  | EventTypeAccountGroupLeft, MsgAccountGroupLeft _
  | EventTypeAccountContactRequestDisabled, MsgAccountContactRequestDisabled
  | EventTypeAccountContactRequestEnabled, MsgAccountContactRequestEnabled
  | EventTypeAccountContactRequestReferenceReset, MsgAccountContactRequestReferenceReset _
  | EventTypeAccountContactRequestOutgoingEnqueued,
    MsgAccountContactRequestOutgoingEnqueued _ _
  | EventTypeAccountContactRequestOutgoingSent, MsgAccountContactRequestOutgoingSent _
  | EventTypeAccountContactRequestIncomingReceived,
    MsgAccountContactRequestIncomingReceived _ _ _
  | EventTypeAccountContactRequestIncomingDiscarded,
    MsgAccountContactRequestIncomingDiscarded _
  | EventTypeAccountContactRequestIncomingAccepted,
    MsgAccountContactRequestIncomingAccepted _
  | EventTypeAccountContactBlocked, MsgAccountContactBlocked _
  | EventTypeAccountContactUnblocked, MsgAccountContactUnblocked _
  | EventTypeContactAliasKeyAdded, MsgContactAliasKeyAdded _
  | EventTypeAccountServiceTokenAdded, MsgAccountServiceTokenAdded _
  | EventTypeAccountServiceTokenRemoved, MsgAccountServiceTokenRemoved _
  | EventTypeMultiMemberGroupInitialMemberAnnounced,
    MsgMultiMemberGroupInitialMemberAnnounced _
  | EventTypeMultiMemberGroupAdminRoleGranted, MsgMultiMemberGroupAdminRoleGranted
  | EventTypeGroupMetadataPayloadSent, MsgGroupMetadataPayloadSent
  | EventTypeAccountVerifiedCredentialRegistered,
    MsgAccountVerifiedCredentialRegistered _ => true
  | _, _ => false
  end.

(** The handlers of the event type return before, or without, asserting
    the type of the message: the two handlers that do nothing, and the
    enable and disable handlers once the flag is set. *)
Definition skipsTypeAssertion (m : metadataStoreIndex) (ty : EventType) : bool :=
  match ty with
  | EventTypeMultiMemberGroupAdminRoleGranted | EventTypeGroupMetadataPayloadSent => true
  | EventTypeAccountContactRequestDisabled | EventTypeAccountContactRequestEnabled =>
      bool_decide (is_Some (contactRequestEnabled m))
  | _ => false
  end.

(** ** Replays one after the other *)

(** [UpdateIndex] on each log in turn, whatever error a replay returns. *)
Fixpoint updateAll (ext : Externals) (m : metadataStoreIndex) (logs : list (list Entry))
  : option metadataStoreIndex :=
  match logs with
  | [] => Some m
  | log :: logs =>
      match UpdateIndex ext m log with
      | Some (m', _) => updateAll ext m' logs
      | None => None
      end
  end.

(** * The credentials of [grpcutil] *)

Module grpcutil.

Definition headerAuthorize : string := "authorization".

Record unsecureSimpleAuthAccess : Type := { token : string; scheme : string }.

Definition NewUnsecureSimpleAuthAccess (scheme token : string) : unsecureSimpleAuthAccess :=
  {| token := token; scheme := scheme |}.

(** The context and the URIs are not read; the error is always nil. *)
Definition GetRequestMetadata (sa : unsecureSimpleAuthAccess) (uri : list string)
  : gmap string string :=
  {[ headerAuthorize := ("bearer " +:+ token sa)%string ]}.

Definition RequireTransportSecurity (sa : unsecureSimpleAuthAccess) : bool := false.

End grpcutil.

(** * Further logs for the small instance *)

(** Contact requests disabled and enabled, the reference reset three times
    (the newest reset carries no seed) and two credentials. *)
Definition knobsTable : list (string * (EventType * Message)) :=
  [("disable"%string,
    (EventTypeAccountContactRequestDisabled, MsgAccountContactRequestDisabled));
   ("enable"%string,
    (EventTypeAccountContactRequestEnabled, MsgAccountContactRequestEnabled));
   ("reset1"%string,
    (EventTypeAccountContactRequestReferenceReset,
     MsgAccountContactRequestReferenceReset (Some "seed1"%string)));
   ("reset2"%string,
    (EventTypeAccountContactRequestReferenceReset,
     MsgAccountContactRequestReferenceReset (Some "seed2"%string)));
   ("reset3"%string,
    (EventTypeAccountContactRequestReferenceReset,
     MsgAccountContactRequestReferenceReset None));
   ("cred1"%string,
    (EventTypeAccountVerifiedCredentialRegistered,
     MsgAccountVerifiedCredentialRegistered
       {| Identifier := "id1"; VerifiedCredential := "vc1" |}));
   ("cred2"%string,
    (EventTypeAccountVerifiedCredentialRegistered,
     MsgAccountVerifiedCredentialRegistered
       {| Identifier := "id2"; VerifiedCredential := "vc2" |}))].

Definition knobsLog : list Entry :=
  [{| entryHash := "h1"; entryPayload := "disable" |};
   {| entryHash := "h2"; entryPayload := "reset1" |};
   {| entryHash := "h3"; entryPayload := "cred1" |};
   {| entryHash := "h4"; entryPayload := "enable" |};
   {| entryHash := "h5"; entryPayload := "reset2" |};
   {| entryHash := "h6"; entryPayload := "cred2" |};
   {| entryHash := "h7"; entryPayload := "reset3" |}].

Definition afterKnobsLog : metadataStoreIndex :=
  match UpdateIndex (demoExternals knobsTable)
          (newMetadataIndex accountGroupDemo None) knobsLog with
  | Some (m, _) => m
  | None => newMetadataIndex accountGroupDemo None
  end.

(** A multi-member group: two members with a device each, the secret of the
    own device sent to the other member, a secret sent by the other device,
    the first member announced twice, an entry of an unknown type and an
    entry that does not decode. *)
Definition groupTable : list (string * (EventType * Message)) :=
  [("addOwn"%string,
    (EventTypeGroupMemberDeviceAdded, MsgGroupMemberDeviceAdded (Some keyA) (Some keyB)));
   ("addOther"%string,
    (EventTypeGroupMemberDeviceAdded, MsgGroupMemberDeviceAdded (Some keyC) (Some keyD)));
   ("secretOwn"%string,
    (EventTypeGroupDeviceChainKeyAdded,
     MsgGroupDeviceChainKeyAdded (Some keyB) (Some keyC)));
   ("secretOther"%string,
    (EventTypeGroupDeviceChainKeyAdded,
     MsgGroupDeviceChainKeyAdded (Some keyD) (Some keyA)));
   ("announce"%string,
    (EventTypeMultiMemberGroupInitialMemberAnnounced,
     MsgMultiMemberGroupInitialMemberAnnounced (Some keyA)));
   ("unknown"%string, (EventTypeOther 4242, MsgGroupMetadataPayloadSent))].

Definition multiMemberGroupDemo : Group :=
  {| PublicKey := Some "multi"%string; GroupType := GroupTypeMultiMember |}.

Definition groupLog : list Entry :=
  [{| entryHash := "h1"; entryPayload := "announce" |};
   {| entryHash := "h2"; entryPayload := "addOwn" |};
   {| entryHash := "h3"; entryPayload := "addOther" |};
   {| entryHash := "h4"; entryPayload := "secretOwn" |};
   {| entryHash := "h5"; entryPayload := "secretOther" |};
   {| entryHash := "h6"; entryPayload := "unknown" |};
   {| entryHash := "h7"; entryPayload := "garbage" |};
   {| entryHash := "h8"; entryPayload := "announce" |}].

Definition afterGroupLog : metadataStoreIndex :=
  match UpdateIndex (demoExternals groupTable)
          (newMetadataIndex multiMemberGroupDemo (Some ownBindingDemo)) groupLog with
  | Some (m, _) => m
  | None => newMetadataIndex multiMemberGroupDemo (Some ownBindingDemo)
  end.

(** An alias key sent by a device that no entry registers. *)
Definition strangerTable : list (string * (EventType * Message)) :=
  [("aliasStranger"%string,
    (EventTypeContactAliasKeyAdded,
     MsgContactAliasKeyAdded
       {| DevicePK := Some keyD;
          AliasPK := Some "cccccccccccccccccccccccccccccccc"%string |}))].

Definition strangerLog : list Entry :=
  [{| entryHash := "h1"; entryPayload := "aliasStranger" |}].

Definition afterStrangerLog : metadataStoreIndex :=
  match UpdateIndex (demoExternals strangerTable)
          (newMetadataIndex contactGroupDemo (Some ownBindingDemo)) strangerLog with
  | Some (m, _) => m
  | None => newMetadataIndex contactGroupDemo (Some ownBindingDemo)
  end.

Definition afterTokenLog : metadataStoreIndex :=
  match UpdateIndex (demoExternals tokenTable)
          (newMetadataIndex accountGroupDemo None) tokenLog with
  | Some (m, _) => m
  | None => newMetadataIndex accountGroupDemo None
  end.

Definition afterRosterLog : metadataStoreIndex :=
  match UpdateIndex (demoExternals rosterTable)
          (newMetadataIndex accountGroupDemo None) rosterLog with
  | Some (m, _) => m
  | None => newMetadataIndex accountGroupDemo None
  end.

(** The index after a second replay of [groupLog]. *)
Definition afterGroupLogTwice : metadataStoreIndex :=
  match UpdateIndex (demoExternals groupTable) afterGroupLog groupLog with
  | Some (m, _) => m
  | None => afterGroupLog
  end.

(** An Account index with every structure populated: a device of the own
    member, an administrator, a secret sent, a contact, a token, a group, the
    contact-request knobs and a credential. *)
Definition populatedTable : list (string * (EventType * Message)) :=
  groupTable ++ contactTable ++ tokenTable ++ rosterTable ++ knobsTable.

Definition populatedLog : list Entry :=
  [{| entryHash := "h1"; entryPayload := "addOwn" |};
   {| entryHash := "h2"; entryPayload := "announce" |};
   {| entryHash := "h3"; entryPayload := "secretOwn" |};
   {| entryHash := "h4"; entryPayload := "enqueued" |};
   {| entryHash := "h5"; entryPayload := "add2" |};
   {| entryHash := "h6"; entryPayload := "join" |};
   {| entryHash := "h7"; entryPayload := "enable" |};
   {| entryHash := "h8"; entryPayload := "reset1" |};
   {| entryHash := "h9"; entryPayload := "cred1" |}].

Definition populatedIndex : metadataStoreIndex :=
  match UpdateIndex (demoExternals populatedTable)
          (newMetadataIndex accountGroupDemo (Some ownBindingDemo)) populatedLog with
  | Some (m, _) => m
  | None => newMetadataIndex accountGroupDemo (Some ownBindingDemo)
  end.

(** A second log, of one entry that registers another device. *)
Definition otherDeviceLog : list Entry :=
  [{| entryHash := "g1"; entryPayload := "addOther" |}].

Definition afterOtherDeviceLog : metadataStoreIndex :=
  match UpdateIndex (demoExternals populatedTable) populatedIndex otherDeviceLog with
  | Some (m, _) => m
  | None => populatedIndex
  end.

(** A log of one entry, the announcement of the first member, and the index
    after one and after two replays of it. *)
Definition announcementLog : list Entry :=
  [{| entryHash := "h1"; entryPayload := "announce" |}].

Definition afterAnnouncementLog : metadataStoreIndex :=
  match UpdateIndex (demoExternals groupTable)
          (newMetadataIndex multiMemberGroupDemo (Some ownBindingDemo))
          announcementLog with
  | Some (m, _) => m
  | None => newMetadataIndex multiMemberGroupDemo (Some ownBindingDemo)
  end.

Definition afterAnnouncementLogTwice : metadataStoreIndex :=
  match UpdateIndex (demoExternals groupTable) afterAnnouncementLog announcementLog with
  | Some (m, _) => m
  | None => afterAnnouncementLog
  end.

(** * Properties *)

(** ** The replay loop *)

Section Frame.
Context (ext : Externals).

Lemma runHandlers_keeps {A} (f : metadataStoreIndex → A) hs ev :
  Forall (keeps f) hs →
  (∀ m r, f (logError m r) = f m) →
  ∀ m le m' r, runHandlers hs ev m le = Some (m', r) → f m' = f m.
Proof.
  intros Hhs Hlog. induction Hhs as [|h hs Hh _ IH]; intros m le m' r Hrun.
  - by simplify_eq/=.
  - simpl in Hrun. destruct (h m ev) as [[m1 [err|]]|] eqn:Hm1; [| |done].
    + apply IH in Hrun. rewrite Hrun, Hlog. eauto.
    + apply IH in Hrun. rewrite Hrun. eauto.
Qed.

Lemma eventHandlers_keep_fixedPart ty hs :
  eventHandlers ext ty = Some hs → Forall (keeps fixedPart) hs.
Proof.
  destruct ty; intros ?; simplify_eq/=; repeat constructor;
    intros m ev m' r Hh; handler_cases Hh ev; done.
Qed.

Lemma runHandlers_fixed ty hs ev m le m' r :
  eventHandlers ext ty = Some hs →
  runHandlers hs ev m le = Some (m', r) →
  group m' = group m ∧ ownMemberDevice m' = ownMemberDevice m ∧
  handledEvents m' = handledEvents m ∧ ownAliasKeySent m' = ownAliasKeySent m ∧
  otherAliasKey m' = otherAliasKey m.
Proof.
  intros Hty Hrun. apply eventHandlers_keep_fixedPart in Hty.
  assert (Forall (keeps (λ m, (group m, ownMemberDevice m, handledEvents m,
                                 ownAliasKeySent m, otherAliasKey m))) hs) as Hk.
  { eapply Forall_impl; [exact Hty|]. intros h Hh x ev' x' r' Hx.
    apply Hh in Hx. unfold fixedPart in Hx. simpl. congruence. }
  pose proof (runHandlers_keeps _ _ ev Hk (λ _ _, eq_refl) _ _ _ _ Hrun) as Heq.
  simpl in Heq. repeat split; congruence.
Qed.

(** The effect of one dispatched entry on the bound group, the own binding
    and the handled set. *)
Lemma dispatchEntry_fixed log m e m' :
  dispatchEntry ext log m e = Some m' →
  group m' = group m ∧ ownMemberDevice m' = ownMemberDevice m ∧
  ownAliasKeySent m' = ownAliasKeySent m ∧ otherAliasKey m' = otherAliasKey m ∧
  handledEvents m' =
    match openMetadataEntry ext log e (group m) with
    | None => handledEvents m
    | Some _ => {[entryHash e]} ∪ handledEvents m
    end.
Proof.
  unfold dispatchEntry. intros Hd.
  destruct (openMetadataEntry ext log e (group m)) as [[ty ev]|]; [|by simplify_eq/=].
  destruct (eventHandlers ext ty) as [hs|] eqn:Hty; [|by simplify_eq/=].
  destruct (runHandlers hs ev m None) as [[m1 r]|] eqn:Hrun; [|done].
  eapply runHandlers_fixed in Hrun as (?&?&?&?&?); [|done].
  assert (m' = markHandled m1 e) as -> by (by destruct r; simplify_eq).
  simpl. repeat split; congruence.
Qed.

Lemma replayEntry_fixed log m e m' :
  replayEntry ext log m e = Some m' →
  group m' = group m ∧ ownMemberDevice m' = ownMemberDevice m ∧
  ownAliasKeySent m' = ownAliasKeySent m ∧ otherAliasKey m' = otherAliasKey m ∧
  handledEvents m ⊆ handledEvents m' ∧
  handledEvents m' ⊆ {[entryHash e]} ∪ handledEvents m.
Proof.
  unfold replayEntry. intros Hr. case_match.
  - simplify_eq. repeat split; set_solver.
  - apply dispatchEntry_fixed in Hr as (?&?&?&?&Hhandled). rewrite Hhandled.
    clear Hhandled. repeat split; try done; destruct (openMetadataEntry ext log e (group m));
      set_solver.
Qed.

Lemma replayList_group log es : ∀ m m',
  replayList ext log es m = Some m' →
  group m' = group m ∧ ownMemberDevice m' = ownMemberDevice m.
Proof.
  induction es as [|e es IH]; intros m m' Hr; simplify_eq/=; [done|].
  destruct (replayEntry ext log m e) as [m1|] eqn:H1; [|done]. simpl in Hr.
  apply replayEntry_fixed in H1 as (?&?&_). apply IH in Hr as [? ?]. split; congruence.
Qed.

(** The loop of [UpdateIndex] visits the entries from the last to the
    first. *)
Lemma replayFrom_take log entries n : ∀ m,
  n ≤ length entries →
  replayFrom ext log entries n m = replayList ext log (reverse (take n entries)) m.
Proof.
  induction n as [|i IH]; intros m Hn; [done|].
  destruct (lookup_lt_is_Some_2 entries i) as [e He]; [lia|].
  simpl. rewrite He. erewrite take_S_r by done.
  rewrite reverse_snoc. simpl.
  destruct (replayEntry ext log m e) as [m1|]; [|done]. simpl. apply IH. lia.
Qed.

Lemma replayFrom_replayList log entries m :
  replayFrom ext log entries (length entries) m
  = replayList ext log (reverse entries) m.
Proof. rewrite replayFrom_take by done. by rewrite firstn_all. Qed.

Lemma agreeOutside_refl d m : agreeOutside d m m.
Proof. by repeat split. Qed.

(** Each handler works on the part of its event type only. *)
Lemma eventHandlers_agreeOutside ty hs :
  eventHandlers ext ty = Some hs →
  Forall (λ h, ∀ m ev m' r, h m ev = Some (m', r) → agreeOutside (domainOf ty) m m') hs.
Proof.
  destruct ty; intros ?; simplify_eq/=; (constructor; [|constructor]);
    intros m ev m' r Hh; handler_cases Hh ev;
    first [ apply agreeOutside_refl
          | unfold agreeOutside; cbn; split_and!; intros ?;
            first [done | split_and!; reflexivity] ].
Qed.

Lemma runHandlers_agreeOutside d hs ev :
  Forall (λ h, ∀ m ev m' r, h m ev = Some (m', r) → agreeOutside d m m') hs →
  ∀ m le m' r, runHandlers hs ev m le = Some (m', r) → agreeOutside d m m'.
Proof.
  intros Hhs. induction Hhs as [|h hs Hh _ IH]; intros m le m' r Hrun.
  - simplify_eq/=. apply agreeOutside_refl.
  - simpl in Hrun. destruct (h m ev) as [[m1 [err|]]|] eqn:Hm1; [| |done];
      apply Hh in Hm1; apply IH in Hrun; unfold agreeOutside in *; simpl in *;
      destruct_and!; split_and!; intros Hd;
      repeat match goal with H : d ≠ _ → _ |- _ => specialize (H Hd) end;
      destruct_and?; split_and?; congruence.
Qed.

(** What one dispatched entry leaves alone. *)
Lemma dispatchEntry_agreeOutside log m e m' :
  dispatchEntry ext log m e = Some m' →
  agreeOutside
    (match openMetadataEntry ext log e (group m) with
     | Some (ty, _) => domainOf ty
     | None => NoPart
     end) m m'.
Proof.
  unfold dispatchEntry. intros Hd.
  destruct (openMetadataEntry ext log e (group m)) as [[ty ev]|];
    [|simplify_eq; by repeat split].
  destruct (eventHandlers ext ty) as [hs|] eqn:Hty; [|simplify_eq; by repeat split].
  destruct (runHandlers hs ev m None) as [[m1 r]|] eqn:Hrun; [|done].
  apply eventHandlers_agreeOutside in Hty.
  eapply runHandlers_agreeOutside in Hrun; [|done].
  assert (m' = markHandled m1 e) as -> by (by destruct r; simplify_eq).
  exact Hrun.
Qed.

Lemma replayList_dispatchList log es : ∀ m,
  unguarded m es → replayList ext log es m = dispatchList ext log es m.
Proof.
  induction es as [|e es IH]; intros m Hu; [done|]. simpl.
  assert (replayEntry ext log m e = dispatchEntry ext log m e) as Heq.
  { unfold replayEntry. destruct Hu as [->|[_ Hu]]; [done|].
    rewrite bool_decide_eq_false_2; [by rewrite andb_false_r|].
    apply Hu. left. }
  rewrite Heq. destruct (dispatchEntry ext log m e) as [m1|] eqn:H1; [|done].
  simpl. apply IH.
  apply replayEntry_fixed in Heq as (Hg&_&_&_&_&Hh).
  destruct Hu as [Hu|[Hnd Hu]]; [left; by rewrite Hg|right].
  rewrite fmap_cons in Hnd. apply NoDup_cons in Hnd as [Hne Hnd]. split; [done|].
  intros e' He' Hin. apply Hh in Hin. apply elem_of_union in Hin as [Hin|Hin].
  - apply elem_of_singleton in Hin. apply Hne. rewrite <-Hin.
    by apply list_elem_of_fmap_2.
  - eapply Hu; [|done]. by right.
Qed.

End Frame.

(** ** Newest entry of a log *)

Lemma omap_nil_None {A B} (f : A → option B) (l : list A) :
  (∀ x, x ∈ l → f x = None) → omap f l = [].
Proof.
  intros Hall. destruct (omap f l) as [|y l'] eqn:Ho; [done|].
  assert (y ∈ omap f l) as (x&Hx&Hfx)%list_elem_of_omap by (rewrite Ho; left).
  rewrite Hall in Hfx; done.
Qed.

Lemma newest_Some {A} (f : Entry → option A) log i e a :
  log !! i = Some e → f e = Some a →
  (∀ j e', i < j → log !! j = Some e' → f e' = None) →
  newest f log = Some a.
Proof.
  intros Hi Hf Hlater. unfold newest.
  rewrite <-(take_drop_middle log i e Hi), reverse_app, reverse_cons, !omap_app.
  assert (omap f (reverse (drop (S i) log)) = []) as ->.
  { apply omap_nil_None. intros x Hx%elem_of_reverse.
    rewrite reverse_involutive in Hx.
    apply list_elem_of_lookup in Hx as [j Hj]. rewrite lookup_drop in Hj.
    eapply Hlater; [|done]. lia. }
  by simpl; rewrite Hf.
Qed.

Lemma newest_None {A} (f : Entry → option A) log :
  (∀ e, e ∈ log → f e = None) → newest f log = None.
Proof.
  intros Hall. unfold newest.
  assert (omap f (reverse log) = []) as ->; [|done].
  apply omap_nil_None. intros x Hx%elem_of_reverse.
  rewrite reverse_involutive in Hx. auto.
Qed.

Section PostActions.
Context (ext : Externals).

Lemma sentAliasesLoop_erase evts : ∀ m m' r,
  sentAliasesLoop evts m = Some (m', r) → eraseAliases m' = eraseAliases m.
Proof.
  induction evts as [|evt evts IH]; intros m m' r Hl; simpl in Hl.
  - by simplify_eq.
  - repeat case_match; simplify_eq; try done.
    + by apply IH in Hl.
    + by apply IH in Hl.
Qed.

Lemma postHandlerSentAliases_erase m m' r :
  postHandlerSentAliases m = Some (m', r) → eraseAliases m' = eraseAliases m.
Proof.
  unfold postHandlerSentAliases. intros Hp.
  destruct (sentAliasesLoop (eventsContactAddAliasKey m) m) as [[m1 [err|]]|] eqn:Hl;
    simplify_eq; by apply sentAliasesLoop_erase in Hl.
Qed.

Lemma runPostIndexActions_erase m m' r :
  runPostIndexActions postIndexActions m = Some (m', r) →
  eraseAliases m' = eraseAliases m.
Proof.
  unfold postIndexActions, runPostIndexActions. intros Hp.
  destruct (postHandlerSentAliases m) as [[m1 [err|]]|] eqn:Hl; simplify_eq;
    by apply postHandlerSentAliases_erase in Hl.
Qed.

(** [UpdateIndex] is the replay of the reversed log from the reset index,
    followed by the post-actions. *)
Lemma UpdateIndex_inv m log m' r :
  UpdateIndex ext m log = Some (m', r) →
  ∃ m2, replayList ext log (reverse log) (resetState m) = Some m2 ∧
        runPostIndexActions postIndexActions m2 = Some (m', r) ∧
        eraseAliases m' = eraseAliases m2.
Proof.
  unfold UpdateIndex. rewrite replayFrom_replayList. intros Hu.
  destruct (replayList ext log (reverse log) (resetState m)) as [m2|]; [|done].
  simpl in Hu. exists m2. split_and!; [done..|].
  by apply runPostIndexActions_erase in Hu.
Qed.

Lemma unguarded_reset m log :
  accountOrDistinct (group m) log → unguarded (resetState m) (reverse log).
Proof.
  intros [Ha|Hnd]; [by left|right]. split.
  - by rewrite fmap_reverse, reverse_Permutation.
  - intros e _. simpl. set_solver.
Qed.

Lemma UpdateIndex_dispatch m log m' r :
  accountOrDistinct (group m) log →
  UpdateIndex ext m log = Some (m', r) →
  ∃ m2, dispatchList ext log (reverse log) (resetState m) = Some m2 ∧
        runPostIndexActions postIndexActions m2 = Some (m', r) ∧
        eraseAliases m' = eraseAliases m2.
Proof.
  intros Hok (m2&Hr&?&?)%UpdateIndex_inv.
  rewrite replayList_dispatchList in Hr by by apply unguarded_reset. eauto.
Qed.

End PostActions.

(** ** The group roster *)

Section Roster.
Context (ext : Externals).

Lemma dispatchEntry_groups log m e m' k :
  dispatchEntry ext log m e = Some m' →
  ag_state <$> groups m' !! k =
    match groups m !! k with
    | Some g => Some (ag_state g)
    | None => groupStateFor ext log (group m) k e
    end.
Proof.
  intros Hd. pose proof (dispatchEntry_agreeOutside _ _ _ _ _ Hd) as (_&_&Hfr&_).
  unfold groupStateFor, dispatchEntry in *.
  destruct (openMetadataEntry ext log e (group m)) as [[ty ev]|]; simpl;
    [|rewrite Hfr by done; by destruct (groups m !! k)].
  destruct (decide (domainOf ty = Roster)) as [Hty|Hty].
  - destruct ty; try done; clear Hfr; destruct ev; handler_inv Hd;
      try (by destruct (groups m !! k)).
    all: try done.
    all: by simplify_map_eq.
  - rewrite Hfr by done. destruct ty; try done; by destruct (groups m !! k).
Qed.

Lemma dispatchList_groups log es : ∀ m m' k,
  dispatchList ext log es m = Some m' →
  ag_state <$> groups m' !! k =
    match groups m !! k with
    | Some g => Some (ag_state g)
    | None => head (omap (groupStateFor ext log (group m) k) es)
    end.
Proof.
  induction es as [|e es IH]; intros m m' k Hl; simpl in Hl.
  - simplify_eq. by destruct (groups _ !! k).
  - destruct (dispatchEntry ext log m e) as [m1|] eqn:H1; [|done]. simpl in Hl.
    rewrite (IH _ _ k Hl). pose proof (dispatchEntry_groups _ _ _ _ k H1) as Hg.
    apply dispatchEntry_fixed in H1 as (->&_). simpl.
    destruct (groups m !! k) as [g|] eqn:Hk.
    + destruct (groups m1 !! k); simpl in *; congruence.
    + destruct (groupStateFor ext log (group m) k e) as [s|]; simpl.
      * destruct (groups m1 !! k); simpl in *; congruence.
      * by destruct (groups m1 !! k).
Qed.

End Roster.

(** C6. After [UpdateIndex], the roster state of a group key is the state
    induced by the newest join or leave event for that key in log order
    (Joined for a join, Left for a leave), and a key without such an event
    has no roster entry.  The entries of the log are told apart by their
    hash, or the group is an Account group. *)
Theorem groups_state_newest ext m log m' r groupPK :
  accountOrDistinct (group m) log →
  UpdateIndex ext m log = Some (m', r) →
  (∀ i e s,
     log !! i = Some e →
     groupStateFor ext log (group m) groupPK e = Some s →
     (∀ j e', i < j → log !! j = Some e' →
              groupStateFor ext log (group m) groupPK e' = None) →
     ag_state <$> groups m' !! groupPK = Some s) ∧
  ((∀ e, e ∈ log → groupStateFor ext log (group m) groupPK e = None) →
   groups m' !! groupPK = None).
Proof.
  intros Hok (m2&Hrun&_&Herase)%UpdateIndex_dispatch; [|done].
  apply (f_equal groups) in Herase. simpl in Herase. rewrite Herase.
  pose proof (dispatchList_groups _ _ _ _ _ groupPK Hrun) as Hg.
  simpl in Hg. rewrite lookup_empty in Hg.
  fold (newest (groupStateFor ext log (group m) groupPK) log) in Hg. split.
  - intros i e s Hi Hs Hlater. rewrite Hg. by eapply newest_Some.
  - intros Hnone. rewrite newest_None in Hg by done.
    by destruct (groups m2 !! groupPK).
Qed.

(** An instance: a group joined and then left is in state Left. *)
Lemma groups_state_newest_witness :
  ∃ m' r,
    UpdateIndex (demoExternals rosterTable) (newMetadataIndex accountGroupDemo None)
      rosterLog = Some (m', r) ∧
    ag_state <$> groups m' !! keyC = Some accountGroupJoinedStateLeft.
Proof.
  eexists _, _. split; [vm_compute; reflexivity|].
  refine (proj1 (groups_state_newest (demoExternals rosterTable)
                   (newMetadataIndex accountGroupDemo None) rosterLog _ _ keyC _ _)
            1 {| entryHash := "h2"; entryPayload := "leave" |}
            accountGroupJoinedStateLeft _ _ _).
  - by left.
  - vm_compute; reflexivity.
  - reflexivity.
  - reflexivity.
  - intros j e' Hj He'. destruct j as [|[|j]]; [lia|lia|done].
Defined.

(** ** The service-token registry *)

Section TokenRegistry.
Context (ext : Externals).

Lemma dispatchEntry_serviceTokens log m e m' :
  dispatchEntry ext log m e = Some m' →
  serviceTokens m' =
    tokensStep ext (openMetadataEntry ext log e (group m)) (serviceTokens m).
Proof.
  intros Hd. pose proof (dispatchEntry_agreeOutside _ _ _ _ _ Hd) as (_&_&_&Hfr&_).
  unfold tokensStep, dispatchEntry in *.
  destruct (openMetadataEntry ext log e (group m)) as [[ty ev]|]; [|by apply Hfr].
  destruct (decide (domainOf ty = Tokens)) as [Hty|Hty].
  - destruct ty; try done; clear Hfr; destruct ev; handler_inv Hd; done.
  - rewrite Hfr by done. by destruct ty.
Qed.

Lemma tokensStep_keyed d st : tokensKeyed ext st → tokensKeyed ext (tokensStep ext d st).
Proof.
  intros Hst k t. unfold tokensStep. repeat case_match; subst; auto.
  all: match goal with
       | |- context [<[?i := _]> _ !! _] =>
           destruct (decide (i = k)) as [->|];
           [rewrite lookup_insert_eq|rewrite lookup_insert_ne by done; auto]
       end.
  all: congruence.
Qed.

Lemma tokensStep_tombstone d st id :
  st !! id = Some None → tokensStep ext d st !! id = Some None.
Proof.
  intros Hst. unfold tokensStep. repeat case_match; subst; auto.
  all: match goal with
       | |- context [<[?i := _]> _ !! _] =>
           destruct (decide (i = id)) as [->|];
           [rewrite lookup_insert_eq|by rewrite lookup_insert_ne]
       end.
  all: congruence.
Qed.

Lemma dispatchList_serviceTokens log es : ∀ m m',
  dispatchList ext log es m = Some m' →
  (tokensKeyed ext (serviceTokens m) → tokensKeyed ext (serviceTokens m')) ∧
  (∀ id, serviceTokens m !! id = Some None ∨
         (∃ e, e ∈ es ∧
               openMetadataEntry ext log e (group m)
               = Some (EventTypeAccountServiceTokenRemoved,
                       MsgAccountServiceTokenRemoved id)) →
         serviceTokens m' !! id = Some None).
Proof.
  induction es as [|e es IH]; intros m m' Hl; simpl in Hl.
  - simplify_eq. split; [done|]. intros id [?|(e&He&_)]; [done|]. by inversion He.
  - destruct (dispatchEntry ext log m e) as [m1|] eqn:H1; [|done]. simpl in Hl.
    destruct (IH _ _ Hl) as [IHk IHt].
    pose proof (dispatchEntry_serviceTokens _ _ _ _ H1) as Hst.
    apply dispatchEntry_fixed in H1 as (Hg&_). rewrite Hg in IHt. split.
    + intros Hk. apply IHk. rewrite Hst. by apply tokensStep_keyed.
    + intros id [Hid|(e'&[->|He']%elem_of_cons&Hdec)].
      * apply IHt. left. rewrite Hst. by apply tokensStep_tombstone.
      * apply IHt. left. rewrite Hst, Hdec. simpl. by rewrite lookup_insert_eq.
      * apply IHt. right. eauto.
Qed.

Lemma elem_of_listServiceTokens m t :
  t ∈ listServiceTokens m ↔ ∃ k, serviceTokens m !! k = Some (Some t).
Proof.
  unfold listServiceTokens. rewrite list_elem_of_omap. split.
  - intros ([k o]&Hin%elem_of_map_to_list&Ho). simpl in Ho. subst. eauto.
  - intros (k&Hk). exists (k, Some t). by rewrite elem_of_map_to_list.
Qed.

End TokenRegistry.

(** C5. A service token whose id appears in an AccountServiceTokenRemoved
    event of the log is held as a tombstone after [UpdateIndex] and is not
    returned by [listServiceTokens], wherever the additions of that id stand
    in the log.  The entries of the log are told apart by their hash, or the
    group is an Account group. *)
Theorem removed_token_never_listed ext m log m' r e tokenID :
  accountOrDistinct (group m) log →
  UpdateIndex ext m log = Some (m', r) →
  e ∈ log →
  openMetadataEntry ext log e (group m)
  = Some (EventTypeAccountServiceTokenRemoved, MsgAccountServiceTokenRemoved tokenID) →
  serviceTokens m' !! tokenID = Some None ∧
  ∀ t, t ∈ listServiceTokens m' → TokenID ext (Some t) ≠ Some tokenID.
Proof.
  intros Hok (m2&Hrun&_&Herase)%UpdateIndex_dispatch He Hdec; [|done].
  apply (f_equal serviceTokens) in Herase. simpl in Herase.
  apply dispatchList_serviceTokens in Hrun as [Hkeyed Htomb].
  rewrite <-Herase in Hkeyed, Htomb.
  assert (serviceTokens m' !! tokenID = Some None) as Hnone.
  { apply Htomb. right. exists e. split; [by apply elem_of_reverse|done]. }
  split; [done|]. intros t (k&Hk)%elem_of_listServiceTokens Hid.
  assert (TokenID ext (Some t) = Some k) as Hk'.
  { apply Hkeyed; [|done]. intros k' t' Hk'. simpl in Hk'. by rewrite lookup_empty in Hk'. }
  congruence.
Qed.

(** An instance, scenario S4: the token removed between two additions. *)
Lemma removed_token_never_listed_witness :
  ∃ m' r,
    UpdateIndex (demoExternals tokenTable) (newMetadataIndex accountGroupDemo None)
      tokenLog = Some (m', r) ∧
    serviceTokens m' !! "T1"%string = Some None ∧
    ∀ t, t ∈ listServiceTokens m' →
         TokenID (demoExternals tokenTable) (Some t) ≠ Some "T1"%string.
Proof.
  eexists _, _. split; [vm_compute; reflexivity|].
  refine (removed_token_never_listed (demoExternals tokenTable)
            (newMetadataIndex accountGroupDemo None) tokenLog _ _
            {| entryHash := "h2"; entryPayload := "remove1" |} "T1"%string _ _ _ _).
  - by left.
  - vm_compute; reflexivity.
  - right; left.
  - reflexivity.
Defined.

(** ** Entries that do not decode, and the handled set *)

Section Handled.
Context (ext : Externals).

Lemma replayList_handled log es : ∀ m m',
  replayList ext log es m = Some m' →
  ∀ h, h ∈ handledEvents m' ↔
       h ∈ handledEvents m ∨
       ∃ e, e ∈ es ∧ entryHash e = h ∧ is_Some (openMetadataEntry ext log e (group m)).
Proof.
  induction es as [|e es IH]; intros m m' Hl h; simpl in Hl.
  - simplify_eq. split; [by left|]. intros [?|(e&He&_)]; [done|by inversion He].
  - destruct (replayEntry ext log m e) as [m1|] eqn:H1; [|done]. simpl in Hl.
    rewrite (IH _ _ Hl h). clear IH Hl.
    assert (group m1 = group m ∧
            ∀ h, h ∈ handledEvents m1 ↔
                 h ∈ handledEvents m ∨
                 (entryHash e = h ∧ is_Some (openMetadataEntry ext log e (group m))))
      as [Hg H1'].
    { unfold replayEntry in H1. case_match eqn:Hguard.
      - simplify_eq. split; [done|]. intros h'. split; [by left|].
        intros [?|[<- _]]; [done|].
        apply andb_true_iff in Hguard as [_ Hin]. by apply bool_decide_eq_true in Hin.
      - apply dispatchEntry_fixed in H1 as (Hg&_&_&_&Hh). split; [done|].
        intros h'. rewrite Hh.
        destruct (openMetadataEntry ext log e (group m)) as [d|].
        + rewrite elem_of_union, elem_of_singleton. naive_solver.
        + split; [by left|]. intros [?|[_ [? ?]]]; done. }
    rewrite Hg, H1'. setoid_rewrite elem_of_cons. naive_solver.
Qed.

Lemma replayFrom_decode_failure log entries i e x :
  entries !! i = Some e →
  openMetadataEntry ext log e (group x) = None →
  replayFrom ext log entries (S i) x =
  replayFrom ext log entries i
    (if skipsEntry x e then x else logError x UnableToOpenMetadataEntry).
Proof.
  intros Hi Hdec. simpl. rewrite Hi. unfold replayEntry, dispatchEntry.
  fold (skipsEntry x e). rewrite Hdec. by destruct (skipsEntry x e).
Qed.

End Handled.

(** C2, as stated, fails: the entry of [malformedLog] that does not decode
    is not in the handled set after the replay. *)
Lemma decode_failure_not_marked :
  ¬ (∀ ext m log m' r e,
       UpdateIndex ext m log = Some (m', r) →
       e ∈ log →
       openMetadataEntry ext log e (group m) = None →
       entryHash e ∈ handledEvents m').
Proof.
  intros Hmarked.
  assert (∃ m' r,
            UpdateIndex (demoExternals malformedTable)
              (newMetadataIndex contactGroupDemo None) malformedLog = Some (m', r) ∧
            bool_decide (entryHash malformedEntry ∈ handledEvents m') = false)
    as (m'&r&Hrun&Hnot).
  { eexists _, _. split; vm_compute; reflexivity. }
  apply bool_decide_eq_false in Hnot. apply Hnot.
  eapply Hmarked; [exact Hrun| |reflexivity].
  unfold malformedLog. set_solver.
Qed.

Lemma UpdateIndex_handled ext m log m' r h :
  UpdateIndex ext m log = Some (m', r) →
  h ∈ handledEvents m' ↔
  ∃ e, e ∈ log ∧ entryHash e = h ∧ is_Some (openMetadataEntry ext log e (group m)).
Proof.
  intros (m2&Hrun&_&Herase)%UpdateIndex_inv.
  apply (f_equal handledEvents) in Herase. simpl in Herase. rewrite Herase.
  rewrite (replayList_handled _ _ _ _ _ Hrun h). simpl.
  setoid_rewrite elem_of_reverse. set_solver.
Qed.

(** C2, amended.  An entry whose decoding fails is skipped: the loop goes on
    with the next entry from the same index, to which only the log record of
    the failure was added (nothing when the already-handled guard skipped the
    entry before decoding).  The failure does not mark the entry handled: its
    hash is in the handled set after the replay exactly when some entry of the
    log with that hash decodes. *)
Theorem decode_failure_skipped ext m log m' r e :
  UpdateIndex ext m log = Some (m', r) →
  e ∈ log →
  openMetadataEntry ext log e (group m) = None →
  (∀ i x, log !! i = Some e → group x = group m →
          replayFrom ext log log (S i) x =
          replayFrom ext log log i
            (if skipsEntry x e then x else logError x UnableToOpenMetadataEntry)) ∧
  (entryHash e ∈ handledEvents m' ↔
   ∃ e', e' ∈ log ∧ entryHash e' = entryHash e ∧
         is_Some (openMetadataEntry ext log e' (group m))).
Proof.
  intros Hrun He Hdec. split.
  - intros i x Hi Hg. apply replayFrom_decode_failure; [done|by rewrite Hg].
  - by eapply UpdateIndex_handled.
Qed.

(** An instance, scenario S6. *)
Lemma decode_failure_skipped_witness :
  ∃ m' r,
    UpdateIndex (demoExternals malformedTable)
      (newMetadataIndex contactGroupDemo None) malformedLog = Some (m', r) ∧
    (∀ i x, malformedLog !! i = Some malformedEntry →
            group x = contactGroupDemo →
            replayFrom (demoExternals malformedTable) malformedLog malformedLog (S i) x =
            replayFrom (demoExternals malformedTable) malformedLog malformedLog i
              (if skipsEntry x malformedEntry then x
               else logError x UnableToOpenMetadataEntry)) ∧
    (entryHash malformedEntry ∈ handledEvents m' ↔
     ∃ e', e' ∈ malformedLog ∧ entryHash e' = entryHash malformedEntry ∧
           is_Some (openMetadataEntry (demoExternals malformedTable) malformedLog e'
                      contactGroupDemo)).
Proof.
  eexists _, _. split; [vm_compute; reflexivity|].
  refine (decode_failure_skipped (demoExternals malformedTable)
            (newMetadataIndex contactGroupDemo None) malformedLog _ _ malformedEntry
            _ _ _).
  - vm_compute; reflexivity.
  - right; left.
  - reflexivity.
Defined.

(** ** What a replay resets and what it keeps *)

Section Registry.
Context (ext : Externals).

Lemma registryGrows_refl m : registryGrows m m.
Proof.
  split_and!; try reflexivity. intros k l Hl. exists []. by rewrite app_nil_r.
Qed.

Lemma registryGrows_trans m1 m2 m3 :
  registryGrows m1 m2 → registryGrows m2 m3 → registryGrows m1 m3.
Proof.
  intros (Hm1&Hd1&Ha1&Hs1) (Hm2&Hd2&Ha2&Hs2). split_and!; try by etrans.
  intros k l Hl. apply Hm1 in Hl as [l1 Hl]. apply Hm2 in Hl as [l2 Hl].
  exists (l1 ++ l2). by rewrite app_assoc.
Qed.

Lemma registryGrows_eq m m' :
  members m' = members m → devices m' = devices m → admins m' = admins m →
  sentSecrets m' = sentSecrets m → registryGrows m m'.
Proof.
  intros Hm Hd Ha Hs. unfold registryGrows. rewrite Hm, Hd, Ha, Hs.
  apply registryGrows_refl.
Qed.

Lemma dispatchEntry_registryGrows log m e m' :
  dispatchEntry ext log m e = Some m' → registryGrows m m'.
Proof.
  intros Hd. pose proof (dispatchEntry_agreeOutside _ _ _ _ _ Hd) as (Hfr&_).
  unfold dispatchEntry in *.
  destruct (openMetadataEntry ext log e (group m)) as [[ty ev]|];
    [|destruct Hfr as (?&?&?&?); [done|by apply registryGrows_eq]].
  destruct (decide (domainOf ty = Registry)) as [Hty|Hty];
    [|destruct Hfr as (?&?&?&?); [done|by apply registryGrows_eq]].
  destruct ty; try done; clear Hfr; destruct ev; handler_inv Hd;
    try (by apply registryGrows_eq).
  all: split_and!; simpl; try done; try set_solver; try (by apply insert_subseteq);
    try (by eexists).
  all: intros k l Hl; try (exists []; by rewrite app_nil_r).
  match goal with
  | |- context [<[?i := _]> _ !! _] => destruct (decide (i = k)) as [<-|]
  end.
  - rewrite lookup_insert_eq, Hl. simpl. eauto.
  - rewrite lookup_insert_ne by done. exists []. by rewrite app_nil_r.
Qed.

Lemma replayList_registryGrows log es : ∀ m m',
  replayList ext log es m = Some m' → registryGrows m m'.
Proof.
  induction es as [|e es IH]; intros m m' Hl; simpl in Hl.
  - simplify_eq. apply registryGrows_refl.
  - destruct (replayEntry ext log m e) as [m1|] eqn:H1; [|done]. simpl in Hl.
    eapply registryGrows_trans; [|by apply IH].
    unfold replayEntry in H1. case_match.
    + simplify_eq. apply registryGrows_refl.
    + by eapply dispatchEntry_registryGrows.
Qed.

End Registry.

(** C4. [UpdateIndex] starts its fold from the index whose per-replay
    structures (contacts, contactsFromGroupPK, groups, serviceTokens,
    contactRequestMetadata, contactRequestEnabled, contactRequestSeed,
    verifiedCredentials, handledEvents) are empty, whatever they held before,
    and never clears the member, device, admin and sent-secret maps: every
    entry they held before the call is still there after it. *)
Theorem UpdateIndex_resets_per_replay ext m log m' r :
  UpdateIndex ext m log = Some (m', r) →
  resetState m = perReplayCleared m ∧
  (∃ m2, replayFrom ext log log (length log) (perReplayCleared m) = Some m2 ∧
         runPostIndexActions postIndexActions m2 = Some (m', r)) ∧
  UpdateIndex ext (perReplayCleared m) log = UpdateIndex ext m log ∧
  registryGrows m m'.
Proof.
  intros Hrun. split_and!; [done| |done|].
  - unfold UpdateIndex in Hrun. change (resetState m) with (perReplayCleared m) in Hrun.
    destruct (replayFrom ext log log (length log) (perReplayCleared m)) as [m2|];
      [|done]. eauto.
  - apply UpdateIndex_inv in Hrun as (m2&Hrun&_&Herase).
    apply replayList_registryGrows in Hrun.
    eapply registryGrows_trans; [exact Hrun|].
    apply registryGrows_eq.
    + by apply (f_equal members) in Herase.
    + by apply (f_equal devices) in Herase.
    + by apply (f_equal admins) in Herase.
    + by apply (f_equal sentSecrets) in Herase.
Qed.

(** An instance: a replay of a second log on an index whose structures are
    all populated.  The contact, the token, the group, the knobs and the
    credential of the first replay are gone, the handled set holds the hash
    of the one new entry, and the member, the device, the administrator and
    the sent secret of the first replay are still there, next to the new
    device. *)
Lemma UpdateIndex_resets_per_replay_witness :
  UpdateIndex (demoExternals populatedTable) populatedIndex otherDeviceLog
  = Some (afterOtherDeviceLog, None) ∧
  (resetState populatedIndex = perReplayCleared populatedIndex ∧
   (∃ m2, replayFrom (demoExternals populatedTable) otherDeviceLog otherDeviceLog
            (length otherDeviceLog) (perReplayCleared populatedIndex) = Some m2 ∧
          runPostIndexActions postIndexActions m2 = Some (afterOtherDeviceLog, None)) ∧
   UpdateIndex (demoExternals populatedTable) (perReplayCleared populatedIndex)
     otherDeviceLog
   = UpdateIndex (demoExternals populatedTable) populatedIndex otherDeviceLog ∧
   registryGrows populatedIndex afterOtherDeviceLog) ∧
  (size (contacts populatedIndex), size (contactsFromGroupPK populatedIndex),
   size (groups populatedIndex), size (serviceTokens populatedIndex),
   size (contactRequestMetadata populatedIndex), contactRequestEnabled populatedIndex,
   contactRequestSeed populatedIndex, length (verifiedCredentials populatedIndex),
   size (handledEvents populatedIndex))
  = (1, 1, 1, 1, 1, Some true, Some "seed1"%string, 1, 9) ∧
  (size (contacts afterOtherDeviceLog), size (contactsFromGroupPK afterOtherDeviceLog),
   size (groups afterOtherDeviceLog), size (serviceTokens afterOtherDeviceLog),
   size (contactRequestMetadata afterOtherDeviceLog),
   contactRequestEnabled afterOtherDeviceLog, contactRequestSeed afterOtherDeviceLog,
   length (verifiedCredentials afterOtherDeviceLog),
   elements (handledEvents afterOtherDeviceLog))
  = (0, 0, 0, 0, 0, None, None, 0, ["g1"%string]) ∧
  (MemberCount populatedIndex, DeviceCount populatedIndex, listAdmins populatedIndex,
   areSecretsAlreadySent populatedIndex keyC)
  = (1, 1, [keyA], true) ∧
  (MemberCount afterOtherDeviceLog, DeviceCount afterOtherDeviceLog,
   listAdmins afterOtherDeviceLog, areSecretsAlreadySent afterOtherDeviceLog keyC)
  = (2, 2, [keyA], true).
Proof.
  assert (UpdateIndex (demoExternals populatedTable) populatedIndex otherDeviceLog
          = Some (afterOtherDeviceLog, None)) as Hup by (vm_compute; reflexivity).
  split; [exact Hup|]. split.
  - exact (UpdateIndex_resets_per_replay (demoExternals populatedTable) populatedIndex
             otherDeviceLog afterOtherDeviceLog None Hup).
  - split_and!; vm_compute; reflexivity.
Defined.

(** ** The contact records *)

Section ContactRecords.
Context (ext : Externals).

Lemma fillFrom_bare st pk old :
  fillFrom {| state := st;
              contact := {| PK := pk; PublicRendezvousSeed := None; Metadata := None |} |}
    old = old.
Proof. by destruct old as [s [p [?|] [?|]]]. Qed.

Lemma contactAt_None m k : contactsWf m → contactAt m k = None ↔ contacts m !! k = None.
Proof.
  intros [Hal _]. unfold contactAt. destruct (contacts m !! k) as [l|] eqn:Hk; [|done].
  simpl. split; [|done]. intros Hnone. apply lookup_ge_None in Hnone.
  apply Hal in Hk. lia.
Qed.

(** A new record under a key that has none. *)
Lemma create_contact m k new m1 :
  contactsWf m → contacts m !! k = None →
  contacts m1 = <[k := length (heap m)]> (contacts m) →
  heap m1 = heap m ++ [new] →
  contactsWf m1 ∧
  ∀ k', contactAt m1 k' = if decide (k = k') then Some new else contactAt m k'.
Proof.
  intros [Hal Hinj] Hk Hc Hh. split; [split|].
  - intros k' l. rewrite Hc, Hh, length_app. simpl.
    destruct (decide (k = k')) as [<-|].
    + rewrite lookup_insert_eq. intros [= <-]. lia.
    + rewrite lookup_insert_ne by done. intros Hl%Hal. lia.
  - intros k1 k2 l. rewrite Hc.
    destruct (decide (k = k1)) as [<-|], (decide (k = k2)) as [<-|];
      rewrite ?lookup_insert_eq, ?lookup_insert_ne by done; try done.
    + intros [= <-] Hl%Hal. lia.
    + intros Hl%Hal [= <-]. lia.
    + apply Hinj.
  - intros k'. unfold contactAt. rewrite Hc, Hh.
    destruct (decide (k = k')) as [<-|].
    + rewrite lookup_insert_eq. simpl. by rewrite lookup_app_r, Nat.sub_diag.
    + rewrite lookup_insert_ne by done. destruct (contacts m !! k') as [l|] eqn:Hl; [|done].
      simpl. apply Hal in Hl. by rewrite lookup_app_l.
Qed.

(** A write through the address of an existing record. *)
Lemma update_contact m k l rec m1 :
  contactsWf m → contacts m !! k = Some l →
  contacts m1 = contacts m →
  heap m1 = <[l := rec]> (heap m) →
  contactsWf m1 ∧
  ∀ k', contactAt m1 k' = if decide (k = k') then Some rec else contactAt m k'.
Proof.
  intros [Hal Hinj] Hk Hc Hh. split; [split|].
  - intros k' l'. rewrite Hc, Hh, length_insert. apply Hal.
  - intros k1 k2 l'. rewrite Hc. apply Hinj.
  - intros k'. unfold contactAt. rewrite Hc, Hh.
    destruct (decide (k = k')) as [<-|Hne].
    + rewrite Hk. simpl. apply list_lookup_insert_eq. by eapply Hal.
    + destruct (contacts m !! k') as [l'|] eqn:Hl; [|done]. simpl.
      apply list_lookup_insert_ne. intros ->. apply Hne. by eapply Hinj.
Qed.

Lemma same_contacts m m1 :
  contacts m1 = contacts m → heap m1 = heap m →
  (contactsWf m → contactsWf m1) ∧ ∀ k, contactAt m1 k = contactAt m k.
Proof. intros Hc Hh. unfold contactsWf, contactAt. by rewrite Hc, Hh. Qed.

Lemma registerContactFromGroupPK_result m ac rec :
  heap m !! ac = Some rec →
  ∃ m1, registerContactFromGroupPK ext m ac
        = Some (m1, registrationError ext (group m) (PK (contact rec))) ∧
        contacts m1 = contacts m ∧ heap m1 = heap m ∧
        contactRequestMetadata m1 = contactRequestMetadata m ∧
        (is_Some (registrationError ext (group m) (PK (contact rec))) → m1 = m).
Proof.
  intros Hac. unfold registerContactFromGroupPK, registrationError, isAccount.
  destruct (GroupType (group m)); try (eexists; split_and!; done).
  rewrite Hac. destruct (UnmarshalEd25519PublicKey (PK (contact rec))) as [pk|];
    [|eexists; split_and!; done].
  destruct (GetGroupForContact ext pk) as [g|]; eexists; split_and!; try done.
Qed.

Lemma create_via_register m0 m k new :
  heap m0 = heap m ++ [new] →
  contacts m0 = <[k := length (heap m)]> (contacts m) →
  group m0 = group m →
  contactsFromGroupPK m0 = contactsFromGroupPK m →
  ∃ m1, registerContactFromGroupPK ext m0 (length (heap m))
        = Some (m1, registrationError ext (group m) (PK (contact new))) ∧
        contacts m1 = <[k := length (heap m)]> (contacts m) ∧
        heap m1 = heap m ++ [new] ∧
        (is_Some (registrationError ext (group m) (PK (contact new))) →
         contactsFromGroupPK m1 = contactsFromGroupPK m).
Proof.
  intros Hh Hc Hg Hf.
  destruct (registerContactFromGroupPK_result m0 (length (heap m)) new)
    as (m1&Hr&Hc1&Hh1&_&Herr).
  { by rewrite Hh, lookup_app_r, Nat.sub_diag. }
  exists m1. rewrite <-Hg. split_and!; [done|congruence|congruence|].
  intros Hsome. by rewrite (Herr Hsome).
Qed.

Lemma fill_both m k l old st pk seed meta :
  contacts m !! k = Some l →
  heap m !! l = Some old →
  ∃ m1, fillMetadata m k meta
          ≫= (λ m0, fillPublicRendezvousSeed m0 k seed ≫= λ m2, Some (m2, None))
        = Some (m1, @None errcode) ∧
        contacts m1 = contacts m ∧
        heap m1 =
          <[l := fillFrom {| state := st;
                             contact := {| PK := pk; PublicRendezvousSeed := seed;
                                           Metadata := meta |} |} old]> (heap m) ∧
        contactsFromGroupPK m1 = contactsFromGroupPK m.
Proof.
  intros Hk Hold. pose proof (lookup_lt_Some _ _ _ Hold) as Hlt.
  unfold fillMetadata, fillPublicRendezvousSeed. rewrite Hk. simpl. rewrite Hold. simpl.
  destruct old as [s [p [sd|] [mt|]]]; simpl; rewrite ?Hk; simpl;
    rewrite ?Hold, ?list_lookup_insert_eq by done; simpl;
    eexists; (split; [reflexivity|]); simpl; split_and!; try done;
    rewrite ?list_insert_insert_eq; try done; by rewrite list_insert_id.
Qed.

(** What each contact handler does, by the key and record of its event. *)
Lemma contact_handler_spec ty ev k new m :
  contactEvent (ty, ev) = Some (k, new) →
  ∃ h, eventHandlers ext ty = Some [h] ∧
       (contacts m !! k = None →
        ∃ m1, h m ev = Some (m1, registrationError ext (group m) (PK (contact new))) ∧
              contacts m1 = <[k := length (heap m)]> (contacts m) ∧
              heap m1 = heap m ++ [new] ∧
              (is_Some (registrationError ext (group m) (PK (contact new))) →
               contactsFromGroupPK m1 = contactsFromGroupPK m)) ∧
       (∀ l old, contacts m !! k = Some l → heap m !! l = Some old →
                 ∃ m1, h m ev = Some (m1, None) ∧
                       contacts m1 = contacts m ∧
                       heap m1 = <[l := fillFrom new old]> (heap m) ∧
                       contactsFromGroupPK m1 = contactsFromGroupPK m).
Proof.
  intros Hev.
  destruct ty; try done; destruct ev as [| | | | | | |[c|] own| | | | | | | | | | | | |];
    try done; simpl in Hev; simplify_eq; (eexists; split; [reflexivity|]); simpl;
    (split; [intros Hk|intros l old Hk Hold]); rewrite Hk.
  all: try (exists m; rewrite fillFrom_bare, list_insert_id by done; done).
  all: try (edestruct fill_both as (m1&?&?&?&?); [exact Hk|exact Hold|];
            exists m1; split_and!; done).
  all: repeat case_match.
  all: match goal with
       | |- context [heap ?m' ++ [?new]] =>
           match goal with
           | |- context [registerContactFromGroupPK ext ?m0 _] =>
               apply (create_via_register m0 m' _ new); try done
           end
       end.
Qed.

(** A contact handler rejects an event that is not of its kind, or that
    names no contact. *)
Lemma contact_handler_reject ty ev m :
  domainOf ty = Contacts → contactEvent (ty, ev) = None →
  ∃ h, eventHandlers ext ty = Some [h] ∧ h m ev = Some (m, Some ErrInvalidInput).
Proof.
  intros Hty Hev.
  destruct ty; try done; destruct ev as [| | | | | | |[c|] own| | | | | | | | | | | | |];
    try done; by eexists.
Qed.

(** An entry handled by a single handler. *)
Lemma dispatchEntry_single log m e m' ty ev h :
  openMetadataEntry ext log e (group m) = Some (ty, ev) →
  eventHandlers ext ty = Some [h] →
  dispatchEntry ext log m e = Some m' →
  ∃ m1 r, h m ev = Some (m1, r) ∧
          m' = markHandled
                 (match r with
                  | Some err => logError m1 (UnableToHandleEvent err)
                  | None => m1
                  end) e.
Proof.
  unfold dispatchEntry. intros -> -> Hd. simpl in Hd.
  destruct (h m ev) as [[m1 [err|]]|]; simplify_eq; eauto.
Qed.

(** The effect of one dispatched entry on the contact records. *)
Lemma dispatchEntry_contacts log m e m' :
  contactsWf m →
  dispatchEntry ext log m e = Some m' →
  contactsWf m' ∧
  ∀ k, contactAt m' k = contactStep (openMetadataEntry ext log e (group m)) k (contactAt m k).
Proof.
  intros Hwf Hd. unfold contactStep.
  pose proof (dispatchEntry_agreeOutside _ _ _ _ _ Hd) as (_&Hfr&_).
  destruct (openMetadataEntry ext log e (group m)) as [[ty ev]|] eqn:Hdec.
  2: { destruct Hfr as (Hc&Hh&_); [done|]. destruct (same_contacts m m' Hc Hh). auto. }
  change (Some (ty, ev) ≫= contactEvent) with (contactEvent (ty, ev)).
  destruct (contactEvent (ty, ev)) as [[k new]|] eqn:Hev.
  - clear Hfr. destruct (contact_handler_spec _ _ _ _ m Hev) as (h&Hty&Hnew&Hold').
    destruct (dispatchEntry_single _ _ _ _ _ _ _ Hdec Hty Hd) as (m1&r&Hh&->).
    destruct (contacts m !! k) as [l|] eqn:Hk.
    + destruct (lookup_lt_is_Some_2 (heap m) l) as [old Hold];
        [by eapply (proj1 Hwf)|].
      destruct (Hold' l old eq_refl Hold) as (m2&Hh'&Hc&Hhp&_).
      rewrite Hh in Hh'. simplify_eq.
      destruct (update_contact m k l (fillFrom new old) m2 Hwf Hk Hc Hhp) as [Hwf' Hat].
      split; [done|]. intros k'.
      transitivity (contactAt m2 k'); [done|]. rewrite Hat.
      case_decide; [subst k'|done]. unfold contactAt. by rewrite Hk; simpl; rewrite Hold.
    + destruct (Hnew eq_refl) as (m2&Hh'&Hc&Hhp&_). rewrite Hh in Hh'. simplify_eq.
      destruct (create_contact m k new m2 Hwf Hk Hc Hhp) as [Hwf' Hat].
      assert (∀ k', contactAt
                      (markHandled
                         match registrationError ext (group m) (PK (contact new)) with
                         | Some err => logError m2 (UnableToHandleEvent err)
                         | None => m2
                         end e) k' = contactAt m2 k') as Heq.
      { intros k'. by destruct (registrationError _ _ _). }
      split.
      * by destruct (registrationError _ _ _).
      * intros k'. rewrite Heq, Hat. case_decide; [subst k'|done].
        by rewrite (proj2 (contactAt_None m k Hwf) Hk).
  - assert (contacts m' = contacts m ∧ heap m' = heap m) as [Hc Hh].
    { destruct (decide (domainOf ty = Contacts)) as [Hty|Hty];
        [|by destruct Hfr as (?&?&_)].
      destruct (contact_handler_reject _ _ m Hty Hev) as (h&Hh&Hrej).
      destruct (dispatchEntry_single _ _ _ _ _ _ _ Hdec Hh Hd) as (m1&r&Hh'&->).
      rewrite Hrej in Hh'. by simplify_eq. }
    destruct (same_contacts m m' Hc Hh). auto.
Qed.

Lemma dispatchList_contacts log es : ∀ m m',
  contactsWf m →
  dispatchList ext log es m = Some m' →
  contactsWf m' ∧
  ∀ k, contactAt m' k =
       foldl (λ old e, contactStep (openMetadataEntry ext log e (group m)) k old)
         (contactAt m k) es.
Proof.
  induction es as [|e es IH]; intros m m' Hwf Hl; simpl in Hl.
  - by simplify_eq.
  - destruct (dispatchEntry ext log m e) as [m1|] eqn:H1; [|done]. simpl in Hl.
    destruct (dispatchEntry_contacts _ _ _ _ Hwf H1) as [Hwf1 Hat1].
    destruct (IH _ _ Hwf1 Hl) as [Hwf' Hat]. split; [done|]. intros k.
    apply dispatchEntry_fixed in H1 as (Hg&_). rewrite Hat, Hat1. simpl. by rewrite Hg.
Qed.

Lemma contactStep_state ext' log g k e old :
  state <$> contactStep (openMetadataEntry ext' log e g) k old =
  match state <$> old with
  | Some s => Some s
  | None => contactStateFor ext' log g k e
  end.
Proof.
  unfold contactStep, contactStateFor.
  destruct (openMetadataEntry ext' log e g) as [d|]; simpl; [|by destruct old].
  destruct (contactEvent d) as [[k' new]|]; simpl; [|by destruct old].
  case_decide; by destruct old.
Qed.

Lemma fold_contactStep_state ext' log g k es : ∀ old,
  state <$> foldl (λ old e, contactStep (openMetadataEntry ext' log e g) k old) old es =
  match state <$> old with
  | Some s => Some s
  | None => head (omap (contactStateFor ext' log g k) es)
  end.
Proof.
  induction es as [|e es IH]; intros old; simpl; [by destruct (state <$> old)|].
  rewrite IH, contactStep_state.
  destruct (state <$> old); [done|]. by destruct (contactStateFor ext' log g k e).
Qed.

Lemma contactsWf_reset m : contactsWf (resetState m).
Proof. split; intros ?; simpl; intros; by simplify_map_eq. Qed.

Lemma listContacts_lookup m k : listContacts m !! k = contactAt m k.
Proof.
  unfold listContacts, contactAt. rewrite lookup_omap.
  destruct (contacts m !! k) as [l|]; [|done]. simpl.
  by destruct (heap m !! l) as [[s [p sd mt]]|].
Qed.

End ContactRecords.

(** C10. A contact event that names a contact without a record inserts the
    new record before its registration under the derived group key can fail.
    When the registration fails (group-invalid-type outside an Account group,
    or a failed secret-store lookup in one), the handler returns that error,
    the record stays in the contacts map, where [getContact] and
    [listContacts] find it, and [contactsFromGroupPK] is as before. *)
Theorem contact_creation_not_atomic ext m ty ev contactPK new err :
  contactEvent (ty, ev) = Some (contactPK, new) →
  contacts m !! contactPK = None →
  registrationError ext (group m) (PK (contact new)) = Some err →
  (isAccount (group m) = false → err = ErrGroupInvalidType) ∧
  (isAccount (group m) = true →
   is_Some (UnmarshalEd25519PublicKey (PK (contact new))) → err = ErrOrbitDBOpen) ∧
  ∃ h m' l,
    eventHandlers ext ty = Some [h] ∧
    h m ev = Some (m', Some err) ∧
    getContact m' contactPK = Ok l ∧
    heap m' !! l = Some new ∧
    listContacts m' !! contactPK = Some new ∧
    contactsFromGroupPK m' = contactsFromGroupPK m.
Proof.
  intros Hev Hk Herr. split_and!.
  - intros Hacc. unfold registrationError in Herr. rewrite Hacc in Herr. by simplify_eq.
  - intros Hacc [pk Hpk]. unfold registrationError in Herr. rewrite Hacc, Hpk in Herr.
    by destruct (GetGroupForContact ext pk); simplify_eq.
  - destruct (contact_handler_spec ext _ _ _ _ m Hev) as (h&Hty&Hnew&_).
    destruct (Hnew Hk) as (m'&Hh&Hc&Hhp&Hrev). rewrite Herr in Hh, Hrev.
    exists h, m', (length (heap m)).
    assert (heap m' !! length (heap m) = Some new) as Hl.
    { by rewrite Hhp, lookup_app_r, Nat.sub_diag. }
    split_and!; try done.
    + unfold getContact. by rewrite Hc, lookup_insert_eq.
    + rewrite listContacts_lookup. unfold contactAt. by rewrite Hc, lookup_insert_eq.
    + by apply Hrev.
Qed.

(** An instance: a contact blocked in a Contact group. *)
Lemma contact_creation_not_atomic_witness :
  ∃ h m' l,
    eventHandlers (demoExternals []) EventTypeAccountContactBlocked = Some [h] ∧
    h (newMetadataIndex contactGroupDemo None) (MsgAccountContactBlocked (Some keyC))
    = Some (m', Some ErrGroupInvalidType) ∧
    getContact m' keyC = Ok l ∧
    heap m' !! l
    = Some {| state := ContactStateBlocked;
              contact := {| PK := Some keyC; PublicRendezvousSeed := None;
                            Metadata := None |} |} ∧
    listContacts m' !! keyC
    = Some {| state := ContactStateBlocked;
              contact := {| PK := Some keyC; PublicRendezvousSeed := None;
                            Metadata := None |} |} ∧
    contactsFromGroupPK m' = contactsFromGroupPK (newMetadataIndex contactGroupDemo None).
Proof.
  refine (proj2 (proj2 (contact_creation_not_atomic (demoExternals [])
            (newMetadataIndex contactGroupDemo None) EventTypeAccountContactBlocked
            (MsgAccountContactBlocked (Some keyC)) keyC _ ErrGroupInvalidType _ _ _)));
    reflexivity.
Defined.

(** C1. After [UpdateIndex], the state of the record of a contact is the
    state induced by the newest event of the log, in log order, that pertains
    to that contact, and a contact without such an event has no record.  The
    entries of the log are told apart by their hash, or the group is an
    Account group.  Each dispatched entry acts on the records as [contactStep]
    says: a contact event leaves the state of an existing record alone and
    fills its metadata and seed where absent, creates the record in its
    induced state when there is none, and no other entry touches a record. *)
Theorem contact_state_newest ext m log m' r contactPK :
  accountOrDistinct (group m) log →
  UpdateIndex ext m log = Some (m', r) →
  (∀ i e s,
     log !! i = Some e →
     contactStateFor ext log (group m) contactPK e = Some s →
     (∀ j e', i < j → log !! j = Some e' →
              contactStateFor ext log (group m) contactPK e' = None) →
     state <$> contactAt m' contactPK = Some s) ∧
  ((∀ e, e ∈ log → contactStateFor ext log (group m) contactPK e = None) →
   contacts m' !! contactPK = None) ∧
  (∀ x e x' k,
     contactsWf x → dispatchEntry ext log x e = Some x' →
     contactAt x' k = contactStep (openMetadataEntry ext log e (group x)) k (contactAt x k)).
Proof.
  intros Hok Hupd.
  assert (∀ x e x' k,
            contactsWf x → dispatchEntry ext log x e = Some x' →
            contactAt x' k
            = contactStep (openMetadataEntry ext log e (group x)) k (contactAt x k))
    as Hstep.
  { intros x e x' k Hwf Hd. by apply (dispatchEntry_contacts ext _ _ _ _ Hwf Hd). }
  rewrite (and_assoc _ _ _). split; [|done]. revert Hupd.
  intros (m2&Hrun&_&Herase)%UpdateIndex_dispatch; [|done].
  destruct (dispatchList_contacts ext _ _ _ _ (contactsWf_reset m) Hrun) as [Hwf Hat].
  assert (contacts m' = contacts m2 ∧ heap m' = heap m2) as [Hc Hh].
  { split; [by apply (f_equal contacts) in Herase|by apply (f_equal heap) in Herase]. }
  destruct (same_contacts m2 m' Hc Hh) as [Hwf' Hsame].
  specialize (Hat contactPK). apply (f_equal (fmap state)) in Hat.
  rewrite fold_contactStep_state in Hat. unfold contactAt in Hat at 2.
  simpl in Hat. rewrite lookup_empty in Hat. simpl in Hat.
  fold (newest (contactStateFor ext log (group m) contactPK) log) in Hat. split.
  - intros i e s Hi Hs Hlater. rewrite Hsame, Hat. by eapply newest_Some.
  - intros Hnone. rewrite newest_None in Hat by done.
    apply (contactAt_None _ _ (Hwf' Hwf)). rewrite Hsame.
    by destruct (contactAt m2 contactPK).
Qed.

(** An instance, scenario S2: the request sent after it was enqueued. *)
Lemma contact_state_newest_witness :
  ∃ m' r,
    UpdateIndex (demoExternals contactTable) (newMetadataIndex accountGroupDemo None)
      contactLog = Some (m', r) ∧
    state <$> contactAt m' keyC = Some ContactStateAdded.
Proof.
  eexists _, _. split; [vm_compute; reflexivity|].
  refine (proj1 (contact_state_newest (demoExternals contactTable)
                   (newMetadataIndex accountGroupDemo None) contactLog _ _ keyC _ _)
            1 {| entryHash := "h2"; entryPayload := "sent" |} ContactStateAdded _ _ _).
  - by left.
  - vm_compute; reflexivity.
  - reflexivity.
  - reflexivity.
  - intros j e' Hj He'. destruct j as [|[|j]]; [lia|lia|done].
Defined.

(** ** The member and device registries *)

Lemma UnmarshalEd25519PublicKey_Some data pk :
  UnmarshalEd25519PublicKey data = Some pk → pk = str data ∧ blen data = KeySize.
Proof. unfold UnmarshalEd25519PublicKey. case_decide; naive_solver. Qed.

Lemma registryInv_new g md : registryInv (newMetadataIndex g md).
Proof. split_and!; intros *; simpl; by rewrite lookup_empty. Qed.

Lemma handleGroupMemberDeviceAdded_cases m ev m' r :
  handleGroupMemberDeviceAdded m ev = Some (m', r) →
  m' = m ∨
  ∃ MemberPK DevicePK,
    ev = MsgGroupMemberDeviceAdded MemberPK DevicePK ∧
    devices m !! str DevicePK = None ∧ r = None ∧
    blen MemberPK = KeySize ∧ blen DevicePK = KeySize ∧
    members m' = <[str MemberPK :=
                     default [] (members m !! str MemberPK)
                     ++ [NewMemberDevice (str MemberPK) (str DevicePK)]]> (members m) ∧
    devices m' = <[str DevicePK := NewMemberDevice (str MemberPK) (str DevicePK)]>
                   (devices m).
Proof.
  intros Hh. destruct ev; try (left; by simplify_eq/=).
  lazymatch type of Hh with
  | handleGroupMemberDeviceAdded _ (MsgGroupMemberDeviceAdded ?a ?b) = _ =>
      rename a into mp; rename b into dp
  end.
  unfold handleGroupMemberDeviceAdded in Hh.
  destruct (UnmarshalEd25519PublicKey mp) as [mk|] eqn:Hm; [|left; by simplify_eq].
  destruct (UnmarshalEd25519PublicKey dp) as [dk|] eqn:Hd; [|left; by simplify_eq].
  apply UnmarshalEd25519PublicKey_Some in Hm as [-> ?].
  apply UnmarshalEd25519PublicKey_Some in Hd as [-> ?].
  destruct (devices m !! str dp) eqn:Hdev; [left; by simplify_eq|].
  right. simplify_eq. by exists mp, dp.
Qed.

Lemma handleGroupMemberDeviceAdded_inv m ev m' r :
  registryInv m → handleGroupMemberDeviceAdded m ev = Some (m', r) → registryInv m'.
Proof.
  intros (Hmem&Hreg&Hdev&Hnd) Hh.
  apply handleGroupMemberDeviceAdded_cases in Hh
    as [->|(mp&dp&_&Hfresh&_&_&_&Hm'&Hd')]; [done|].
  set (b := NewMemberDevice (str mp) (str dp)) in *.
  assert (∀ k l b0, members m !! k = Some l → b0 ∈ l → Device b0 ≠ str dp) as Hother.
  { intros k l b0 Hl Hb0 Heq. apply (Hreg _ _ _ Hl) in Hb0. congruence. }
  assert (∀ k l, members m' !! k = Some l →
                 if decide (str mp = k)
                 then l = default [] (members m !! k) ++ [b]
                 else members m !! k = Some l) as Hlook.
  { intros k l. rewrite Hm'. case_decide; [subst k|].
    - rewrite lookup_insert_eq. by intros [= <-].
    - by rewrite lookup_insert_ne. }
  split_and!.
  - intros k l b0 Hl Hb0. apply Hlook in Hl. case_decide; [subst|by eapply Hmem].
    apply elem_of_app in Hb0 as [Hb0|Hb0%list_elem_of_singleton]; [|by subst].
    destruct (members m !! str mp) as [old|] eqn:Hold; [by eapply Hmem|].
    by apply elem_of_nil in Hb0.
  - intros k l b0 Hl Hb0. rewrite Hd'. apply Hlook in Hl.
    assert (b0 = b ∨ ∃ k' l', members m !! k' = Some l' ∧ b0 ∈ l') as [->|(k'&l'&Hl'&Hin)].
    { case_decide; [subst|by eauto].
      apply elem_of_app in Hb0 as [Hb0|Hb0%list_elem_of_singleton]; [|by left].
      destruct (members m !! str mp) as [old|] eqn:Hold; [by eauto|].
      by apply elem_of_nil in Hb0. }
    + by rewrite lookup_insert_eq.
    + rewrite lookup_insert_ne by (symmetry; by eapply Hother). by eapply Hreg.
  - intros d b0. rewrite Hd', Hm'. destruct (decide (str dp = d)) as [<-|Hne].
    + rewrite lookup_insert_eq. intros [= <-]. split; [done|]. simpl.
      rewrite lookup_insert_eq. eexists. split; [done|]. set_solver.
    + rewrite lookup_insert_ne by done. intros Hb0.
      destruct (Hdev _ _ Hb0) as [? (l&Hl&Hin)]. split; [done|].
      destruct (decide (str mp = Member b0)) as [Heq|].
      * rewrite Heq, lookup_insert_eq, Hl. simpl. eexists. split; [done|]. set_solver.
      * rewrite lookup_insert_ne by done. eauto.
  - intros k l Hl. apply Hlook in Hl. case_decide; [subst|by eapply Hnd].
    split; [|by destruct (default [] (members m !! str mp))].
    rewrite fmap_app. apply NoDup_app. split_and!.
    + destruct (members m !! str mp) as [old|] eqn:Hold; [by eapply Hnd|].
      simpl. constructor.
    + intros d Hd Hsg%list_elem_of_singleton. subst d.
      apply list_elem_of_fmap in Hd as (b0&Hb0d&Hb0).
      destruct (members m !! str mp) as [old|] eqn:Hold;
        [|by apply elem_of_nil in Hb0].
      by eapply Hother.
    + apply NoDup_singleton.
Qed.

Lemma memberDeviceEvents_inv evs : ∀ m,
  registryInv m → registryInv (memberDeviceEvents m evs).
Proof.
  induction evs as [|ev evs IH]; intros m Hinv; simpl; [done|].
  destruct (handleGroupMemberDeviceAdded m ev) as [[m' r]|] eqn:Hh; [|done].
  apply IH. by eapply handleGroupMemberDeviceAdded_inv.
Qed.

Lemma registryInv_unique m d :
  registryInv m → is_Some (devices m !! d) →
  ∃ k, deviceListedUnder m d k ∧ ∀ k', deviceListedUnder m d k' → k' = k.
Proof.
  intros (Hmem&Hreg&Hdev&_) [b Hb]. destruct (Hdev _ _ Hb) as [<- (l&Hl&Hin)].
  exists (Member b). split.
  - exists l. split; [done|]. by apply list_elem_of_fmap_2.
  - intros k' (l'&Hl'&(b'&Hd&Hin')%list_elem_of_fmap).
    pose proof (Hreg _ _ _ Hl' Hin') as Hb'. rewrite <-Hd, Hb in Hb'.
    simplify_eq. symmetry. by eapply Hmem.
Qed.

(** C8. After any sequence of events given to
    [handleGroupMemberDeviceAdded] from the empty registries: every binding
    in the list of a member key has that member key; the devices map holds
    exactly the bindings of the member lists, each under its device key;
    every registered device is in the list of exactly one member.  The
    handler leaves the index as it is when the device key is already
    registered, and returns a deserialization error, the index unchanged,
    when one of the two keys is not a valid public key. *)
Theorem registry_invariant g md evs :
  let m := memberDeviceEvents (newMetadataIndex g md) evs in
  registryInv m ∧
  (∀ d, is_Some (devices m !! d) →
        ∃ k, deviceListedUnder m d k ∧ ∀ k', deviceListedUnder m d k' → k' = k) ∧
  (∀ MemberPK DevicePK,
     is_Some (devices m !! str DevicePK) →
     ∃ r, handleGroupMemberDeviceAdded m (MsgGroupMemberDeviceAdded MemberPK DevicePK)
          = Some (m, r)) ∧
  (∀ MemberPK DevicePK,
     UnmarshalEd25519PublicKey MemberPK = None ∨
     UnmarshalEd25519PublicKey DevicePK = None →
     handleGroupMemberDeviceAdded m (MsgGroupMemberDeviceAdded MemberPK DevicePK)
     = Some (m, Some ErrDeserialization)).
Proof.
  intros m.
  assert (registryInv m) as Hinv by apply memberDeviceEvents_inv, registryInv_new.
  split_and!; [done|intros d; by apply registryInv_unique| |].
  - intros mp dp [b Hb]. unfold handleGroupMemberDeviceAdded. rewrite Hb.
    repeat case_match; eauto.
  - intros mp dp [Hm|Hd]; unfold handleGroupMemberDeviceAdded.
    + by rewrite Hm.
    + rewrite Hd. by case_match.
Qed.

(** ** Alias keys *)

Section AliasKeys.
Context (ext : Externals).

Lemma dispatchEntry_aliases log m e m' :
  dispatchEntry ext log m e = Some m' →
  eventsContactAddAliasKey m' =
  eventsContactAddAliasKey m
  ++ option_list (aliasKeyEvent (openMetadataEntry ext log e (group m))).
Proof.
  intros Hd. pose proof (dispatchEntry_agreeOutside _ _ _ _ _ Hd) as (_&_&_&_&_&Hfr&_).
  unfold aliasKeyEvent, dispatchEntry in *.
  destruct (openMetadataEntry ext log e (group m)) as [[ty ev]|];
    [|rewrite Hfr by done; by rewrite app_nil_r].
  destruct (decide (domainOf ty = Aliases)) as [Hty|Hty].
  - destruct ty; try done; clear Hfr; destruct ev; handler_inv Hd;
      by rewrite ?app_nil_r.
  - rewrite Hfr by done. destruct ty; try done; by rewrite app_nil_r.
Qed.

Lemma dispatchList_aliases log es : ∀ m m',
  dispatchList ext log es m = Some m' →
  eventsContactAddAliasKey m' =
  eventsContactAddAliasKey m ++ stagedAliasKeys ext log (group m) es.
Proof.
  induction es as [|e es IH]; intros m m' Hl; simpl in Hl.
  - simplify_eq. by rewrite app_nil_r.
  - destruct (dispatchEntry ext log m e) as [m1|] eqn:H1; [|done]. simpl in Hl.
    rewrite (IH _ _ Hl), (dispatchEntry_aliases _ _ _ _ H1).
    apply dispatchEntry_fixed in H1 as (->&_). rewrite <-app_assoc. f_equal.
    unfold stagedAliasKeys. simpl.
    by destruct (aliasKeyEvent (openMetadataEntry ext log e (group m))).
Qed.

Lemma last_filter_cons {A} (P : A → bool) x (l : list A) :
  last (filter (λ y, P y = true) (x :: l)) =
  match last (filter (λ y, P y = true) l) with
  | Some y => Some y
  | None => if P x then Some x else None
  end.
Proof.
  rewrite filter_cons. destruct (P x) eqn:HP.
  - rewrite decide_True by done. rewrite last_cons.
    by destruct (last (filter (λ y, P y = true) l)).
  - rewrite decide_False by done.
    by destruct (last (filter (λ y, P y = true) l)).
Qed.

Lemma senderMember_flags m b k :
  senderMember (set_ownAliasKeySent m b) = senderMember m ∧
  senderMember (set_otherAliasKey m k) = senderMember m ∧
  fromOwnMember (set_ownAliasKeySent m b) = fromOwnMember m ∧
  fromOwnMember (set_otherAliasKey m k) = fromOwnMember m ∧
  fromOtherMember (set_ownAliasKeySent m b) = fromOtherMember m ∧
  fromOtherMember (set_otherAliasKey m k) = fromOtherMember m.
Proof. done. Qed.

(** The loop of the post-action, when it ends without an error. *)
Lemma sentAliasesLoop_ok evts : ∀ m m',
  sentAliasesLoop evts m = Some (m', None) →
  devices m' = devices m ∧ ownMemberDevice m' = ownMemberDevice m ∧
  (∀ evt, evt ∈ evts → is_Some (senderMember m evt)) ∧
  ownAliasKeySent m' = ownAliasKeySent m || existsb (fromOwnMember m) evts ∧
  otherAliasKey m' =
    match last (filter (λ evt, fromOtherMember m evt = true) evts) with
    | Some evt => AliasPK evt
    | None => otherAliasKey m
    end ∧
  (∀ evt, evt ∈ evts → fromOtherMember m evt = true → blen (AliasPK evt) = KeySize).
Proof.
  induction evts as [|evt evts IH]; intros m m' Hl; simpl in Hl.
  - simplify_eq. split_and!; try done; [by intros ? ?%elem_of_nil|
      by rewrite orb_false_r|by intros ? ?%elem_of_nil].
  - destruct (unsafeGetMemberByDevice m (DevicePK evt)) as [pk|] eqn:Hpk; [|done].
    destruct (ownMemberDevice m) as [own|] eqn:Hown; [|done].
    assert (senderMember m evt = Some pk) as Hsender.
    { unfold senderMember. by rewrite Hpk. }
    assert (fromOwnMember m evt = Equals pk (Member own)) as Hfrom.
    { unfold fromOwnMember. by rewrite Hsender, Hown. }
    assert (fromOtherMember m evt = negb (Equals pk (Member own))) as Hfo.
    { unfold fromOtherMember. by rewrite Hfrom. }
    rewrite last_filter_cons, Hfo.
    destruct (Equals pk (Member own)) eqn:Heq; simpl.
    + apply IH in Hl as (Hd&Ho&Hres&Hsent&Hother&Hsize).
      destruct (senderMember_flags m true None) as (Es&_&Eo&_&Ef&_).
      rewrite ?Es, ?Eo, ?Ef in *. simpl in *.
      split_and!; try done; try congruence.
      * intros evt' [->|Hin]%elem_of_cons; [by rewrite Hsender|by apply Hres].
      * rewrite Hsent, Hfrom. by rewrite orb_true_r.
      * rewrite Hother.
        by destruct (last (filter (λ evt0, fromOtherMember m evt0 = true) evts)).
      * intros evt' [->|Hin]%elem_of_cons; [|by apply Hsize]. by rewrite Hfo.
    + case_decide as Hlen; [done|].
      apply IH in Hl as (Hd&Ho&Hres&Hsent&Hother&Hsize).
      destruct (senderMember_flags m true (AliasPK evt)) as (_&Es&_&Eo&_&Ef).
      rewrite ?Es, ?Eo, ?Ef in *. simpl in *.
      split_and!; try done; try congruence.
      * intros evt' [->|Hin]%elem_of_cons; [by rewrite Hsender|by apply Hres].
      * by rewrite Hsent, Hfrom.
      * rewrite Hother.
        by destruct (last (filter (λ evt0, fromOtherMember m evt0 = true) evts)).
      * intros evt' [->|Hin]%elem_of_cons; [done|by apply Hsize].
Qed.

Lemma dispatchList_fixed log es : ∀ m m',
  dispatchList ext log es m = Some m' →
  group m' = group m ∧ ownMemberDevice m' = ownMemberDevice m ∧
  ownAliasKeySent m' = ownAliasKeySent m ∧ otherAliasKey m' = otherAliasKey m.
Proof.
  induction es as [|e es IH]; intros m m' Hl; simpl in Hl; [by simplify_eq|].
  destruct (dispatchEntry ext log m e) as [m1|] eqn:H1; [|done]. simpl in Hl.
  apply dispatchEntry_fixed in H1 as (?&?&?&?&_). apply IH in Hl as (?&?&?&?).
  split_and!; congruence.
Qed.

Lemma senderMember_ext m1 m2 :
  devices m1 = devices m2 → senderMember m1 = senderMember m2.
Proof.
  intros Hd. unfold senderMember, unsafeGetMemberByDevice. by rewrite Hd.
Qed.

Lemma fromOwnMember_ext m1 m2 :
  devices m1 = devices m2 → ownMemberDevice m1 = ownMemberDevice m2 →
  fromOwnMember m1 = fromOwnMember m2 ∧ fromOtherMember m1 = fromOtherMember m2.
Proof.
  intros Hd Ho. unfold fromOtherMember, fromOwnMember.
  by rewrite (senderMember_ext _ _ Hd), Ho.
Qed.

(** The post-action of a successful [UpdateIndex]. *)
Lemma runPostIndexActions_ok m2 m' :
  runPostIndexActions postIndexActions m2 = Some (m', None) →
  ∃ m3, sentAliasesLoop (eventsContactAddAliasKey m2) m2 = Some (m3, None) ∧
        m' = set_eventsContactAddAliasKey m3 [].
Proof.
  unfold postIndexActions, runPostIndexActions, postHandlerSentAliases.
  destruct (sentAliasesLoop (eventsContactAddAliasKey m2) m2) as [[m3 [err|]]|];
    intros; simplify_eq; eauto.
Qed.

End AliasKeys.

(** C7, as stated, fails: [ownAliasKeySent] is never reset, so
    after a replay that staged an event of the own member it stays true
    through a later successful replay with no staged event at all (here, of
    the empty log, the queue being empty before the call). *)
Lemma alias_flag_survives_replay :
  ¬ (∀ ext m log m',
       UpdateIndex ext m log = Some (m', None) →
       ownAliasKeySent m' = true →
       ∃ evt, evt ∈ eventsContactAddAliasKey m
                    ++ stagedAliasKeys ext log (group m) (reverse log) ∧
              fromOwnMember m' evt = true).
Proof.
  intros Hiff.
  destruct (Hiff (demoExternals aliasTable) afterAliasLog []
              (set_eventsContactAddAliasKey (resetState afterAliasLog) []))
    as (evt&Hin&_).
  - vm_compute; reflexivity.
  - vm_compute; reflexivity.
  - assert (eventsContactAddAliasKey afterAliasLog
            ++ stagedAliasKeys (demoExternals aliasTable) [] (group afterAliasLog)
                 (reverse []) = []) as Hempty by (vm_compute; reflexivity).
    rewrite Hempty in Hin. by apply elem_of_nil in Hin.
Qed.

(** C7, amended.  After a successful [UpdateIndex], with the staged events
    being those left in the queue by an earlier failed call followed by the
    alias-key events of the log, newest first: every staged event has a
    sender the device registry resolves; [ownAliasKeySent] is true exactly
    when it was true before the call or some staged event comes from a device
    of the own member; [otherAliasKey] is the alias key of the last staged
    event from another member, which has the key size, and is what it was
    before the call when there is none; the staging queue is empty. *)
Theorem alias_keys_after_update ext m log m' :
  accountOrDistinct (group m) log →
  UpdateIndex ext m log = Some (m', None) →
  let staged :=
    eventsContactAddAliasKey m ++ stagedAliasKeys ext log (group m) (reverse log) in
  (∀ evt, evt ∈ staged → is_Some (senderMember m' evt)) ∧
  ownAliasKeySent m' = ownAliasKeySent m || existsb (fromOwnMember m') staged ∧
  otherAliasKey m' =
    match last (filter (λ evt, fromOtherMember m' evt = true) staged) with
    | Some evt => AliasPK evt
    | None => otherAliasKey m
    end ∧
  (∀ evt, evt ∈ staged → fromOtherMember m' evt = true →
          blen (AliasPK evt) = KeySize) ∧
  eventsContactAddAliasKey m' = [].
Proof.
  intros Hok (m2&Hrun&Hpost&_)%UpdateIndex_dispatch staged; [|done].
  apply runPostIndexActions_ok in Hpost as (m3&Hloop&->).
  pose proof (dispatchList_aliases _ _ _ _ _ Hrun) as Hq.
  apply dispatchList_fixed in Hrun as (_&_&Hsent&Hother). simpl in Hq, Hsent, Hother.
  fold staged in Hq. rewrite Hq in Hloop.
  apply sentAliasesLoop_ok in Hloop as (Hd&Ho&Hres&Hsent'&Hother'&Hsize).
  destruct (fromOwnMember_ext (set_eventsContactAddAliasKey m3 []) m2) as [-> ->];
    [done..|].
  rewrite (senderMember_ext (set_eventsContactAddAliasKey m3 []) m2) by done.
  simpl. rewrite Hsent', Hother', Hsent, Hother. by split_and!.
Qed.

(** An instance, scenario S5. *)
Lemma alias_keys_after_update_witness :
  UpdateIndex (demoExternals aliasTable)
    (newMetadataIndex contactGroupDemo (Some ownBindingDemo)) aliasLog
  = Some (afterAliasLog, None) ∧
  ownAliasKeySent afterAliasLog = true ∧
  otherAliasKey afterAliasLog = Some "cccccccccccccccccccccccccccccccc"%string ∧
  eventsContactAddAliasKey afterAliasLog = [].
Proof.
  assert (UpdateIndex (demoExternals aliasTable)
            (newMetadataIndex contactGroupDemo (Some ownBindingDemo)) aliasLog
          = Some (afterAliasLog, None)) as Hrun by (vm_compute; reflexivity).
  split; [exact Hrun|].
  destruct (alias_keys_after_update (demoExternals aliasTable)
              (newMetadataIndex contactGroupDemo (Some ownBindingDemo)) aliasLog
              afterAliasLog
              (or_intror (bool_decide_unpack (NoDup (entryHash <$> aliasLog))
                            ltac:(vm_compute; exact I)))
              Hrun) as (_&Hsent&Hother&_&Hq).
  split_and!; [rewrite Hsent|rewrite Hother|exact Hq]; vm_compute; reflexivity.
Defined.

(** ** Two replays of one log *)

Section Effects.
Context (ext : Externals).

Lemma UnmarshalEd25519PublicKey_eq data :
  UnmarshalEd25519PublicKey data
  = if bool_decide (blen data = KeySize) then Some (str data) else None.
Proof. unfold UnmarshalEd25519PublicKey. by case_bool_decide; case_decide. Qed.

Lemma dispatchEntry_knobs log m e m' :
  dispatchEntry ext log m e = Some m' →
  (contactRequestEnabled m', contactRequestSeed m') =
  knobsStep (openMetadataEntry ext log e (group m))
    (contactRequestEnabled m, contactRequestSeed m).
Proof.
  intros Hd. pose proof (dispatchEntry_agreeOutside _ _ _ _ _ Hd) as (_&_&_&_&Hfr&_).
  unfold knobsStep, dispatchEntry in *.
  destruct (openMetadataEntry ext log e (group m)) as [[ty ev]|];
    [|by destruct Hfr as [-> ->]].
  destruct (decide (domainOf ty = Knobs)) as [Hty|Hty].
  - destruct ty; try done; clear Hfr; destruct ev; handler_inv Hd;
      first [done|congruence|by f_equal].
  - destruct Hfr as [-> ->]; [done|]. by destruct ty.
Qed.

Lemma dispatchEntry_credentials log m e m' :
  dispatchEntry ext log m e = Some m' →
  verifiedCredentials m' =
  verifiedCredentials m
  ++ option_list (credentialEvent (openMetadataEntry ext log e (group m))).
Proof.
  intros Hd. pose proof (dispatchEntry_agreeOutside _ _ _ _ _ Hd) as (_&_&_&_&_&_&Hfr).
  unfold credentialEvent, dispatchEntry in *.
  destruct (openMetadataEntry ext log e (group m)) as [[ty ev]|];
    [|rewrite Hfr by done; by rewrite app_nil_r].
  destruct (decide (domainOf ty = Credentials)) as [Hty|Hty].
  - destruct ty; try done; clear Hfr; destruct ev; handler_inv Hd;
      by rewrite ?app_nil_r.
  - rewrite Hfr by done. destruct ty; try done; by rewrite app_nil_r.
Qed.

(** The address of a key just unmarshalled is not in the administrators
    map. *)
Lemma lookupAdmin_fresh m : lookupAdmin m (freshKeyAddress m) = None.
Proof. by apply lookup_ge_None_2. Qed.

Lemma dispatchEntry_registry log m e m' :
  dispatchEntry ext log m e = Some m' →
  registryOf m' =
  registryStep (ownMemberDevice m) (openMetadataEntry ext log e (group m)) (registryOf m).
Proof.
  intros Hd. pose proof (dispatchEntry_agreeOutside _ _ _ _ _ Hd) as (Hfr&_).
  unfold registryStep, registryOf, dispatchEntry in *.
  destruct (openMetadataEntry ext log e (group m)) as [[ty ev]|];
    [|by destruct Hfr as (->&->&->&->)].
  destruct (decide (domainOf ty = Registry)) as [Hty|Hty].
  - destruct ty; try done; clear Hfr; destruct ev; try (by handler_inv Hd);
      cbn in Hd; unfold lookupAdmin, freshKeyAddress in Hd;
      rewrite ?(lookup_ge_None_2 (admins m) (length (admins m))) in Hd by done;
      rewrite !UnmarshalEd25519PublicKey_eq in Hd;
      repeat (case_bool_decide; simpl in *); handler_inv Hd; done.
  - destruct Hfr as (->&->&->&->); [done|]. by destruct ty.
Qed.

(** An entry is dispatched without a fault exactly when it is not one of the
    faulting entries. *)
Lemma dispatchEntry_is_Some log m e :
  contactsWf m →
  entryFaults ext (ownMemberDevice m) (openMetadataEntry ext log e (group m)) = false →
  is_Some (dispatchEntry ext log m e).
Proof.
  intros Hwf Hf. unfold dispatchEntry.
  destruct (openMetadataEntry ext log e (group m)) as [[ty ev]|]; [|by eauto].
  destruct (decide (domainOf ty = Contacts)) as [Hty|Hty].
  - destruct (contactEvent (ty, ev)) as [[k new]|] eqn:Hev.
    + destruct (contact_handler_spec ext _ _ _ _ m Hev) as (h&->&Hnew&Hold). simpl.
      destruct (contacts m !! k) as [l|] eqn:Hk.
      * destruct (lookup_lt_is_Some_2 (heap m) l) as [old Hl];
          [by eapply (proj1 Hwf)|].
        destruct (Hold l old eq_refl Hl) as (m1&->&_). eauto.
      * destruct (Hnew eq_refl) as (m1&->&_).
        destruct (registrationError ext (group m) (PK (contact new))); eauto.
    + destruct (contact_handler_reject ext _ _ m Hty Hev) as (h&->&Hrej). simpl.
      rewrite Hrej. eauto.
  - destruct ty; try done; destruct ev; cbn in *;
      rewrite ?UnmarshalEd25519PublicKey_eq;
      unfold handleContactRequestDisabled, handleContactRequestEnabled;
      repeat (first [case_bool_decide|case_match]; simplify_eq/=); eauto.
Qed.

Lemma dispatchEntry_no_fault log m e m' :
  dispatchEntry ext log m e = Some m' →
  entryFaults ext (ownMemberDevice m) (openMetadataEntry ext log e (group m)) = false.
Proof.
  unfold dispatchEntry. intros Hd.
  destruct (openMetadataEntry ext log e (group m)) as [[ty ev]|]; [|done].
  destruct ty; try done; destruct ev; try done; cbn in *;
    rewrite ?UnmarshalEd25519PublicKey_eq in Hd;
    repeat (first [case_bool_decide|case_match]; simplify_eq/=); eauto.
Qed.





Lemma sentAliasesLoop_own evts : ∀ m own,
  ownMemberDevice m = Some own → is_Some (sentAliasesLoop evts m).
Proof.
  induction evts as [|evt evts IH]; intros m own Hown; simpl; [by eauto|].
  destruct (unsafeGetMemberByDevice m (DevicePK evt)); [|by eauto]. rewrite Hown.
  repeat case_match; eauto.
Qed.

Lemma runPostIndexActions_is_Some m :
  is_Some (sentAliasesLoop (eventsContactAddAliasKey m) m) →
  is_Some (runPostIndexActions postIndexActions m).
Proof.
  unfold postIndexActions, runPostIndexActions, postHandlerSentAliases.
  intros [[m1 [err|]] ->]; eauto.
Qed.

(** A replay over entries none of which faults runs through. *)
Lemma replayList_is_Some log es : ∀ m,
  contactsWf m →
  (∀ e, e ∈ es →
        entryFaults ext (ownMemberDevice m) (openMetadataEntry ext log e (group m))
        = false) →
  ∃ m', replayList ext log es m = Some m' ∧
        ownMemberDevice m' = ownMemberDevice m.
Proof.
  induction es as [|e es IH]; intros m Hwf Hnf; simpl; [by eauto|].
  assert (∃ m1, replayEntry ext log m e = Some m1 ∧ contactsWf m1) as (m1&H1&Hwf1).
  { unfold replayEntry. case_match; [by eauto|].
    destruct (dispatchEntry_is_Some log m e Hwf) as [m1 H1]; [apply Hnf; left|].
    exists m1. split; [done|]. by eapply dispatchEntry_contacts. }
  rewrite H1. simpl. apply replayEntry_fixed in H1 as (Hg&Ho&_).
  destruct (IH m1 Hwf1) as (m'&Hm'&Ho').
  { intros e' He'. rewrite Hg, Ho. apply Hnf. by right. }
  exists m'. split; [done|congruence].
Qed.

(** [UpdateIndex] returns, with or without an error, on an index with an own
    binding and a log without faulting entries. *)
Lemma UpdateIndex_returns m log own :
  ownMemberDevice m = Some own →
  (∀ e, e ∈ log →
        entryFaults ext (Some own) (openMetadataEntry ext log e (group m)) = false) →
  is_Some (UpdateIndex ext m log).
Proof.
  intros Hown Hnf. unfold UpdateIndex. rewrite replayFrom_replayList.
  destruct (replayList_is_Some log (reverse log) (resetState m)) as (m2&->&Ho).
  { apply contactsWf_reset. }
  { intros e He. rewrite elem_of_reverse in He. simpl. rewrite Hown. by apply Hnf. }
  simpl. apply runPostIndexActions_is_Some.
  eapply sentAliasesLoop_own. by rewrite Ho.
Qed.



End Effects.

Lemma eraseAliases_fields m m' :
  eraseAliases m' = eraseAliases m →
  registryOf m' = registryOf m ∧
  group m' = group m ∧ ownMemberDevice m' = ownMemberDevice m ∧
  contacts m' = contacts m ∧ heap m' = heap m ∧
  serviceTokens m' = serviceTokens m ∧
  verifiedCredentials m' = verifiedCredentials m ∧
  contactRequestEnabled m' = contactRequestEnabled m ∧
  contactRequestSeed m' = contactRequestSeed m.
Proof.
  intros He. unfold registryOf. split_and!.
  - by rewrite (f_equal members He : members m' = members m),
      (f_equal devices He : devices m' = devices m),
      (f_equal admins He : admins m' = admins m),
      (f_equal sentSecrets He : sentSecrets m' = sentSecrets m).
  - exact (f_equal group He).
  - exact (f_equal ownMemberDevice He).
  - exact (f_equal contacts He).
  - exact (f_equal heap He).
  - exact (f_equal serviceTokens He).
  - exact (f_equal verifiedCredentials He).
  - exact (f_equal contactRequestEnabled He).
  - exact (f_equal contactRequestSeed He).
Qed.



(** C9 fails on [listAdmins].  The handler of an announcement unmarshals the
    member key into a new key object and looks that object up in the admins
    map, which compares keys by address: the lookup never finds it, the
    handler never takes its branch for a known admin, and every replay adds
    the announced member once more.  After one replay of [announcementLog]
    the index lists one admin, after a second replay of the same log it
    lists the same member twice, and the two indexes are not observably
    equal. *)
Theorem UpdateIndex_twice_admins :
  UpdateIndex (demoExternals groupTable)
    (newMetadataIndex multiMemberGroupDemo (Some ownBindingDemo)) announcementLog
  = Some (afterAnnouncementLog, None) ∧
  UpdateIndex (demoExternals groupTable) afterAnnouncementLog announcementLog
  = Some (afterAnnouncementLogTwice, None) ∧
  listAdmins afterAnnouncementLog = [keyA] ∧
  listAdmins afterAnnouncementLogTwice = [keyA; keyA] ∧
  ¬ observablyEqual afterAnnouncementLog afterAnnouncementLogTwice.
Proof.
  split_and!; try (vm_compute; reflexivity).
  unfold observablyEqual. intros H.
  repeat match type of H with
         | listAdmins _ = listAdmins _ ∧ _ => destruct H as [H _]
         | _ ∧ _ => destruct H as [_ H]
         end.
  vm_compute in H. discriminate H.
Qed.

(** ** What the queries hand out *)

(** A write through the address [getContact] returned is a write to the
    record of the index. *)
Lemma getContact_aliases_record m pk l rec :
  getContact m pk = Ok l → l < length (heap m) →
  contactAt (writeThrough m l rec) pk = Some rec.
Proof.
  unfold getContact, contactAt, writeThrough. intros Hg Hl.
  destruct (contacts m !! pk) as [l'|] eqn:Hpk; [|done]. simplify_eq/=.
  rewrite Hpk. simpl. by apply list_lookup_insert_eq.
Qed.

(** C3 fails on [getContact].  After the replay of [contactLog] the contact
    has state Added; [getContact] returns the address the contacts map holds,
    and a caller's write through it turns the record of the index, as
    [listContacts] and [getContact] show it afterwards, into the one
    written. *)
Theorem getContact_exposes_record :
  ∃ l,
    getContact afterContactLog keyC = Ok l ∧
    state <$> listContacts afterContactLog !! keyC = Some ContactStateAdded ∧
    listContacts (writeThrough afterContactLog l blockedRecord) !! keyC
    = Some blockedRecord ∧
    readContact (writeThrough afterContactLog l blockedRecord)
      (getContact (writeThrough afterContactLog l blockedRecord) keyC)
    = Ok (Some blockedRecord).
Proof.
  eexists. split; [vm_compute; reflexivity|].
  split_and!; vm_compute; reflexivity.
Qed.

(** ** The scenarios of the specification *)

(** S1: one member with one device. *)
Example scenario_member_device :
  let m := memberDeviceEvents (newMetadataIndex contactGroupDemo None)
             [MsgGroupMemberDeviceAdded (Some keyA) (Some keyB)] in
  MemberCount m = 1 ∧ DeviceCount m = 1 ∧
  getMemberByDevice m keyB = Ok keyA ∧ getDevicesForMember m keyA = Ok [keyB].
Proof. vm_compute. by split_and!. Qed.

(** S2: the request that was sent fixes the state, the one enqueued before
    it fills the metadata and the seed. *)
Example scenario_contact_request :
  listContacts afterContactLog !! keyC
  = Some {| state := ContactStateAdded;
            contact := {| PK := Some keyC; PublicRendezvousSeed := Some "seed"%string;
                          Metadata := Some "meta"%string |} |}.
Proof. vm_compute; reflexivity. Qed.

(** S4: the token removed stays out, whatever is added around it. *)
Example scenario_service_tokens :
  (λ mr, listServiceTokens (fst mr))
    <$> UpdateIndex (demoExternals tokenTable)
          (newMetadataIndex accountGroupDemo None) tokenLog
  = Some [{| Token := "T2"; AuthenticationURL := "https://two" |}].
Proof. vm_compute; reflexivity. Qed.

(** S6: the replay goes past the entry that does not decode, registers both
    members and logs the failure once. *)
Example scenario_malformed_entry :
  (λ mr, (MemberCount (fst mr), logged (fst mr), snd mr))
    <$> UpdateIndex (demoExternals malformedTable)
          (newMetadataIndex contactGroupDemo None) malformedLog
  = Some (2, [UnableToOpenMetadataEntry], None).
Proof. vm_compute; reflexivity. Qed.

(** * The queries after a replay *)

(** ** The contact-request knobs and the credentials *)

Section Knobs.
Context (ext : Externals).

Lemma dispatchList_knobs log es : ∀ m m',
  dispatchList ext log es m = Some m' →
  (contactRequestEnabled m', contactRequestSeed m') =
  foldl (λ kn e, knobsStep (openMetadataEntry ext log e (group m)) kn)
    (contactRequestEnabled m, contactRequestSeed m) es.
Proof.
  induction es as [|e es IH]; intros m m' Hl; simpl in Hl; [by simplify_eq|].
  destruct (dispatchEntry ext log m e) as [m1|] eqn:H1; [|done]. simpl in Hl.
  rewrite (IH _ _ Hl). simpl. rewrite (dispatchEntry_knobs _ _ _ _ _ H1).
  apply dispatchEntry_fixed in H1 as (Hg&_). by rewrite Hg.
Qed.

Lemma knobsStep_first log g e kn :
  knobsStep (openMetadataEntry ext log e g) kn =
  (match fst kn with Some b => Some b | None => knobFlagFor ext log g e end,
   match snd kn with Some s => Some s | None => knobSeedFor ext log g e end).
Proof.
  unfold knobsStep, knobFlagFor, knobSeedFor. destruct kn as [[b|] [s|]]; simpl.
  all: destruct (openMetadataEntry ext log e g) as [[ty ev]|]; [|done].
  all: destruct ty; try done; destruct ev; done.
Qed.

Lemma fold_knobsStep log g es : ∀ kn,
  foldl (λ kn e, knobsStep (openMetadataEntry ext log e g) kn) kn es =
  (match fst kn with
   | Some b => Some b
   | None => head (omap (knobFlagFor ext log g) es)
   end,
   match snd kn with
   | Some s => Some s
   | None => head (omap (knobSeedFor ext log g) es)
   end).
Proof.
  induction es as [|e es IH]; intros kn; simpl.
  - by destruct kn as [[b|] [s|]].
  - rewrite IH, knobsStep_first. simpl.
    destruct kn as [[b|] [s|]]; simpl;
      destruct (knobFlagFor ext log g e), (knobSeedFor ext log g e); done.
Qed.

Lemma UpdateIndex_knobs m log m' r :
  accountOrDistinct (group m) log →
  UpdateIndex ext m log = Some (m', r) →
  contactRequestEnabled m' = newest (knobFlagFor ext log (group m)) log ∧
  contactRequestSeed m' = newest (knobSeedFor ext log (group m)) log.
Proof.
  intros Hlog Hup.
  destruct (UpdateIndex_dispatch _ _ _ _ _ Hlog Hup) as (m2&Hl&_&Herase).
  apply eraseAliases_fields in Herase as (_&_&_&_&_&_&_&Hen&Hseed).
  apply dispatchList_knobs in Hl. rewrite fold_knobsStep in Hl. simpl in Hl.
  rewrite Hen, Hseed. unfold newest. by simplify_eq.
Qed.

Lemma dispatchList_credentials log es : ∀ m m',
  dispatchList ext log es m = Some m' →
  verifiedCredentials m' =
  verifiedCredentials m ++ omap (credentialFor ext log (group m)) es.
Proof.
  induction es as [|e es IH]; intros m m' Hl; simpl in Hl.
  - simplify_eq. by rewrite app_nil_r.
  - destruct (dispatchEntry ext log m e) as [m1|] eqn:H1; [|done]. simpl in Hl.
    rewrite (IH _ _ Hl), (dispatchEntry_credentials _ _ _ _ _ H1).
    apply dispatchEntry_fixed in H1 as (Hg&_). rewrite Hg, <-app_assoc. f_equal.
    simpl. unfold credentialFor at 2.
    by destruct (credentialEvent (openMetadataEntry ext log e (group m))).
Qed.

End Knobs.

(** X1. After a replay, contact requests are enabled exactly when the newest
    enable or disable event of the log is an enable event: the flag of the
    index is the one of that event, and it is unset, which
    [contactRequestsEnabled] reads as false, when the log has no such
    event. *)
Theorem contact_requests_enabled_newest ext m log m' r :
  accountOrDistinct (group m) log →
  UpdateIndex ext m log = Some (m', r) →
  contactRequestEnabled m' = newest (knobFlagFor ext log (group m)) log ∧
  contactRequestsEnabled m' = default false (newest (knobFlagFor ext log (group m)) log).
Proof.
  intros Hlog Hup. destruct (UpdateIndex_knobs _ _ _ _ _ Hlog Hup) as [Hen _].
  split; [done|]. unfold contactRequestsEnabled. rewrite Hen.
  by destruct (newest _ _).
Qed.

Lemma contact_requests_enabled_newest_witness :
  UpdateIndex (demoExternals knobsTable) (newMetadataIndex accountGroupDemo None) knobsLog
  = Some (afterKnobsLog, None) ∧
  contactRequestsEnabled afterKnobsLog = true.
Proof.
  assert (UpdateIndex (demoExternals knobsTable)
            (newMetadataIndex accountGroupDemo None) knobsLog
          = Some (afterKnobsLog, None)) as Hup by (vm_compute; reflexivity).
  split; [exact Hup|].
  destruct (contact_requests_enabled_newest (demoExternals knobsTable)
             (newMetadataIndex accountGroupDemo None) knobsLog afterKnobsLog None
             (or_introl eq_refl) Hup)
    as [_ ->].
  vm_compute. reflexivity.
Defined.

(** X2. After a replay, the contact-request seed is the seed of the newest
    reference reset that carries one; a reset without a seed leaves the
    choice to the older entries, and the seed is nil when no reset carries
    one. *)
Theorem contact_requests_seed_newest ext m log m' r :
  accountOrDistinct (group m) log →
  UpdateIndex ext m log = Some (m', r) →
  contactRequestsSeed m' = newest (knobSeedFor ext log (group m)) log.
Proof.
  intros Hlog Hup. by destruct (UpdateIndex_knobs _ _ _ _ _ Hlog Hup) as [_ Hseed].
Qed.

Lemma contact_requests_seed_newest_witness :
  UpdateIndex (demoExternals knobsTable) (newMetadataIndex accountGroupDemo None) knobsLog
  = Some (afterKnobsLog, None) ∧
  contactRequestsSeed afterKnobsLog = Some "seed2"%string.
Proof.
  assert (UpdateIndex (demoExternals knobsTable)
            (newMetadataIndex accountGroupDemo None) knobsLog
          = Some (afterKnobsLog, None)) as Hup by (vm_compute; reflexivity).
  split; [exact Hup|].
  rewrite (contact_requests_seed_newest (demoExternals knobsTable)
             (newMetadataIndex accountGroupDemo None) knobsLog afterKnobsLog None
             (or_introl eq_refl) Hup).
  vm_compute. reflexivity.
Defined.

(** X3. After a replay, [listVerifiedCredentials] gives the credentials the
    entries of the log register, newest first, one for every such entry:
    what the index held before the replay is gone and nothing is merged. *)
Theorem verified_credentials_newest_first ext m log m' r :
  accountOrDistinct (group m) log →
  UpdateIndex ext m log = Some (m', r) →
  listVerifiedCredentials m' = omap (credentialFor ext log (group m)) (reverse log).
Proof.
  intros Hlog Hup.
  destruct (UpdateIndex_dispatch _ _ _ _ _ Hlog Hup) as (m2&Hl&_&Herase).
  apply eraseAliases_fields in Herase as (_&_&_&_&_&_&Hvc&_).
  apply dispatchList_credentials in Hl. unfold listVerifiedCredentials.
  by rewrite Hvc, Hl.
Qed.

Lemma verified_credentials_newest_first_witness :
  UpdateIndex (demoExternals knobsTable) (newMetadataIndex accountGroupDemo None) knobsLog
  = Some (afterKnobsLog, None) ∧
  listVerifiedCredentials afterKnobsLog
  = [{| Identifier := "id2"; VerifiedCredential := "vc2" |};
     {| Identifier := "id1"; VerifiedCredential := "vc1" |}].
Proof.
  assert (UpdateIndex (demoExternals knobsTable)
            (newMetadataIndex accountGroupDemo None) knobsLog
          = Some (afterKnobsLog, None)) as Hup by (vm_compute; reflexivity).
  split; [exact Hup|].
  rewrite (verified_credentials_newest_first (demoExternals knobsTable)
             (newMetadataIndex accountGroupDemo None) knobsLog afterKnobsLog None
             (or_introl eq_refl) Hup).
  vm_compute. reflexivity.
Defined.

(** ** Sent secrets, administrators and service tokens *)

Lemma existsb_elem_of {A} (f : A → bool) (l : list A) :
  existsb f l = true ↔ ∃ x, x ∈ l ∧ f x = true.
Proof.
  rewrite existsb_exists. split; intros (x&Hx&Hf); exists x; split; try done;
    by apply list_elem_of_In.
Qed.

Lemma existsb_reverse {A} (f : A → bool) (l : list A) :
  existsb f (reverse l) = existsb f l.
Proof.
  apply eq_true_iff_eq. rewrite !existsb_elem_of.
  split; intros (x&Hx&Hf); exists x; split; try done.
  - by rewrite elem_of_reverse in Hx.
  - by rewrite elem_of_reverse.
Qed.

Section Registry.
Context (ext : Externals).

Lemma dispatchList_registry log es : ∀ m m',
  dispatchList ext log es m = Some m' →
  registryOf m' =
  foldl (λ reg e,
           registryStep (ownMemberDevice m) (openMetadataEntry ext log e (group m)) reg)
    (registryOf m) es.
Proof.
  induction es as [|e es IH]; intros m m' Hl; simpl in Hl; [by simplify_eq|].
  destruct (dispatchEntry ext log m e) as [m1|] eqn:H1; [|done]. simpl in Hl.
  rewrite (IH _ _ Hl). simpl. rewrite (dispatchEntry_registry _ _ _ _ _ H1).
  apply dispatchEntry_fixed in H1 as (Hg&Ho&_). by rewrite Hg, Ho.
Qed.

Lemma registryStep_sent log g own e reg pk :
  pk ∈ (registryStep own (openMetadataEntry ext log e g) reg).2 ↔
  pk ∈ reg.2 ∨
  match own with
  | Some o => secretSentTo ext log g o pk e
  | None => false
  end = true.
Proof.
  unfold registryStep, secretSentTo. destruct reg as [[[mem dev] adm] sent].
  destruct own as [o|];
    (destruct (openMetadataEntry ext log e g) as [[ty ev]|];
     [|split; [by left|intros [?|?]; done]]).
  all: destruct ty; simpl; try (split; [by left|intros [?|?]; done]).
  all: destruct ev; simpl; try (split; [by left|intros [?|?]; done]).
  all: unfold Equals; repeat (case_bool_decide; simpl); repeat case_match; simpl;
      rewrite ?elem_of_union, ?elem_of_singleton;
      (split; [intros; destruct_or?; eauto|intros [?|?]; simplify_eq; eauto]).
Qed.

Lemma fold_registryStep_sent log g own es pk : ∀ reg,
  pk ∈ (foldl (λ reg e, registryStep own (openMetadataEntry ext log e g) reg) reg es).2 ↔
  pk ∈ reg.2 ∨
  match own with
  | Some o => existsb (secretSentTo ext log g o pk) es
  | None => false
  end = true.
Proof.
  induction es as [|e es IH]; intros reg; simpl.
  - destruct own; naive_solver.
  - rewrite IH, registryStep_sent. destruct own; [rewrite orb_true_iff|]; naive_solver.
Qed.

Lemma registryStep_admins log g own e reg :
  (registryStep own (openMetadataEntry ext log e g) reg).1.2 =
  reg.1.2 ++ option_list (announcedAdmin ext log g e).
Proof.
  unfold registryStep, announcedAdmin. destruct reg as [[[mem dev] adm] sent].
  destruct (openMetadataEntry ext log e g) as [[ty ev]|]; simpl;
    [|by rewrite app_nil_r].
  destruct ty; simpl; try (by rewrite app_nil_r).
  all: destruct ev; simpl; try (by rewrite app_nil_r).
  all: repeat case_match; simpl; by rewrite ?app_nil_r.
Qed.

Lemma fold_registryStep_admins log g own es : ∀ reg,
  (foldl (λ reg e, registryStep own (openMetadataEntry ext log e g) reg)
     reg es).1.2 =
  reg.1.2 ++ omap (announcedAdmin ext log g) es.
Proof.
  induction es as [|e es IH]; intros reg; simpl; [by rewrite app_nil_r|].
  rewrite IH, registryStep_admins, <-app_assoc. f_equal.
  by destruct (announcedAdmin ext log g e).
Qed.

Lemma omap_reverse_Permutation {A B} (f : A → option B) (l : list A) :
  omap f (reverse l) ≡ₚ omap f l.
Proof.
  induction l as [|x l IH]; [done|]. rewrite reverse_cons, omap_app. simpl.
  destruct (f x) as [y|]; simpl.
  - by rewrite <-Permutation_cons_append, IH.
  - by rewrite app_nil_r.
Qed.

(** The registries after a replay. *)
Lemma UpdateIndex_registry m log m' r :
  accountOrDistinct (group m) log →
  UpdateIndex ext m log = Some (m', r) →
  registryOf m' =
  foldl (λ reg e,
           registryStep (ownMemberDevice m) (openMetadataEntry ext log e (group m)) reg)
    (registryOf m) (reverse log).
Proof.
  intros Hlog Hup.
  destruct (UpdateIndex_dispatch _ _ _ _ _ Hlog Hup) as (m2&Hl&_&Herase).
  apply eraseAliases_fields in Herase as (Hreg&_).
  apply dispatchList_registry in Hl. by rewrite Hreg, Hl.
Qed.

End Registry.

(** X4. After a replay, the secrets count as sent to a member exactly when
    they did before the replay, which does not clear the set, or when the
    log holds a chain-key event with keys of the expected size, from the own
    device, for that member.  On an index without an own binding the replay
    adds nothing. *)
Theorem secrets_sent_after_update ext m log m' r pk :
  accountOrDistinct (group m) log →
  UpdateIndex ext m log = Some (m', r) →
  areSecretsAlreadySent m' pk =
  areSecretsAlreadySent m pk
  || match ownMemberDevice m with
     | Some own => existsb (secretSentTo ext log (group m) own pk) log
     | None => false
     end.
Proof.
  intros Hlog Hup. pose proof (UpdateIndex_registry _ _ _ _ _ Hlog Hup) as Hreg.
  apply (f_equal snd) in Hreg. simpl in Hreg.
  apply eq_true_iff_eq. unfold areSecretsAlreadySent.
  rewrite orb_true_iff, !bool_decide_eq_true, Hreg, fold_registryStep_sent. simpl.
  destruct (ownMemberDevice m) as [own|]; [|done].
  by rewrite existsb_reverse.
Qed.

Lemma secrets_sent_after_update_witness :
  UpdateIndex (demoExternals groupTable)
    (newMetadataIndex multiMemberGroupDemo (Some ownBindingDemo)) groupLog
  = Some (afterGroupLog, None) ∧
  areSecretsAlreadySent afterGroupLog keyC = true ∧
  areSecretsAlreadySent afterGroupLog keyA = false.
Proof.
  assert (UpdateIndex (demoExternals groupTable)
            (newMetadataIndex multiMemberGroupDemo (Some ownBindingDemo)) groupLog
          = Some (afterGroupLog, None)) as Hup by (vm_compute; reflexivity).
  assert (accountOrDistinct
            (group (newMetadataIndex multiMemberGroupDemo (Some ownBindingDemo)))
            groupLog) as Hlog.
  { right. apply (bool_decide_unpack (NoDup (entryHash <$> groupLog))).
    vm_compute. exact I. }
  split; [exact Hup|].
  rewrite !(secrets_sent_after_update (demoExternals groupTable)
              (newMetadataIndex multiMemberGroupDemo (Some ownBindingDemo)) groupLog
              afterGroupLog None _ Hlog Hup).
  split; vm_compute; reflexivity.
Defined.

(** X5. After a replay, [listAdmins] names the administrators the index had
    before the replay, which does not clear them, and one more for every
    entry of the log that announces an initial member with a key of the
    expected size: a member announced by several entries, or already listed
    before the replay, is named once for each.  (The order of the listing is
    that of the map and is left open.) *)
Theorem admins_after_update ext m log m' r :
  accountOrDistinct (group m) log →
  UpdateIndex ext m log = Some (m', r) →
  listAdmins m' ≡ₚ listAdmins m ++ omap (announcedAdmin ext log (group m)) log.
Proof.
  intros Hlog Hup. pose proof (UpdateIndex_registry _ _ _ _ _ Hlog Hup) as Hreg.
  apply (f_equal (λ x, x.1.2)) in Hreg. simpl in Hreg.
  unfold listAdmins. rewrite Hreg, fold_registryStep_admins. simpl.
  by rewrite omap_reverse_Permutation.
Qed.

Lemma admins_after_update_witness :
  UpdateIndex (demoExternals groupTable) afterGroupLog groupLog
  = Some (afterGroupLogTwice, None) ∧
  listAdmins afterGroupLogTwice ≡ₚ
  listAdmins afterGroupLog
  ++ omap (announcedAdmin (demoExternals groupTable) groupLog (group afterGroupLog))
       groupLog ∧
  listAdmins afterGroupLog = [keyA; keyA] ∧
  omap (announcedAdmin (demoExternals groupTable) groupLog (group afterGroupLog))
    groupLog = [keyA; keyA] ∧
  length (listAdmins afterGroupLogTwice) = 4.
Proof.
  assert (UpdateIndex (demoExternals groupTable) afterGroupLog groupLog
          = Some (afterGroupLogTwice, None)) as Hup by (vm_compute; reflexivity).
  assert (accountOrDistinct (group afterGroupLog) groupLog) as Hlog.
  { right. apply (bool_decide_unpack (NoDup (entryHash <$> groupLog))).
    vm_compute. exact I. }
  split; [exact Hup|].
  split; [|split_and!; vm_compute; reflexivity].
  exact (admins_after_update (demoExternals groupTable) afterGroupLog groupLog
           afterGroupLogTwice None Hlog Hup).
Defined.

(** ** The service tokens *)

Section Tokens.
Context (ext : Externals).

Lemma dispatchList_tokens log es : ∀ m m',
  dispatchList ext log es m = Some m' →
  serviceTokens m' =
  foldl (λ st e, tokensStep ext (openMetadataEntry ext log e (group m)) st)
    (serviceTokens m) es.
Proof.
  induction es as [|e es IH]; intros m m' Hl; simpl in Hl; [by simplify_eq|].
  destruct (dispatchEntry ext log m e) as [m1|] eqn:H1; [|done]. simpl in Hl.
  rewrite (IH _ _ Hl). simpl. rewrite (dispatchEntry_serviceTokens _ _ _ _ _ H1).
  apply dispatchEntry_fixed in H1 as (Hg&_). by rewrite Hg.
Qed.

Lemma tokensStep_lookup log g e st id :
  tokensStep ext (openMetadataEntry ext log e g) st !! id =
  if tokenRemovedBy ext log g id e then Some None
  else match st !! id with
       | Some v => Some v
       | None => tokenAddedFor ext log g id e
       end.
Proof.
  unfold tokensStep, tokenRemovedBy, tokenAddedFor.
  destruct (openMetadataEntry ext log e g) as [[ty ev]|]; [|by destruct (st !! id)].
  destruct ty; try (by destruct (st !! id)); destruct ev; try (by destruct (st !! id)).
  - lazymatch goal with
    | |- context [TokenID ext ?tok] => destruct (TokenID ext tok) as [id'|] eqn:Hid
    end.
    + case_decide as Heq.
      * simplify_eq. destruct (st !! id) eqn:Hst; [done|]. by rewrite lookup_insert_eq.
      * assert (id' ≠ id) by congruence.
        destruct (st !! id') eqn:Hst'; rewrite ?lookup_insert_ne by done;
          by destruct (st !! id).
    + case_decide; [done|]. by destruct (st !! id).
  - case_bool_decide.
    + subst. by rewrite lookup_insert_eq.
    + rewrite lookup_insert_ne by done. by destruct (st !! id).
Qed.

Lemma fold_tokensStep log g es id : ∀ st,
  foldl (λ st e, tokensStep ext (openMetadataEntry ext log e g) st) st es !! id =
  if existsb (tokenRemovedBy ext log g id) es then Some None
  else match st !! id with
       | Some v => Some v
       | None => head (omap (tokenAddedFor ext log g id) es)
       end.
Proof.
  induction es as [|e es IH]; intros st; simpl; [by destruct (st !! id)|].
  rewrite IH, tokensStep_lookup.
  destruct (tokenRemovedBy ext log g id e); simpl.
  - by destruct (existsb _ es).
  - destruct (existsb _ es); [done|].
    destruct (st !! id); [done|]. by destruct (tokenAddedFor ext log g id e).
Qed.

End Tokens.

(** X6. After a replay, the registry holds a token id exactly when the log
    has an event for it: a tombstone as soon as some event of the log removes
    the id, whatever the order of the entries, and otherwise the token of
    the newest event that adds the id.  [listServiceTokens] gives the tokens
    of the ids that no event removes. *)
Theorem service_token_lookup ext m log m' r :
  accountOrDistinct (group m) log →
  UpdateIndex ext m log = Some (m', r) →
  (∀ id, serviceTokens m' !! id =
         if existsb (tokenRemovedBy ext log (group m) id) log then Some None
         else newest (tokenAddedFor ext log (group m) id) log) ∧
  (∀ t, t ∈ listServiceTokens m' ↔
        ∃ id, existsb (tokenRemovedBy ext log (group m) id) log = false ∧
              newest (tokenAddedFor ext log (group m) id) log = Some (Some t)).
Proof.
  intros Hlog Hup.
  destruct (UpdateIndex_dispatch _ _ _ _ _ Hlog Hup) as (m2&Hl&_&Herase).
  apply eraseAliases_fields in Herase as (_&_&_&_&_&Hst&_).
  apply dispatchList_tokens in Hl.
  assert (∀ id, serviceTokens m' !! id =
                if existsb (tokenRemovedBy ext log (group m) id) log then Some None
                else newest (tokenAddedFor ext log (group m) id) log) as Hlook.
  { intros id. rewrite Hst, Hl, fold_tokensStep, existsb_reverse. simpl.
    by rewrite lookup_empty. }
  split; [done|]. intros t. rewrite elem_of_listServiceTokens.
  split.
  - intros [id Hid]. exists id. rewrite Hlook in Hid.
    by destruct (existsb _ log).
  - intros (id&Hno&Hnew). exists id. by rewrite Hlook, Hno.
Qed.

Lemma service_token_lookup_witness :
  UpdateIndex (demoExternals tokenTable) (newMetadataIndex accountGroupDemo None) tokenLog
  = Some (afterTokenLog, None) ∧
  serviceTokens afterTokenLog !! "T1"%string = Some None ∧
  serviceTokens afterTokenLog !! "T2"%string
  = Some (Some {| Token := "T2"; AuthenticationURL := "https://two" |}) ∧
  serviceTokens afterTokenLog !! "T3"%string = None.
Proof.
  assert (UpdateIndex (demoExternals tokenTable)
            (newMetadataIndex accountGroupDemo None) tokenLog
          = Some (afterTokenLog, None)) as Hup by (vm_compute; reflexivity).
  split; [exact Hup|].
  destruct (service_token_lookup (demoExternals tokenTable)
              (newMetadataIndex accountGroupDemo None) tokenLog afterTokenLog None
              (or_introl eq_refl) Hup) as [Hlook _].
  rewrite !Hlook. split_and!; vm_compute; reflexivity.
Defined.

(** ** The member and device queries *)

Lemma registryInv_ext m1 m2 :
  members m2 = members m1 → devices m2 = devices m1 → registryInv m1 → registryInv m2.
Proof. intros Hm Hd. unfold registryInv. by rewrite Hm, Hd. Qed.

Lemma keysSized_new g md : keysSized (newMetadataIndex g md).
Proof. intros d b. simpl. by rewrite lookup_empty. Qed.

(** An entry leaves the member and device maps as they are, or registers
    one new device with keys of the expected size. *)
Lemma registryStep_members own d mem dev adm sent :
  ((registryStep own d (mem, dev, adm, sent)).1.1.1 = mem ∧
   (registryStep own d (mem, dev, adm, sent)).1.1.2 = dev) ∨
  ∃ mp dp,
    blen mp = KeySize ∧ blen dp = KeySize ∧ dev !! str dp = None ∧
    (registryStep own d (mem, dev, adm, sent)).1.1.1
    = <[str mp := default [] (mem !! str mp) ++ [NewMemberDevice (str mp) (str dp)]]> mem ∧
    (registryStep own d (mem, dev, adm, sent)).1.1.2
    = <[str dp := NewMemberDevice (str mp) (str dp)]> dev.
Proof.
  unfold registryStep. destruct d as [[ty ev]|]; [|by left].
  destruct ty; try (by left); destruct ev; try (by left); simpl.
  all: repeat (case_bool_decide; simpl); repeat case_match; try (by left).
  right. eauto 10.
Qed.

Lemma registryStep_inv m m' own d :
  registryOf m' = registryStep own d (registryOf m) →
  registryInv m → keysSized m → registryInv m' ∧ keysSized m'.
Proof.
  intros Hreg Hinv Hsz. unfold registryOf in Hreg.
  destruct (registryStep_members own d (members m) (devices m) (admins m)
              (sentSecrets m)) as [[Hm Hd]|(mp&dp&Hmp&Hdp&Hfresh&Hm&Hd)];
    rewrite <-Hreg in Hm, Hd; simpl in Hm, Hd.
  - split; [by eapply registryInv_ext|]. intros k b. rewrite Hd. apply Hsz.
  - split.
    + assert (∃ m1, handleGroupMemberDeviceAdded m (MsgGroupMemberDeviceAdded mp dp)
                    = Some (m1, None) ∧
                    members m1 = members m' ∧ devices m1 = devices m')
        as (m1&Hh&Hm1&Hd1).
      { unfold handleGroupMemberDeviceAdded.
        rewrite !UnmarshalEd25519PublicKey_eq, !bool_decide_eq_true_2 by done.
        rewrite Hfresh. eexists. split; [reflexivity|]. simpl. by rewrite Hm, Hd. }
      apply (registryInv_ext m1); [done|done|].
      by eapply handleGroupMemberDeviceAdded_inv.
    + intros k b. rewrite Hd. destruct (decide (str dp = k)) as [<-|].
      * intros _. exact Hdp.
      * rewrite lookup_insert_ne by done. apply Hsz.
Qed.

Section RegistryReplay.
Context (ext : Externals).

Lemma replayList_registryInv log es : ∀ m m',
  replayList ext log es m = Some m' →
  registryInv m → keysSized m → registryInv m' ∧ keysSized m'.
Proof.
  induction es as [|e es IH]; intros m m' Hl Hinv Hsz; simpl in Hl; [by simplify_eq|].
  destruct (replayEntry ext log m e) as [m1|] eqn:H1; [|done]. simpl in Hl.
  assert (registryInv m1 ∧ keysSized m1) as [Hinv1 Hsz1]; [|by eapply IH].
  unfold replayEntry in H1. case_match; [by simplify_eq|].
  eapply registryStep_inv; [|done|done]. by eapply dispatchEntry_registry.
Qed.

Lemma UpdateIndex_registryInv m log m' r :
  registryInv m → keysSized m →
  UpdateIndex ext m log = Some (m', r) →
  registryInv m' ∧ keysSized m'.
Proof.
  intros Hinv Hsz Hup. destruct (UpdateIndex_inv _ _ _ _ _ Hup) as (m2&Hl&_&Herase).
  apply eraseAliases_fields in Herase as (Hreg&_).
  apply replayList_registryInv in Hl as [Hinv2 Hsz2]; [|done|done].
  unfold registryOf in Hreg. injection Hreg as Hm Hd _ _. split.
  - by apply (registryInv_ext m2).
  - intros d b. rewrite Hd. apply Hsz2.
Qed.

End RegistryReplay.

Lemma getMemberByDevice_Ok m d k :
  keysSized m →
  getMemberByDevice m d = Ok k ↔ ∃ b, devices m !! d = Some b ∧ Member b = k.
Proof.
  intros Hsz. unfold getMemberByDevice, unsafeGetMemberByDevice, blen. simpl.
  case_decide as Hlen.
  - split; [done|]. intros (b&Hb&_). by apply Hsz in Hb.
  - destruct (devices m !! d) as [b|]; [|naive_solver].
    split; [intros [= <-]; eauto|]. by intros (b'&[= <-]&<-).
Qed.

Lemma getDevicesForMember_Ok m k ds :
  getDevicesForMember m k = Ok ds ↔ ∃ l, members m !! k = Some l ∧ ds = Device <$> l.
Proof.
  unfold getDevicesForMember. destruct (members m !! k) as [l|]; [|naive_solver].
  split; [intros [= <-]; eauto|]. by intros (l'&[= <-]&->).
Qed.

Lemma afterGroupLog_inv : registryInv afterGroupLog ∧ keysSized afterGroupLog.
Proof.
  apply (UpdateIndex_registryInv (demoExternals groupTable)
           (newMetadataIndex multiMemberGroupDemo (Some ownBindingDemo)) groupLog
           afterGroupLog None).
  - apply registryInv_new.
  - apply keysSized_new.
  - vm_compute. reflexivity.
Qed.

(** X7. Replays keep the member and device registries consistent.  After
    any number of calls of [UpdateIndex] on a new index, with any logs and
    whatever errors the calls return: every binding of a member's list
    carries that member and is registered under its device key, every
    registered device is in the list of its member, no list is empty or names
    a device twice, and every device key has the size of a key. *)
Theorem registry_consistent_after_replays ext g md logs m' :
  updateAll ext (newMetadataIndex g md) logs = Some m' →
  registryInv m' ∧ keysSized m'.
Proof.
  pose proof (registryInv_new g md) as Hinv. pose proof (keysSized_new g md) as Hsz.
  revert Hinv Hsz. generalize (newMetadataIndex g md) as m.
  induction logs as [|log logs IH]; intros m Hinv Hsz Hall; simpl in Hall.
  - by simplify_eq.
  - destruct (UpdateIndex ext m log) as [[m1 r]|] eqn:Hup; [|done].
    destruct (UpdateIndex_registryInv _ _ _ _ _ Hinv Hsz Hup). by eapply IH.
Qed.

Lemma registry_consistent_after_replays_witness :
  updateAll (demoExternals groupTable)
    (newMetadataIndex multiMemberGroupDemo (Some ownBindingDemo)) [groupLog; groupLog]
  = Some afterGroupLogTwice ∧
  registryInv afterGroupLogTwice ∧ keysSized afterGroupLogTwice.
Proof.
  assert (updateAll (demoExternals groupTable)
            (newMetadataIndex multiMemberGroupDemo (Some ownBindingDemo))
            [groupLog; groupLog]
          = Some afterGroupLogTwice) as Hall by (vm_compute; reflexivity).
  split; [exact Hall|].
  exact (registry_consistent_after_replays (demoExternals groupTable)
           multiMemberGroupDemo (Some ownBindingDemo) [groupLog; groupLog]
           afterGroupLogTwice Hall).
Defined.

(** X8. On consistent registries the two lookups are inverse to each other:
    [getMemberByDevice] gives the member [k] for the device [d] exactly when
    [getDevicesForMember] lists [d] for [k].  The list of a known member is
    never empty and names no device twice, and a device of the expected key
    size that no member lists is reported as missing input. *)
Theorem member_device_queries_agree m :
  registryInv m → keysSized m →
  (∀ d k, getMemberByDevice m d = Ok k ↔
          ∃ ds, getDevicesForMember m k = Ok ds ∧ d ∈ ds) ∧
  (∀ k ds, getDevicesForMember m k = Ok ds → ds ≠ [] ∧ NoDup ds) ∧
  (∀ d, String.length d = KeySize →
        (∀ k ds, getDevicesForMember m k = Ok ds → d ∉ ds) →
        getMemberByDevice m d = Error ErrMissingInput).
Proof.
  intros (Hmem&Hreg&Hdev&Hnd) Hsz.
  assert (∀ d k, getMemberByDevice m d = Ok k ↔
                 ∃ ds, getDevicesForMember m k = Ok ds ∧ d ∈ ds) as Hagree.
  { intros d k. rewrite getMemberByDevice_Ok by done. split.
    - intros (b&Hb&<-). destruct (Hdev _ _ Hb) as [<- (l&Hl&Hin)].
      exists (Device <$> l). split; [|by apply list_elem_of_fmap_2].
      apply getDevicesForMember_Ok. eauto.
    - intros (ds&(l&Hl&->)%getDevicesForMember_Ok&(b&->&Hin)%list_elem_of_fmap).
      exists b. split; [by eapply Hreg|by eapply Hmem]. }
  split_and!; [done| |].
  - intros k ds (l&Hl&->)%getDevicesForMember_Ok. destruct (Hnd _ _ Hl) as [? Hne].
    split; [|done]. by destruct l.
  - intros d Hlen Hnone. unfold getMemberByDevice, unsafeGetMemberByDevice, blen.
    simpl. case_decide; [done|].
    destruct (devices m !! d) as [b|] eqn:Hb; [|done]. exfalso.
    destruct (proj1 (Hagree d (Member b))) as (ds&Hds&Hin).
    { apply getMemberByDevice_Ok; eauto. }
    by eapply Hnone.
Qed.

Lemma member_device_queries_agree_witness :
  getMemberByDevice afterGroupLog keyD = Ok keyC ∧
  (∃ ds, getDevicesForMember afterGroupLog keyC = Ok ds ∧ keyD ∈ ds).
Proof.
  assert (getMemberByDevice afterGroupLog keyD = Ok keyC) as Hq
    by (vm_compute; reflexivity).
  split; [exact Hq|].
  exact (proj1 (proj1 (member_device_queries_agree afterGroupLog
                         (proj1 afterGroupLog_inv) (proj2 afterGroupLog_inv))
                  keyD keyC) Hq).
Defined.

(** X9. On consistent registries there are at most as many members as
    devices, and [listDevices] has one key for every registered device. *)
Theorem member_count_le_device_count m :
  registryInv m →
  MemberCount m ≤ DeviceCount m ∧ length (listDevices m) = DeviceCount m.
Proof.
  intros (Hmem&Hreg&Hdev&Hnd). unfold MemberCount, DeviceCount, listDevices.
  rewrite length_fmap, length_map_to_list. split; [|done].
  rewrite <-!length_map_to_list.
  set (f := λ kv : string * list MemberDevice,
              from_option Device ""%string (head kv.2)).
  rewrite <-(length_fmap f (map_to_list (members m))).
  rewrite <-(length_fmap fst (map_to_list (devices m))).
  apply submseteq_length, NoDup_submseteq.
  - apply NoDup_fmap_2_strong; [|apply NoDup_map_to_list].
    intros [k1 l1] [k2 l2] H1%elem_of_map_to_list H2%elem_of_map_to_list Hf.
    unfold f in Hf. simpl in Hf.
    destruct (Hnd _ _ H1) as [_ Hne1], (Hnd _ _ H2) as [_ Hne2].
    destruct l1 as [|b1 l1]; [done|]. destruct l2 as [|b2 l2]; [done|]. simpl in Hf.
    assert (b1 ∈ b1 :: l1) as Hin1 by set_solver.
    assert (b2 ∈ b2 :: l2) as Hin2 by set_solver.
    pose proof (Hreg _ _ _ H1 Hin1) as Hb1. pose proof (Hreg _ _ _ H2 Hin2) as Hb2.
    rewrite Hf, Hb2 in Hb1. simplify_eq.
    pose proof (Hmem _ _ _ H1 Hin1). pose proof (Hmem _ _ _ H2 Hin2). simplify_eq.
    done.
  - intros d ([k l]&->&Hin%elem_of_map_to_list)%list_elem_of_fmap.
    destruct (Hnd _ _ Hin) as [_ Hne]. destruct l as [|b l]; [done|].
    unfold f. simpl. apply list_elem_of_fmap. exists (Device b, b). split; [done|].
    apply elem_of_map_to_list. eapply Hreg; [done|set_solver].
Qed.

Lemma member_count_le_device_count_witness :
  MemberCount afterGroupLog ≤ DeviceCount afterGroupLog ∧
  length (listDevices afterGroupLog) = DeviceCount afterGroupLog.
Proof.
  exact (member_count_le_device_count afterGroupLog (proj1 afterGroupLog_inv)).
Defined.

(** X10. [listMembers] faults exactly when some member key holds an empty
    device list, since it reads the first binding of every list. *)
Theorem listMembers_fault m :
  listMembers m = None ↔ ∃ k, members m !! k = Some [].
Proof.
  unfold listMembers. rewrite mapM_None, Exists_exists. split.
  - intros ([k l]&Hin%elem_of_map_to_list&Hnone). simpl in Hnone.
    exists k. by destruct l.
  - intros (k&Hk). exists (k, []). split; [by apply elem_of_map_to_list|done].
Qed.

(** X11. On consistent registries [listMembers] does not fault and gives the
    member keys of the registry, each once: the member read off the first
    binding of a list is the key of the list. *)
Theorem listMembers_keys m :
  registryInv m →
  ∃ ks, listMembers m = Some ks ∧ NoDup ks ∧ length ks = MemberCount m ∧
        ∀ k, k ∈ ks ↔ ∃ ds, getDevicesForMember m k = Ok ds.
Proof.
  intros (Hmem&_&_&Hnd). exists (map_to_list (members m)).*1.
  split_and!.
  - unfold listMembers. apply mapM_Some, Forall2_fmap_r, Forall_Forall2_diag.
    apply Forall_forall. intros [k l] Hin%elem_of_map_to_list. simpl.
    destruct (Hnd _ _ Hin) as [_ Hne]. destruct l as [|b l]; [done|]. simpl.
    f_equal. eapply Hmem; [done|set_solver].
  - apply NoDup_fst_map_to_list.
  - unfold MemberCount. by rewrite length_fmap, length_map_to_list.
  - intros k. rewrite list_elem_of_fmap. split.
    + intros ([k' l]&->&Hin%elem_of_map_to_list). exists (Device <$> l).
      apply getDevicesForMember_Ok. eauto.
    + intros (ds&(l&Hl&_)%getDevicesForMember_Ok). exists (k, l).
      split; [done|]. by apply elem_of_map_to_list.
Qed.

Lemma listMembers_keys_witness :
  ∃ ks, listMembers afterGroupLog = Some ks ∧ NoDup ks ∧
        length ks = MemberCount afterGroupLog ∧
        ∀ k, k ∈ ks ↔ ∃ ds, getDevicesForMember afterGroupLog k = Ok ds.
Proof.
  exact (listMembers_keys afterGroupLog (proj1 afterGroupLog_inv)).
Defined.

(** X12. On consistent registries [listDevices] gives the registered device
    keys, each once: exactly the devices [getMemberByDevice] knows. *)
Theorem listDevices_keys m :
  registryInv m → keysSized m →
  NoDup (listDevices m) ∧
  ∀ d, d ∈ listDevices m ↔ ∃ k, getMemberByDevice m d = Ok k.
Proof.
  intros (_&_&Hdev&_) Hsz.
  assert (listDevices m = (map_to_list (devices m)).*1) as ->.
  { unfold listDevices. apply Forall_fmap_ext, Forall_forall.
    intros [d b] Hin%elem_of_map_to_list. simpl. by destruct (Hdev _ _ Hin). }
  split; [apply NoDup_fst_map_to_list|]. intros d. rewrite list_elem_of_fmap. split.
  - intros ([d' b]&->&Hin%elem_of_map_to_list). exists (Member b).
    apply getMemberByDevice_Ok; eauto.
  - intros (k&(b&Hb&_)%getMemberByDevice_Ok); [|done]. exists (d, b).
    split; [done|]. by apply elem_of_map_to_list.
Qed.

Lemma listDevices_keys_witness :
  NoDup (listDevices afterGroupLog) ∧
  ∀ d, d ∈ listDevices afterGroupLog ↔ ∃ k, getMemberByDevice afterGroupLog d = Ok k.
Proof.
  exact (listDevices_keys afterGroupLog (proj1 afterGroupLog_inv)
           (proj2 afterGroupLog_inv)).
Defined.

(** X13. On consistent registries [listOtherMembersDevices] gives the
    devices whose member is not the own member, and only those; without an
    own binding it gives nothing. *)
Theorem other_members_devices m :
  registryInv m → keysSized m →
  (∀ own, ownMemberDevice m = Some own →
          ∀ d, d ∈ listOtherMembersDevices m ↔
               ∃ k, getMemberByDevice m d = Ok k ∧ k ≠ Member own) ∧
  (ownMemberDevice m = None → listOtherMembersDevices m = []).
Proof.
  intros (Hmem&Hreg&Hdev&Hnd) Hsz. split; [|by intros Ho; unfold listOtherMembersDevices; rewrite Ho].
  intros own Ho d. unfold listOtherMembersDevices. rewrite Ho. simpl.
  rewrite list_elem_of_join. split.
  - intros (l'&Hd&([k l]&->&Hin%elem_of_map_to_list)%list_elem_of_fmap).
    simpl in Hd. case_decide as Hk; [by apply elem_of_nil in Hd|].
    apply list_elem_of_fmap in Hd as (b&->&Hb). exists k. split; [|done].
    apply getMemberByDevice_Ok; [done|]. exists b. split; [by eapply Hreg|by eapply Hmem].
  - intros (k&(b&Hb&<-)%getMemberByDevice_Ok&Hne); [|done].
    destruct (Hdev _ _ Hb) as [<- (l&Hl&Hin)].
    exists (Device <$> l). split; [by apply list_elem_of_fmap_2|].
    apply list_elem_of_fmap. exists (Member b, l). split.
    + simpl. by rewrite decide_False by done.
    + by apply elem_of_map_to_list.
Qed.

Lemma other_members_devices_witness :
  keyD ∈ listOtherMembersDevices afterGroupLog ∧
  keyB ∉ listOtherMembersDevices afterGroupLog.
Proof.
  destruct (other_members_devices afterGroupLog (proj1 afterGroupLog_inv)
              (proj2 afterGroupLog_inv)) as [Hother _].
  pose proof (Hother ownBindingDemo eq_refl) as Hiff. split.
  - apply Hiff. exists keyC. split; [vm_compute; reflexivity|done].
  - intros (k&Hk&Hne)%Hiff. vm_compute in Hk. apply Hne. by injection Hk as <-.
Defined.

(** ** The roster records *)

Section RosterRecords.
Context (ext : Externals).

Lemma dispatchEntry_roster log m e m' k :
  dispatchEntry ext log m e = Some m' →
  groups m' !! k =
    match groups m !! k with
    | Some g => Some g
    | None => groupRecordFor ext log (group m) k e
    end.
Proof.
  intros Hd. pose proof (dispatchEntry_agreeOutside _ _ _ _ _ Hd) as (_&_&Hfr&_).
  unfold groupRecordFor, dispatchEntry in *.
  destruct (openMetadataEntry ext log e (group m)) as [[ty ev]|]; simpl;
    [|rewrite Hfr by done; by destruct (groups m !! k)].
  destruct (decide (domainOf ty = Roster)) as [Hty|Hty].
  - destruct ty; try done; clear Hfr; destruct ev; handler_inv Hd;
      try (by destruct (groups m !! k)).
    all: try done.
    all: by simplify_map_eq.
  - rewrite Hfr by done. destruct ty; try done; by destruct (groups m !! k).
Qed.

Lemma dispatchList_roster log es : ∀ m m' k,
  dispatchList ext log es m = Some m' →
  groups m' !! k =
    match groups m !! k with
    | Some g => Some g
    | None => head (omap (groupRecordFor ext log (group m) k) es)
    end.
Proof.
  induction es as [|e es IH]; intros m m' k Hl; simpl in Hl.
  - simplify_eq. by destruct (groups _ !! k).
  - destruct (dispatchEntry ext log m e) as [m1|] eqn:H1; [|done]. simpl in Hl.
    rewrite (IH _ _ k Hl), (dispatchEntry_roster _ _ _ _ k H1).
    apply dispatchEntry_fixed in H1 as (->&_). simpl.
    destruct (groups m !! k) as [g|]; [done|].
    by destruct (groupRecordFor ext log (group m) k e).
Qed.

Lemma groupRecordFor_wf log g k e rec :
  groupRecordFor ext log g k e = Some rec →
  match ag_state rec with
  | accountGroupJoinedStateJoined => ∃ gr, ag_group rec = Some gr ∧ str (PublicKey gr) = k
  | accountGroupJoinedStateLeft => ag_group rec = None
  end.
Proof.
  unfold groupRecordFor. intros Hrec.
  repeat case_match; simplify_eq; simpl; eauto.
Qed.

Lemma replayList_rosterWf log es : ∀ m m',
  replayList ext log es m = Some m' → rosterWf m → rosterWf m'.
Proof.
  induction es as [|e es IH]; intros m m' Hl Hwf; simpl in Hl; [by simplify_eq|].
  destruct (replayEntry ext log m e) as [m1|] eqn:H1; [|done]. simpl in Hl.
  apply (IH _ _ Hl). unfold replayEntry in H1. case_match; [by simplify_eq|].
  intros k g. rewrite (dispatchEntry_roster _ _ _ _ k H1).
  destruct (groups m !! k) as [g0|] eqn:Hk.
  - intros [= <-]. by eapply Hwf.
  - apply groupRecordFor_wf.
Qed.

End RosterRecords.

(** X14. After a replay, every roster record is well formed: a record in
    state Joined holds the group of a join event, stored under the key of
    that group, and a record in state Left holds no group.  When the entries
    are told apart by their hash, or the group is an Account group, the
    record of a group key is the one of the newest join or leave event for
    that key. *)
Theorem roster_record_newest ext m log m' r :
  UpdateIndex ext m log = Some (m', r) →
  rosterWf m' ∧
  (accountOrDistinct (group m) log →
   ∀ groupPK, groups m' !! groupPK = newest (groupRecordFor ext log (group m) groupPK) log).
Proof.
  intros Hup. split.
  - destruct (UpdateIndex_inv _ _ _ _ _ Hup) as (m2&Hl&_&Herase).
    apply (f_equal groups) in Herase. simpl in Herase.
    apply replayList_rosterWf in Hl.
    + unfold rosterWf. by rewrite Herase.
    + intros k g. simpl. by rewrite lookup_empty.
  - intros Hlog k.
    destruct (UpdateIndex_dispatch _ _ _ _ _ Hlog Hup) as (m2&Hl&_&Herase).
    apply (f_equal groups) in Herase. simpl in Herase.
    rewrite Herase, (dispatchList_roster _ _ _ _ _ k Hl). simpl.
    by rewrite lookup_empty.
Qed.

Lemma roster_record_newest_witness :
  UpdateIndex (demoExternals rosterTable) (newMetadataIndex accountGroupDemo None)
    rosterLog = Some (afterRosterLog, None) ∧
  rosterWf afterRosterLog ∧
  groups afterRosterLog !! keyC
  = Some {| ag_state := accountGroupJoinedStateLeft; ag_group := None |}.
Proof.
  assert (UpdateIndex (demoExternals rosterTable)
            (newMetadataIndex accountGroupDemo None) rosterLog
          = Some (afterRosterLog, None)) as Hup by (vm_compute; reflexivity).
  split; [exact Hup|].
  destruct (roster_record_newest (demoExternals rosterTable)
              (newMetadataIndex accountGroupDemo None) rosterLog afterRosterLog None
              Hup) as [Hwf Hnew].
  split; [exact Hwf|]. rewrite (Hnew (or_introl eq_refl)). vm_compute. reflexivity.
Defined.

(** ** The trace of a replay *)

Section Trace.
Context (ext : Externals).

Lemma eventHandlers_singleton ty hs :
  eventHandlers ext ty = Some hs → ∃ h, hs = [h].
Proof. destruct ty; intros; simplify_eq/=; eauto. Qed.

Lemma handler_keeps_logged ty h m ev m1 r :
  eventHandlers ext ty = Some [h] → h m ev = Some (m1, r) → logged m1 = logged m.
Proof.
  intros Hty Hh. apply eventHandlers_keep_fixedPart in Hty.
  pose proof (Forall_inv Hty _ _ _ _ Hh) as Hk. unfold fixedPart in Hk.
  by simplify_eq.
Qed.

Lemma dispatchEntry_logged log m e m' :
  dispatchEntry ext log m e = Some m' →
  ∃ δ, logged m' = logged m ++ δ ∧ length δ ≤ 1 ∧
       loopReports δ = option_list (reportFor ext log (group m) e).
Proof.
  intros Hd. unfold reportFor.
  destruct (openMetadataEntry ext log e (group m)) as [[ty ev]|] eqn:Hdec.
  - destruct (eventHandlers ext ty) as [hs|] eqn:Hty.
    + destruct (eventHandlers_singleton _ _ Hty) as [h ->].
      destruct (dispatchEntry_single _ _ _ _ _ _ _ _ Hdec Hty Hd) as (m1&r&Hh&->).
      pose proof (handler_keeps_logged _ _ _ _ _ _ Hty Hh) as Hlog.
      destruct r as [err|]; simpl; rewrite Hlog.
      * exists [UnableToHandleEvent err]. split_and!; [done|simpl; lia|done].
      * exists []. split_and!; [by rewrite app_nil_r|simpl; lia|done].
    + unfold dispatchEntry in Hd. rewrite Hdec, Hty in Hd. simplify_eq.
      exists [HandlerForEventTypeNotFound ty]. split_and!; [done|simpl; lia|done].
  - unfold dispatchEntry in Hd. rewrite Hdec in Hd. simplify_eq.
    exists [UnableToOpenMetadataEntry]. split_and!; [done|simpl; lia|done].
Qed.

Lemma loopReports_app δ1 δ2 : loopReports (δ1 ++ δ2) = loopReports δ1 ++ loopReports δ2.
Proof. apply List.filter_app. Qed.

Lemma dispatchList_logged log es : ∀ m m',
  dispatchList ext log es m = Some m' →
  ∃ δ, logged m' = logged m ++ δ ∧ length δ ≤ length es ∧
       loopReports δ = omap (reportFor ext log (group m)) es.
Proof.
  induction es as [|e es IH]; intros m m' Hl; simpl in Hl.
  - simplify_eq. exists []. by rewrite app_nil_r.
  - destruct (dispatchEntry ext log m e) as [m1|] eqn:H1; [|done]. simpl in Hl.
    destruct (dispatchEntry_logged _ _ _ _ H1) as (δ1&Hδ1&Hlen1&Hrep1).
    destruct (IH _ _ Hl) as (δ&Hδ&Hlen&Hrep).
    apply dispatchEntry_fixed in H1 as (Hg&_). rewrite Hg in Hrep.
    exists (δ1 ++ δ). split_and!.
    + by rewrite Hδ, Hδ1, app_assoc.
    + rewrite length_app. simpl. lia.
    + rewrite loopReports_app, Hrep1, Hrep. simpl.
      by destruct (reportFor ext log (group m) e).
Qed.

Lemma dispatchList_registryGrows log es : ∀ m m',
  dispatchList ext log es m = Some m' → registryGrows m m'.
Proof.
  induction es as [|e es IH]; intros m m' Hl; simpl in Hl.
  - simplify_eq. apply registryGrows_refl.
  - destruct (dispatchEntry ext log m e) as [m1|] eqn:H1; [|done]. simpl in Hl.
    eapply registryGrows_trans; [by eapply dispatchEntry_registryGrows|by eapply IH].
Qed.

End Trace.

(** X15. What the loop of a replay reports: the trace only grows, by at
    most one record for an entry, and the records that do not come from a
    handler are, newest entry first, one "unable to open" for every entry
    that does not decode and one "handler not found" for every entry whose
    event type has no handler. *)
Theorem replay_reports ext m log m' r :
  accountOrDistinct (group m) log →
  UpdateIndex ext m log = Some (m', r) →
  ∃ δ, logged m' = logged m ++ δ ∧ length δ ≤ length log ∧
       loopReports δ = omap (reportFor ext log (group m)) (reverse log).
Proof.
  intros Hlog Hup.
  destruct (UpdateIndex_dispatch _ _ _ _ _ Hlog Hup) as (m2&Hl&_&Herase).
  apply (f_equal logged) in Herase. simpl in Herase.
  destruct (dispatchList_logged _ _ _ _ _ Hl) as (δ&Hδ&Hlen&Hrep).
  exists δ. rewrite length_reverse in Hlen. split_and!; try done.
  by rewrite Herase, Hδ.
Qed.

Lemma replay_reports_witness :
  UpdateIndex (demoExternals groupTable)
    (newMetadataIndex multiMemberGroupDemo (Some ownBindingDemo)) groupLog
  = Some (afterGroupLog, None) ∧
  ∃ δ, logged afterGroupLog = [] ++ δ ∧ length δ ≤ length groupLog ∧
       loopReports δ
       = [UnableToOpenMetadataEntry; HandlerForEventTypeNotFound (EventTypeOther 4242)].
Proof.
  assert (UpdateIndex (demoExternals groupTable)
            (newMetadataIndex multiMemberGroupDemo (Some ownBindingDemo)) groupLog
          = Some (afterGroupLog, None)) as Hup by (vm_compute; reflexivity).
  assert (accountOrDistinct
            (group (newMetadataIndex multiMemberGroupDemo (Some ownBindingDemo)))
            groupLog) as Hlog.
  { right. apply (bool_decide_unpack (NoDup (entryHash <$> groupLog))).
    vm_compute. exact I. }
  split; [exact Hup|].
  destruct (replay_reports (demoExternals groupTable)
              (newMetadataIndex multiMemberGroupDemo (Some ownBindingDemo)) groupLog
              afterGroupLog None Hlog Hup) as (δ&Hδ&Hlen&Hrep).
  exists δ. split_and!; [exact Hδ|exact Hlen|].
  rewrite Hrep. vm_compute. reflexivity.
Defined.

(** X16. An announcement of a member that is already an administrator is
    not turned away.  Its key is unmarshalled into a new key object, which
    the admins map, comparing keys by address, does not hold: the handler
    returns without an error, leaves the trace as it is and adds the member
    once more, so that [listAdmins] names it at least twice. *)
Theorem announcement_of_known_admin m MemberPK :
  blen MemberPK = KeySize →
  str MemberPK ∈ listAdmins m →
  ∃ m', handleMultiMemberInitialMember m
          (MsgMultiMemberGroupInitialMemberAnnounced MemberPK) = Some (m', None) ∧
        listAdmins m' ≡ₚ str MemberPK :: listAdmins m ∧
        ¬ NoDup (listAdmins m') ∧
        logged m' = logged m.
Proof.
  intros Hlen Hadm. unfold handleMultiMemberInitialMember.
  rewrite UnmarshalEd25519PublicKey_eq, bool_decide_eq_true_2 by done.
  rewrite lookupAdmin_fresh. eexists. split; [done|].
  unfold listAdmins in *. simpl. split_and!; [|intros Hnd|done].
  - by rewrite <-Permutation_cons_append.
  - apply NoDup_app in Hnd as (_&Hdisj&_). apply (Hdisj _ Hadm). by left.
Qed.

Lemma announcement_of_known_admin_witness :
  listAdmins afterAnnouncementLog = [keyA] ∧
  ∃ m', handleMultiMemberInitialMember afterAnnouncementLog
          (MsgMultiMemberGroupInitialMemberAnnounced (Some keyA)) = Some (m', None) ∧
        listAdmins m' ≡ₚ str (Some keyA) :: listAdmins afterAnnouncementLog ∧
        ¬ NoDup (listAdmins m') ∧
        logged m' = logged afterAnnouncementLog.
Proof.
  split; [vm_compute; reflexivity|].
  apply (announcement_of_known_admin afterAnnouncementLog (Some keyA)).
  - vm_compute. reflexivity.
  - apply (bool_decide_unpack (str (Some keyA) ∈ listAdmins afterAnnouncementLog)).
    vm_compute. exact I.
Defined.

(** ** The result of [UpdateIndex] *)

Lemma aliasKeyRejected_ext m1 m2 evt :
  devices m1 = devices m2 → ownMemberDevice m1 = ownMemberDevice m2 →
  aliasKeyRejected m1 evt → aliasKeyRejected m2 evt.
Proof.
  intros Hd Ho. unfold aliasKeyRejected.
  destruct (fromOwnMember_ext m1 m2 Hd Ho) as [_ Hother].
  by rewrite (senderMember_ext m1 m2 Hd), Hother.
Qed.

(** The loop of the post-action, when it ends with an error. *)
Lemma sentAliasesLoop_err evts : ∀ m m' err,
  sentAliasesLoop evts m = Some (m', Some err) →
  eventsContactAddAliasKey m' = eventsContactAddAliasKey m ∧
  devices m' = devices m ∧ ownMemberDevice m' = ownMemberDevice m ∧
  ∃ evt, evt ∈ evts ∧ aliasKeyRejected m evt.
Proof.
  induction evts as [|evt evts IH]; intros m m' err Hl; simpl in Hl; [done|].
  destruct (unsafeGetMemberByDevice m (DevicePK evt)) as [pk|e] eqn:Hpk.
  - destruct (ownMemberDevice m) as [own|] eqn:Hown; [|done].
    destruct (Equals pk (Member own)) eqn:Heq.
    + destruct (IH _ _ _ Hl) as (Hq&Hd&Ho&evt'&Hin&Hrej). simpl in *.
      split_and!; try congruence.
      exists evt'. split; [set_solver|]. exact Hrej.
    + case_decide as Hlen.
      * simplify_eq. split_and!; try congruence. exists evt. split; [set_solver|].
        right. split; [|done]. unfold fromOtherMember, fromOwnMember, senderMember.
        by rewrite Hpk, Hown, Heq.
      * destruct (IH _ _ _ Hl) as (Hq&Hd&Ho&evt'&Hin&Hrej). simpl in *.
      split_and!; try congruence.
        exists evt'. split; [set_solver|]. exact Hrej.
  - simplify_eq. split_and!; try congruence. exists evt. split; [set_solver|].
    left. unfold senderMember. by rewrite Hpk.
Qed.

(** X17. Handler errors never reach the caller of [UpdateIndex]: the only
    error it returns is the internal error, and it returns it exactly when
    the post-action stops at a staged alias-key event it cannot process (the
    sender is not a registered device, or the alias key of another member
    has the wrong size).  The staged events are then kept; otherwise they
    are dropped. *)
Theorem update_index_error ext m log m' r :
  UpdateIndex ext m log = Some (m', r) →
  match r with
  | None => eventsContactAddAliasKey m' = []
  | Some err =>
      err = ErrInternal ∧
      ∃ evt, evt ∈ eventsContactAddAliasKey m' ∧ aliasKeyRejected m' evt
  end.
Proof.
  intros Hup. destruct (UpdateIndex_inv _ _ _ _ _ Hup) as (m2&_&Hpost&_).
  unfold postIndexActions, runPostIndexActions, postHandlerSentAliases in Hpost.
  destruct (sentAliasesLoop (eventsContactAddAliasKey m2) m2)
    as [[m3 [err|]]|] eqn:Hloop; simplify_eq; [|done].
  split; [done|].
  apply sentAliasesLoop_err in Hloop as (Hq&Hd&Ho&evt&Hin&Hrej).
  exists evt. rewrite Hq. split; [done|]. by apply (aliasKeyRejected_ext m2).
Qed.

Lemma update_index_error_witness :
  UpdateIndex (demoExternals strangerTable)
    (newMetadataIndex contactGroupDemo (Some ownBindingDemo)) strangerLog
  = Some (afterStrangerLog, Some ErrInternal) ∧
  ∃ evt, evt ∈ eventsContactAddAliasKey afterStrangerLog ∧
         aliasKeyRejected afterStrangerLog evt.
Proof.
  assert (UpdateIndex (demoExternals strangerTable)
            (newMetadataIndex contactGroupDemo (Some ownBindingDemo)) strangerLog
          = Some (afterStrangerLog, Some ErrInternal)) as Hup
    by (vm_compute; reflexivity).
  split; [exact Hup|].
  exact (proj2 (update_index_error (demoExternals strangerTable)
                  (newMetadataIndex contactGroupDemo (Some ownBindingDemo)) strangerLog
                  afterStrangerLog (Some ErrInternal) Hup)).
Defined.

Section Faults.
Context (ext : Externals).

Lemma dispatchList_no_fault log es : ∀ m m',
  dispatchList ext log es m = Some m' →
  ∀ e, e ∈ es →
       entryFaults ext (ownMemberDevice m) (openMetadataEntry ext log e (group m)) = false.
Proof.
  induction es as [|e0 es IH]; intros m m' Hl e Hin; simpl in Hl.
  - by apply elem_of_nil in Hin.
  - destruct (dispatchEntry ext log m e0) as [m1|] eqn:H1; [|done]. simpl in Hl.
    apply elem_of_cons in Hin as [->|Hin]; [by eapply dispatchEntry_no_fault|].
    apply dispatchEntry_fixed in H1 as (Hg&Ho&_). rewrite <-Hg, <-Ho. by eapply IH.
Qed.

End Faults.

(** X18. On an index with an own binding, a replay runs to its end exactly
    when no entry of the log faults in its handler: a join event without a
    group, or a token event whose token has no id.  Entries that do not
    decode, unknown event types and handler errors never stop it. *)
Theorem update_index_faults ext m log own :
  accountOrDistinct (group m) log →
  ownMemberDevice m = Some own →
  is_Some (UpdateIndex ext m log) ↔
  ∀ e, e ∈ log →
       entryFaults ext (Some own) (openMetadataEntry ext log e (group m)) = false.
Proof.
  intros Hlog Hown. split; [|by apply UpdateIndex_returns].
  intros [[m' r] Hup] e Hin.
  destruct (UpdateIndex_dispatch _ _ _ _ _ Hlog Hup) as (m2&Hl&_).
  rewrite <-Hown.
  apply (dispatchList_no_fault ext log (reverse log) (resetState m) m2 Hl).
  by rewrite elem_of_reverse.
Qed.

Lemma update_index_faults_witness :
  is_Some (UpdateIndex (demoExternals groupTable)
             (newMetadataIndex multiMemberGroupDemo (Some ownBindingDemo)) groupLog) ↔
  ∀ e, e ∈ groupLog →
       entryFaults (demoExternals groupTable) (Some ownBindingDemo)
         (openMetadataEntry (demoExternals groupTable) groupLog e multiMemberGroupDemo)
       = false.
Proof.
  apply (update_index_faults (demoExternals groupTable)
           (newMetadataIndex multiMemberGroupDemo (Some ownBindingDemo)) groupLog
           ownBindingDemo).
  - right. apply (bool_decide_unpack (NoDup (entryHash <$> groupLog))).
    vm_compute. exact I.
  - reflexivity.
Defined.

(** ** The contacts after a replay *)

Section ContactDetails.
Context (ext : Externals).

Lemma replayList_contactsWf log es : ∀ m m',
  replayList ext log es m = Some m' → contactsWf m → contactsWf m'.
Proof.
  induction es as [|e es IH]; intros m m' Hl Hwf; simpl in Hl; [by simplify_eq|].
  destruct (replayEntry ext log m e) as [m1|] eqn:H1; [|done]. simpl in Hl.
  apply (IH _ _ Hl). unfold replayEntry in H1. case_match; [by simplify_eq|].
  by destruct (dispatchEntry_contacts _ _ _ _ _ Hwf H1).
Qed.

Lemma UpdateIndex_contactsWf m log m' r :
  UpdateIndex ext m log = Some (m', r) → contactsWf m'.
Proof.
  intros Hup. destruct (UpdateIndex_inv _ _ _ _ _ Hup) as (m2&Hl&_&Herase).
  apply eraseAliases_fields in Herase as (_&_&_&Hc&Hh&_).
  apply replayList_contactsWf in Hl; [|apply contactsWf_reset].
  by apply (same_contacts m2 m' Hc Hh).
Qed.

Lemma contactStep_fields log g k e old :
  (contactStep (openMetadataEntry ext log e g) k old ≫= λ c, Metadata (contact c)) =
  match old ≫= (λ c, Metadata (contact c)) with
  | Some x => Some x
  | None => contactMetadataFor ext log g k e
  end ∧
  (contactStep (openMetadataEntry ext log e g) k old
     ≫= λ c, PublicRendezvousSeed (contact c)) =
  match old ≫= (λ c, PublicRendezvousSeed (contact c)) with
  | Some x => Some x
  | None => contactSeedFor ext log g k e
  end ∧
  ((λ c, PK (contact c)) <$> contactStep (openMetadataEntry ext log e g) k old) =
  match (λ c, PK (contact c)) <$> old with
  | Some x => Some x
  | None => contactKeyFor ext log g k e
  end.
Proof.
  unfold contactStep, contactMetadataFor, contactSeedFor, contactKeyFor.
  destruct (openMetadataEntry ext log e g) as [d|]; simpl.
  2: { by destruct old as [[s [p [sd|] [mt|]]]|]. }
  destruct (contactEvent d) as [[k' new]|]; simpl.
  2: { by destruct old as [[s [p [sd|] [mt|]]]|]. }
  case_decide; by destruct old as [[s [p [sd|] [mt|]]]|].
Qed.

Lemma fold_contactStep_fields log g k es : ∀ old,
  (foldl (λ old e, contactStep (openMetadataEntry ext log e g) k old) old es
     ≫= λ c, Metadata (contact c)) =
  match old ≫= (λ c, Metadata (contact c)) with
  | Some x => Some x
  | None => head (omap (contactMetadataFor ext log g k) es)
  end ∧
  (foldl (λ old e, contactStep (openMetadataEntry ext log e g) k old) old es
     ≫= λ c, PublicRendezvousSeed (contact c)) =
  match old ≫= (λ c, PublicRendezvousSeed (contact c)) with
  | Some x => Some x
  | None => head (omap (contactSeedFor ext log g k) es)
  end ∧
  ((λ c, PK (contact c))
     <$> foldl (λ old e, contactStep (openMetadataEntry ext log e g) k old) old es) =
  match (λ c, PK (contact c)) <$> old with
  | Some x => Some x
  | None => head (omap (contactKeyFor ext log g k) es)
  end.
Proof.
  induction es as [|e es IH]; intros old; simpl.
  - split_and!; by destruct old as [[s [p [sd|] [mt|]]]|].
  - destruct (IH (contactStep (openMetadataEntry ext log e g) k old)) as (->&->&->).
    destruct (contactStep_fields log g k e old) as (->&->&->).
    split_and!.
    + destruct (old ≫= _); [done|]. by destruct (contactMetadataFor ext log g k e).
    + destruct (old ≫= _); [done|]. by destruct (contactSeedFor ext log g k e).
    + destruct (_ <$> old); [done|]. by destruct (contactKeyFor ext log g k e).
Qed.

End ContactDetails.

(** X19. After a replay, [getContact] and [listContacts] know the same
    contacts: every address of the contacts map points into the store, no
    two keys share an address, and a key has a record in the listing,
    equal to the one read through the address [getContact] returns, exactly
    when [getContact] does not answer with the missing-key error. *)
Theorem getContact_listContacts_agree ext m log m' r :
  UpdateIndex ext m log = Some (m', r) →
  contactsWf m' ∧
  ∀ pk, readContact m' (getContact m' pk) =
        match listContacts m' !! pk with
        | Some c => Ok (Some c)
        | None => Error ErrMissingMapKey
        end.
Proof.
  intros Hup. pose proof (UpdateIndex_contactsWf _ _ _ _ _ Hup) as Hwf.
  split; [done|]. intros pk. rewrite listContacts_lookup.
  unfold getContact, readContact, contactAt.
  destruct (contacts m' !! pk) as [l|] eqn:Hl; simpl; [|done].
  destruct (lookup_lt_is_Some_2 (heap m') l) as [c Hc]; [by eapply (proj1 Hwf)|].
  by rewrite Hc.
Qed.

Lemma getContact_listContacts_agree_witness :
  UpdateIndex (demoExternals contactTable) (newMetadataIndex accountGroupDemo None)
    contactLog = Some (afterContactLog, None) ∧
  contactsWf afterContactLog ∧
  ∀ pk, readContact afterContactLog (getContact afterContactLog pk) =
        match listContacts afterContactLog !! pk with
        | Some c => Ok (Some c)
        | None => Error ErrMissingMapKey
        end.
Proof.
  assert (UpdateIndex (demoExternals contactTable)
            (newMetadataIndex accountGroupDemo None) contactLog
          = Some (afterContactLog, None)) as Hup by (vm_compute; reflexivity).
  split; [exact Hup|].
  exact (getContact_listContacts_agree (demoExternals contactTable)
           (newMetadataIndex accountGroupDemo None) contactLog afterContactLog None Hup).
Defined.

(** X20. After a replay, the record of a contact carries the key bytes of
    the newest event for that contact, the metadata of the newest event for
    it that carries metadata and the rendezvous seed of the newest event
    for it that carries a seed: an older event fills what the newer ones
    left nil and never replaces a value. *)
Theorem contact_details_newest ext m log m' r contactPK :
  accountOrDistinct (group m) log →
  UpdateIndex ext m log = Some (m', r) →
  (listContacts m' !! contactPK ≫= λ c, Metadata (contact c))
  = newest (contactMetadataFor ext log (group m) contactPK) log ∧
  (listContacts m' !! contactPK ≫= λ c, PublicRendezvousSeed (contact c))
  = newest (contactSeedFor ext log (group m) contactPK) log ∧
  ((λ c, PK (contact c)) <$> listContacts m' !! contactPK)
  = newest (contactKeyFor ext log (group m) contactPK) log.
Proof.
  intros Hlog Hup.
  destruct (UpdateIndex_dispatch _ _ _ _ _ Hlog Hup) as (m2&Hl&_&Herase).
  apply eraseAliases_fields in Herase as (_&_&_&Hc&Hh&_).
  destruct (dispatchList_contacts _ _ _ _ _ (contactsWf_reset m) Hl) as [_ Hat].
  rewrite listContacts_lookup.
  replace (contactAt m' contactPK) with (contactAt m2 contactPK)
    by (unfold contactAt; by rewrite Hc, Hh).
  rewrite Hat.
  destruct (fold_contactStep_fields ext log (group (resetState m)) contactPK
              (reverse log) (contactAt (resetState m) contactPK)) as (->&->&->).
  done.
Qed.

Lemma contact_details_newest_witness :
  UpdateIndex (demoExternals contactTable) (newMetadataIndex accountGroupDemo None)
    contactLog = Some (afterContactLog, None) ∧
  (listContacts afterContactLog !! keyC ≫= λ c, Metadata (contact c))
  = Some "meta"%string ∧
  (listContacts afterContactLog !! keyC ≫= λ c, PublicRendezvousSeed (contact c))
  = Some "seed"%string ∧
  ((λ c, PK (contact c)) <$> listContacts afterContactLog !! keyC) = Some (Some keyC).
Proof.
  assert (UpdateIndex (demoExternals contactTable)
            (newMetadataIndex accountGroupDemo None) contactLog
          = Some (afterContactLog, None)) as Hup by (vm_compute; reflexivity).
  split; [exact Hup|].
  destruct (contact_details_newest (demoExternals contactTable)
              (newMetadataIndex accountGroupDemo None) contactLog afterContactLog None
              keyC (or_introl eq_refl) Hup) as (->&->&->).
  split_and!; vm_compute; reflexivity.
Defined.

(** ** The device bindings after a replay *)

Section DeviceBindings.
Context (ext : Externals).

Lemma registryStep_devices log g own e reg d :
  (registryStep own (openMetadataEntry ext log e g) reg).1.1.2 !! d =
  match reg.1.1.2 !! d with
  | Some b => Some b
  | None => (λ k, NewMemberDevice k d) <$> deviceAddedFor ext log g d e
  end.
Proof.
  unfold registryStep, deviceAddedFor. destruct reg as [[[mem dev] adm] sent].
  destruct (openMetadataEntry ext log e g) as [[ty ev]|]; simpl;
    [|by destruct (dev !! d)].
  destruct ty; simpl; try (by destruct (dev !! d)).
  all: destruct ev; simpl; try (by destruct (dev !! d)).
  all: repeat (case_bool_decide; simpl); repeat case_match; simpl; simplify_eq;
    rewrite ?lookup_insert_eq, ?lookup_insert_ne by done;
    try done; try (by destruct (dev !! d)); congruence.
Qed.

Lemma fold_registryStep_devices log g own es d : ∀ reg,
  (foldl (λ reg e, registryStep own (openMetadataEntry ext log e g) reg)
     reg es).1.1.2 !! d =
  match reg.1.1.2 !! d with
  | Some b => Some b
  | None => (λ k, NewMemberDevice k d) <$> head (omap (deviceAddedFor ext log g d) es)
  end.
Proof.
  induction es as [|e es IH]; intros reg; simpl; [by destruct (reg.1.1.2 !! d)|].
  rewrite IH, registryStep_devices. destruct (reg.1.1.2 !! d); [done|].
  by destruct (deviceAddedFor ext log g d e).
Qed.

End DeviceBindings.

(** X21. After a replay, a device the index knew before keeps its member,
    and a new device is bound to the member named by the newest entry that
    registers it with keys of the expected size; older registrations of the
    same device, whatever member they name, are ignored. *)
Theorem device_binding_newest ext m log m' r d :
  accountOrDistinct (group m) log →
  UpdateIndex ext m log = Some (m', r) →
  String.length d = KeySize →
  getMemberByDevice m' d =
  match getMemberByDevice m d with
  | Ok k => Ok k
  | Error _ =>
      match newest (deviceAddedFor ext log (group m) d) log with
      | Some k => Ok k
      | None => Error ErrMissingInput
      end
  end.
Proof.
  intros Hlog Hup Hlen. pose proof (UpdateIndex_registry _ _ _ _ _ Hlog Hup) as Hreg.
  apply (f_equal (λ x, x.1.1.2 !! d)) in Hreg. simpl in Hreg.
  rewrite fold_registryStep_devices in Hreg. simpl in Hreg.
  unfold getMemberByDevice, unsafeGetMemberByDevice, blen. simpl.
  rewrite !decide_False by (by intros ?). rewrite Hreg.
  destruct (devices m !! d); [done|]. unfold newest.
  by destruct (head _).
Qed.

Lemma device_binding_newest_witness :
  UpdateIndex (demoExternals groupTable)
    (newMetadataIndex multiMemberGroupDemo (Some ownBindingDemo)) groupLog
  = Some (afterGroupLog, None) ∧
  getMemberByDevice afterGroupLog keyB = Ok keyA.
Proof.
  assert (UpdateIndex (demoExternals groupTable)
            (newMetadataIndex multiMemberGroupDemo (Some ownBindingDemo)) groupLog
          = Some (afterGroupLog, None)) as Hup by (vm_compute; reflexivity).
  assert (accountOrDistinct
            (group (newMetadataIndex multiMemberGroupDemo (Some ownBindingDemo)))
            groupLog) as Hlog.
  { right. apply (bool_decide_unpack (NoDup (entryHash <$> groupLog))).
    vm_compute. exact I. }
  split; [exact Hup|].
  rewrite (device_binding_newest (demoExternals groupTable)
             (newMetadataIndex multiMemberGroupDemo (Some ownBindingDemo)) groupLog
             afterGroupLog None keyB Hlog Hup eq_refl).
  vm_compute. reflexivity.
Defined.

(** ** The credentials of [grpcutil] *)

(** X22. The request metadata of the credentials built by
    [NewUnsecureSimpleAuthAccess] is the single header [authorization] with
    the value "bearer " followed by the token: the scheme the credentials
    were built with is never sent, so two credentials give the same metadata
    exactly when their tokens are equal, and the credentials never ask for
    transport security. *)
Theorem request_metadata_bearer scheme1 scheme2 token1 token2 uri1 uri2 :
  grpcutil.GetRequestMetadata (grpcutil.NewUnsecureSimpleAuthAccess scheme1 token1) uri1
  !! grpcutil.headerAuthorize = Some ("bearer " +:+ token1)%string ∧
  size (grpcutil.GetRequestMetadata
          (grpcutil.NewUnsecureSimpleAuthAccess scheme1 token1) uri1) = 1 ∧
  (grpcutil.GetRequestMetadata (grpcutil.NewUnsecureSimpleAuthAccess scheme1 token1) uri1
   = grpcutil.GetRequestMetadata (grpcutil.NewUnsecureSimpleAuthAccess scheme2 token2) uri2
   ↔ token1 = token2) ∧
  grpcutil.RequireTransportSecurity (grpcutil.NewUnsecureSimpleAuthAccess scheme1 token1)
  = false.
Proof.
  unfold grpcutil.GetRequestMetadata, grpcutil.NewUnsecureSimpleAuthAccess. simpl.
  split_and!.
  - by rewrite lookup_singleton_eq.
  - by rewrite map_size_singleton.
  - split; [|by intros ->].
    intros Heq. apply (f_equal (λ x, x !! grpcutil.headerAuthorize)) in Heq.
    rewrite !lookup_singleton_eq in Heq. by simplify_eq/=.
  - done.
Qed.

(** ** The contacts by group key *)

Section GroupIndex.
Context (ext : Externals).

Lemma contactEvent_key ty ev k new :
  contactEvent (ty, ev) = Some (k, new) → str (PK (contact new)) = k.
Proof.
  intros Hev.
  destruct ty; try done; destruct ev as [| | | | | | |[c|] own| | | | | | | | | | | | |];
    try done; simpl in Hev; by simplify_eq.
Qed.

(** The registration of a new record under the key of the derived group. *)
Lemma register_index m0 m k new :
  heap m0 = heap m ++ [new] →
  contacts m0 = <[k := length (heap m)]> (contacts m) →
  group m0 = group m →
  contactsFromGroupPK m0 = contactsFromGroupPK m →
  ∃ m1 r, registerContactFromGroupPK ext m0 (length (heap m)) = Some (m1, r) ∧
          contactsFromGroupPK m1 =
            match (if isAccount (group m)
                   then groupKeyFor ext (PK (contact new)) else None) with
            | Some gk => <[gk := length (heap m)]> (contactsFromGroupPK m)
            | None => contactsFromGroupPK m
            end.
Proof.
  intros Hh Hc Hg Hf. unfold registerContactFromGroupPK, groupKeyFor, isAccount.
  rewrite Hg, Hh, lookup_app_r, Nat.sub_diag by done. simpl.
  destruct (GroupType (group m)); try (eexists _, _; split; [reflexivity|done]).
  destruct (UnmarshalEd25519PublicKey (PK (contact new))) as [pk|]; simpl;
    [|eexists _, _; split; [reflexivity|done]].
  destruct (GetGroupForContact ext pk) as [g|]; simpl;
    eexists _, _; (split; [reflexivity|]); simpl; by rewrite ?Hf.
Qed.

Lemma contact_handler_index ty ev k new m :
  contactEvent (ty, ev) = Some (k, new) →
  contacts m !! k = None →
  ∃ h, eventHandlers ext ty = Some [h] ∧
       ∃ m1 r, h m ev = Some (m1, r) ∧
               contactsFromGroupPK m1 =
                 match (if isAccount (group m)
                        then groupKeyFor ext (PK (contact new)) else None) with
                 | Some gk => <[gk := length (heap m)]> (contactsFromGroupPK m)
                 | None => contactsFromGroupPK m
                 end.
Proof.
  intros Hev Hk.
  destruct ty; try done; destruct ev as [| | | | | | |[c|] own| | | | | | | | | | | | |];
    try done; simpl in Hev; simplify_eq; (eexists; split; [reflexivity|]); simpl;
    rewrite Hk.
  all: try match goal with
           | |- context [contactRequestMetadata ?m0 !! ?k0] =>
               destruct (contactRequestMetadata m0 !! k0) as [data|]; [case_decide|]
           end.
  all: match goal with
       | |- context [heap ?m' ++ [?new]] =>
           match goal with
           | |- context [registerContactFromGroupPK ext ?m0 _] =>
               eapply (register_index m0 m' _ new); done
           end
       end.
Qed.

(** The three shapes of a step on the contacts. *)
Lemma same_index m m' :
  contacts m' = contacts m → heap m' = heap m →
  contactsFromGroupPK m' = contactsFromGroupPK m →
  contactsKeyed m → groupIndexWf ext m →
  contactsKeyed m' ∧ groupIndexWf ext m'.
Proof.
  intros Hc Hh Hf. unfold contactsKeyed, groupIndexWf. by rewrite Hc, Hh, Hf.
Qed.

Lemma fill_keeps_index m m' l old rec :
  contacts m' = contacts m →
  heap m' = <[l := rec]> (heap m) →
  heap m !! l = Some old →
  PK (contact rec) = PK (contact old) →
  contactsFromGroupPK m' = contactsFromGroupPK m →
  contactsKeyed m → groupIndexWf ext m →
  contactsKeyed m' ∧ groupIndexWf ext m'.
Proof.
  intros Hc Hh Hold Hpk Hf Hkeyed Hidx.
  pose proof (lookup_lt_Some _ _ _ Hold) as Hlt.
  assert (∀ l' rec', heap m !! l' = Some rec' →
                     ∃ rec'', heap m' !! l' = Some rec'' ∧
                              PK (contact rec'') = PK (contact rec')) as Hheap.
  { intros l' rec' Hl'. rewrite Hh. destruct (decide (l = l')) as [<-|].
    - rewrite list_lookup_insert_eq by done. exists rec. split; [done|]. congruence.
    - rewrite list_lookup_insert_ne by done. eauto. }
  split.
  - intros k l'. rewrite Hc. intros (rec'&Hrec'&<-)%Hkeyed.
    destruct (Hheap _ _ Hrec') as (rec''&?&Heq). exists rec''. by rewrite Heq.
  - intros gk l'. rewrite Hf. intros (rec'&Hrec'&Hcon&Hgk)%Hidx.
    destruct (Hheap _ _ Hrec') as (rec''&?&Heq). exists rec''.
    rewrite Hc, Heq. done.
Qed.

Lemma create_keeps_index m m' k new :
  contacts m !! k = None →
  contacts m' = <[k := length (heap m)]> (contacts m) →
  heap m' = heap m ++ [new] →
  str (PK (contact new)) = k →
  contactsFromGroupPK m' =
    match (if isAccount (group m)
           then groupKeyFor ext (PK (contact new)) else None) with
    | Some gk => <[gk := length (heap m)]> (contactsFromGroupPK m)
    | None => contactsFromGroupPK m
    end →
  contactsKeyed m → groupIndexWf ext m →
  contactsKeyed m' ∧ groupIndexWf ext m' ∧
  (isAccount (group m) = false → contactsFromGroupPK m' = contactsFromGroupPK m).
Proof.
  intros Hk Hc Hh Hpk Hf Hkeyed Hidx.
  assert (heap m' !! length (heap m) = Some new) as Hnew.
  { by rewrite Hh, lookup_app_r, Nat.sub_diag. }
  assert (∀ l rec, heap m !! l = Some rec → heap m' !! l = Some rec) as Hheap.
  { intros l rec Hl. rewrite Hh. apply lookup_app_l_Some. done. }
  assert (∀ gk l, contactsFromGroupPK m !! gk = Some l →
                  ∃ rec, heap m' !! l = Some rec ∧
                         contacts m' !! str (PK (contact rec)) = Some l ∧
                         groupKeyFor ext (PK (contact rec)) = Some gk) as Hold.
  { intros gk l (rec&Hrec&Hcon&Hgk)%Hidx. exists rec. split_and!; [by auto| |done].
    rewrite Hc, lookup_insert_ne; [done|]. intros Heq. rewrite <-Heq in Hcon.
    congruence. }
  split_and!.
  - intros k' l. rewrite Hc. destruct (decide (k = k')) as [<-|].
    + rewrite lookup_insert_eq. intros [= <-]. eauto.
    + rewrite lookup_insert_ne by done. intros (rec&Hrec&<-)%Hkeyed. eauto.
  - intros gk l. rewrite Hf. destruct (isAccount (group m)); [|by apply Hold].
    destruct (groupKeyFor ext (PK (contact new))) as [gk'|] eqn:Hgk'; [|by apply Hold].
    destruct (decide (gk' = gk)) as [<-|].
    + rewrite lookup_insert_eq. intros [= <-]. exists new. split_and!; [done| |done].
      by rewrite Hc, Hpk, lookup_insert_eq.
    + rewrite lookup_insert_ne by done. apply Hold.
  - intros Hacc. by rewrite Hf, Hacc.
Qed.

Lemma marked_fields m1 r e :
  let m' := markHandled
              (match r with
               | Some err => logError m1 (UnableToHandleEvent err)
               | None => m1
               end) e in
  contacts m' = contacts m1 ∧ heap m' = heap m1 ∧
  contactsFromGroupPK m' = contactsFromGroupPK m1.
Proof. by destruct r. Qed.

(** The effect of one dispatched entry on the two contact maps. *)
Lemma dispatchEntry_groupIndex log m e m' :
  contactsWf m → contactsKeyed m → groupIndexWf ext m →
  dispatchEntry ext log m e = Some m' →
  contactsKeyed m' ∧ groupIndexWf ext m' ∧
  (isAccount (group m) = false → contactsFromGroupPK m' = contactsFromGroupPK m).
Proof.
  intros Hwf Hkeyed Hidx Hd.
  pose proof (dispatchEntry_agreeOutside _ _ _ _ _ Hd) as (_&Hfr&_).
  destruct (openMetadataEntry ext log e (group m)) as [[ty ev]|] eqn:Hdec.
  2: { destruct Hfr as (Hc&Hh&Hf&_); [done|].
       destruct (same_index m m' Hc Hh Hf Hkeyed Hidx). auto. }
  destruct (contactEvent (ty, ev)) as [[k new]|] eqn:Hev.
  - clear Hfr. destruct (contact_handler_spec ext _ _ _ _ m Hev) as (h&Hty&Hnew&Hold').
    destruct (dispatchEntry_single _ _ _ _ _ _ _ _ Hdec Hty Hd) as (m1&r&Hh&->).
    destruct (marked_fields m1 r e) as (Hc'&Hh'&Hf').
    destruct (contacts m !! k) as [l|] eqn:Hk.
    + destruct (lookup_lt_is_Some_2 (heap m) l) as [old Hold];
        [by eapply (proj1 Hwf)|].
      destruct (Hold' l old eq_refl Hold) as (m2&Hh2&Hc&Hhp&Hf).
      assert (m2 = m1) as -> by congruence.
      destruct (fill_keeps_index m m1 l old (fillFrom new old) Hc Hhp Hold eq_refl Hf
                  Hkeyed Hidx) as [Hkeyed2 Hidx2].
      destruct (same_index m1 _ Hc' Hh' Hf' Hkeyed2 Hidx2). split_and!; [done|done|].
      intros _. by rewrite Hf'.
    + destruct (Hnew eq_refl) as (m2&Hh2&Hc&Hhp&_).
      destruct (contact_handler_index _ _ _ _ m Hev Hk) as (h'&Hty'&m3&r3&Hh3&Hf).
      assert (h' = h) as -> by congruence.
      assert (m2 = m1) as -> by congruence.
      assert (m3 = m1) as -> by congruence.
      destruct (create_keeps_index m m1 _ new Hk Hc Hhp (contactEvent_key _ _ _ _ Hev)
                  Hf Hkeyed Hidx) as (Hkeyed2&Hidx2&Hacc).
      destruct (same_index m1 _ Hc' Hh' Hf' Hkeyed2 Hidx2). split_and!; [done|done|].
      intros Hna. rewrite Hf'. by apply Hacc.
  - assert (contacts m' = contacts m ∧ heap m' = heap m ∧
            contactsFromGroupPK m' = contactsFromGroupPK m) as (Hc&Hh&Hf).
    { destruct (decide (domainOf ty = Contacts)) as [Hty|Hty];
        [|by destruct Hfr as (?&?&?&_)].
      destruct (contact_handler_reject ext _ _ m Hty Hev) as (h&Hh&Hrej).
      destruct (dispatchEntry_single _ _ _ _ _ _ _ _ Hdec Hh Hd) as (m1&r&Hh'&->).
      rewrite Hrej in Hh'. by simplify_eq. }
    destruct (same_index m m' Hc Hh Hf Hkeyed Hidx). split_and!; [done|done|].
    by intros _.
Qed.

Lemma replayList_groupIndex log es : ∀ m m',
  replayList ext log es m = Some m' →
  contactsWf m → contactsKeyed m → groupIndexWf ext m →
  contactsKeyed m' ∧ groupIndexWf ext m' ∧
  (isAccount (group m) = false → contactsFromGroupPK m' = contactsFromGroupPK m).
Proof.
  induction es as [|e es IH]; intros m m' Hl Hwf Hkeyed Hidx; simpl in Hl;
    [by simplify_eq|].
  destruct (replayEntry ext log m e) as [m1|] eqn:H1; [|done]. simpl in Hl.
  pose proof (replayEntry_fixed _ _ _ _ _ H1) as (Hg&_).
  unfold replayEntry in H1. case_match.
  - simplify_eq. by apply IH.
  - destruct (dispatchEntry_contacts _ _ _ _ _ Hwf H1) as [Hwf1 _].
    destruct (dispatchEntry_groupIndex _ _ _ _ Hwf Hkeyed Hidx H1)
      as (Hkeyed1&Hidx1&Hacc1).
    destruct (IH _ _ Hl Hwf1 Hkeyed1 Hidx1) as (?&?&Hacc). split_and!; [done|done|].
    intros Hna. rewrite Hacc by (by rewrite Hg). by apply Hacc1.
Qed.

End GroupIndex.

(** X23. After a replay, the two contact maps fit together: every contact
    is stored under the key its record carries, and every entry of
    [contactsFromGroupPK] is the address of such a contact, stored under the
    key of the group the secret store derives for its key.  Outside an
    Account group no contact is registered by group key. *)
Theorem group_index_after_update ext m log m' r :
  UpdateIndex ext m log = Some (m', r) →
  contactsKeyed m' ∧ groupIndexWf ext m' ∧
  (isAccount (group m) = false → contactsFromGroupPK m' = ∅).
Proof.
  intros Hup. destruct (UpdateIndex_inv _ _ _ _ _ Hup) as (m2&Hl&_&Herase).
  pose proof (f_equal contactsFromGroupPK Herase) as Hf. simpl in Hf.
  apply eraseAliases_fields in Herase as (_&_&_&Hc&Hh&_).
  destruct (replayList_groupIndex ext _ _ _ _ Hl) as (Hkeyed&Hidx&Hacc).
  - apply contactsWf_reset.
  - intros k l. simpl. by rewrite lookup_empty.
  - intros gk l. simpl. by rewrite lookup_empty.
  - destruct (same_index ext m2 m' Hc Hh Hf Hkeyed Hidx). split_and!; [done|done|].
    intros Hna. rewrite Hf. by apply Hacc.
Qed.

Lemma group_index_after_update_witness :
  UpdateIndex (demoExternals contactTable) (newMetadataIndex accountGroupDemo None)
    contactLog = Some (afterContactLog, None) ∧
  contactsKeyed afterContactLog ∧
  groupIndexWf (demoExternals contactTable) afterContactLog ∧
  contactsFromGroupPK afterContactLog !! ("group:" +:+ keyC)%string
  = contacts afterContactLog !! keyC.
Proof.
  assert (UpdateIndex (demoExternals contactTable)
            (newMetadataIndex accountGroupDemo None) contactLog
          = Some (afterContactLog, None)) as Hup by (vm_compute; reflexivity).
  split; [exact Hup|].
  destruct (group_index_after_update (demoExternals contactTable)
              (newMetadataIndex accountGroupDemo None) contactLog afterContactLog None
              Hup) as (Hkeyed&Hidx&_).
  split_and!; [exact Hkeyed|exact Hidx|vm_compute; reflexivity].
Defined.

(** ** Events of another type than their handler expects *)

(** X24. A handler given a message of another Go type than the one of its
    event type returns the invalid-input error and leaves the index as it
    is; the replay logs the error and marks the entry as handled.  The
    exceptions return nil for any message: the two handlers that do nothing,
    and the enable and disable handlers once the flag is set, since they
    test the flag before the type of the message. *)
Theorem mistyped_event_rejected ext ty ev h m :
  eventHandlers ext ty = Some [h] →
  eventMatches ty ev = false →
  h m ev = Some (m, if skipsTypeAssertion m ty then None else Some ErrInvalidInput) ∧
  ∀ log e,
    openMetadataEntry ext log e (group m) = Some (ty, ev) →
    dispatchEntry ext log m e =
    Some (markHandled
            (if skipsTypeAssertion m ty then m
             else logError m (UnableToHandleEvent ErrInvalidInput)) e).
Proof.
  intros Hty Hev.
  assert (h m ev = Some (m, if skipsTypeAssertion m ty then None
                            else Some ErrInvalidInput)) as Hh.
  { destruct ty; simplify_eq/=; destruct ev; try done.
    all: unfold handleContactRequestDisabled, handleContactRequestEnabled;
      by destruct (contactRequestEnabled m). }
  split; [done|]. intros log e Hdec. unfold dispatchEntry. rewrite Hdec, Hty. simpl.
  rewrite Hh. by destruct (skipsTypeAssertion m ty).
Qed.

Lemma mistyped_event_rejected_witness :
  handleGroupLeft (newMetadataIndex accountGroupDemo None) MsgAccountContactRequestEnabled
  = Some (newMetadataIndex accountGroupDemo None, Some ErrInvalidInput).
Proof.
  exact (proj1 (mistyped_event_rejected (demoExternals []) EventTypeAccountGroupLeft
                  MsgAccountContactRequestEnabled handleGroupLeft
                  (newMetadataIndex accountGroupDemo None) eq_refl eq_refl)).
Defined.

(** ** What a replay never changes *)

(** X25. [UpdateIndex] never changes the group the index is bound to nor
    the own member and device binding, whatever the log holds and whatever
    it returns. *)
Theorem update_index_keeps_binding ext m log m' r :
  UpdateIndex ext m log = Some (m', r) →
  group m' = group m ∧ ownMemberDevice m' = ownMemberDevice m.
Proof.
  intros Hup. destruct (UpdateIndex_inv _ _ _ _ _ Hup) as (m2&Hl&_&Herase).
  apply eraseAliases_fields in Herase as (_&Hg&Ho&_).
  apply replayList_group in Hl as [Hg2 Ho2]. simpl in Hg2, Ho2.
  split; congruence.
Qed.

Lemma update_index_keeps_binding_witness :
  UpdateIndex (demoExternals strangerTable)
    (newMetadataIndex contactGroupDemo (Some ownBindingDemo)) strangerLog
  = Some (afterStrangerLog, Some ErrInternal) ∧
  group afterStrangerLog = contactGroupDemo ∧
  ownMemberDevice afterStrangerLog = Some ownBindingDemo.
Proof.
  assert (UpdateIndex (demoExternals strangerTable)
            (newMetadataIndex contactGroupDemo (Some ownBindingDemo)) strangerLog
          = Some (afterStrangerLog, Some ErrInternal)) as Hup
    by (vm_compute; reflexivity).
  split; [exact Hup|].
  exact (update_index_keeps_binding (demoExternals strangerTable)
           (newMetadataIndex contactGroupDemo (Some ownBindingDemo)) strangerLog
           afterStrangerLog (Some ErrInternal) Hup).
Defined.

(** ** The own metadata of outgoing requests *)

Section OwnMetadata.
Context (ext : Externals).

Lemma handler_ownMetadata ty h m ev m1 r k :
  eventHandlers ext ty = Some [h] →
  h m ev = Some (m1, r) →
  contactRequestMetadata m1 !! k =
  ownMetadataStep (Some (ty, ev)) k
    (match contacts m !! k with Some _ => true | None => false end)
    (contactRequestMetadata m !! k).
Proof.
  intros Hty Hh. destruct ty; simplify_eq/=; handler_cases Hh ev.
  all: try done.
  all: by simplify_map_eq.
Qed.

Lemma dispatchEntry_ownMetadata log m e m' k :
  dispatchEntry ext log m e = Some m' →
  contactRequestMetadata m' !! k =
  ownMetadataStep (openMetadataEntry ext log e (group m)) k
    (match contacts m !! k with Some _ => true | None => false end)
    (contactRequestMetadata m !! k).
Proof.
  intros Hd. destruct (openMetadataEntry ext log e (group m)) as [[ty ev]|] eqn:Hdec.
  - destruct (eventHandlers ext ty) as [hs|] eqn:Hty.
    + destruct (eventHandlers_singleton _ _ _ Hty) as [h ->].
      destruct (dispatchEntry_single _ _ _ _ _ _ _ _ Hdec Hty Hd) as (m1&r&Hh&->).
      rewrite <-(handler_ownMetadata _ _ _ _ _ _ k Hty Hh). by destruct r.
    + unfold dispatchEntry in Hd. rewrite Hdec, Hty in Hd. simplify_eq.
      by destruct ty.
  - unfold dispatchEntry in Hd. rewrite Hdec in Hd. by simplify_eq.
Qed.

Lemma ownMetadataFor_step log g k e :
  (is_Some (contactStep (openMetadataEntry ext log e g) k None) ↔
   is_Some (ownMetadataFor ext log g k e)) ∧
  ownMetadataStep (openMetadataEntry ext log e g) k false None
  = default None (ownMetadataFor ext log g k e) ∧
  (∀ v, ownMetadataStep (openMetadataEntry ext log e g) k true v = v) ∧
  (∀ old, is_Some old → is_Some (contactStep (openMetadataEntry ext log e g) k old)).
Proof.
  unfold contactStep, ownMetadataFor, ownMetadataStep.
  destruct (openMetadataEntry ext log e g) as [[ty ev]|]; simpl;
    [|split_and!; try done; by intros ? [? ->]].
  destruct ty; simpl;
    try (split_and!; try done; by intros ? [? ->]).
  all: destruct ev as [| | | | | | |[c|] own| | | | | | | | | | | | |]; simpl;
    try (split_and!; try done; by intros ? [? ->]).
  all: case_decide; simpl; split_and!; try done; try (by intros ? [? ->]);
    try (intros v; by destruct v); try (split; by eauto).
Qed.

Lemma dispatchList_ownMetadata log es k : ∀ m m',
  contactsWf m →
  (contacts m !! k = None → contactRequestMetadata m !! k = None) →
  dispatchList ext log es m = Some m' →
  contactRequestMetadata m' !! k =
    match contacts m !! k with
    | Some _ => contactRequestMetadata m !! k
    | None => default None (head (omap (ownMetadataFor ext log (group m) k) es))
    end.
Proof.
  induction es as [|e es IH]; intros m m' Hwf HJ Hl; simpl in Hl.
  - simplify_eq. destruct (contacts m' !! k) eqn:Hk; [done|]. by apply HJ.
  - destruct (dispatchEntry ext log m e) as [m1|] eqn:H1; [|done]. simpl in Hl.
    destruct (dispatchEntry_contacts _ _ _ _ _ Hwf H1) as [Hwf1 Hat1].
    pose proof (dispatchEntry_ownMetadata _ _ _ _ k H1) as Hown.
    pose proof (dispatchEntry_fixed _ _ _ _ _ H1) as (Hg&_).
    destruct (ownMetadataFor_step log (group m) k e) as (Hnew&Hfresh&Hkeep&Hold).
    specialize (Hat1 k).
    destruct (contacts m !! k) as [l|] eqn:Hk.
    + assert (is_Some (contactAt m k)) as Hsome.
      { destruct (contactAt m k) eqn:Hat; [by eauto|].
        apply contactAt_None in Hat; [congruence|done]. }
      apply Hold in Hsome. rewrite <-Hat1 in Hsome.
      assert (is_Some (contacts m1 !! k)) as [l1 Hk1].
      { destruct (contacts m1 !! k) eqn:Hk1; [by eauto|].
        apply (contactAt_None m1 k Hwf1) in Hk1. rewrite Hk1 in Hsome.
        by destruct Hsome. }
      rewrite (IH _ _ Hwf1) with (2 := Hl); rewrite Hk1; [|done].
      by rewrite Hown, Hkeep.
    + rewrite (proj2 (contactAt_None m k Hwf) Hk) in Hat1.
      rewrite (HJ eq_refl), Hfresh in Hown.
      destruct (contacts m1 !! k) as [l1|] eqn:Hk1.
      * rewrite (IH _ _ Hwf1) with (2 := Hl); rewrite Hk1; [|done].
        assert (is_Some (contactAt m1 k)) as Hsome.
        { destruct (contactAt m1 k) eqn:Hat; [by eauto|].
          apply contactAt_None in Hat; [congruence|done]. }
        rewrite Hat1 in Hsome. apply Hnew in Hsome as [v Hv].
        rewrite Hown. simpl. by rewrite Hv.
      * assert (ownMetadataFor ext log (group m) k e = None) as Hnone.
        { apply (contactAt_None m1 k Hwf1) in Hk1. rewrite Hat1 in Hk1.
          destruct (ownMetadataFor ext log (group m) k e) eqn:Hv; [|done].
          destruct (proj2 Hnew (mk_is_Some _ _ eq_refl)) as [? ?]. congruence. }
        rewrite (IH _ _ Hwf1) with (2 := Hl); rewrite Hk1.
        -- simpl. by rewrite Hnone, Hg.
        -- intros _. by rewrite Hown, Hnone.
Qed.

End OwnMetadata.

(** X26. After a replay, the index keeps own metadata for a contact exactly
    when the newest event of the log for that contact is an outgoing request
    being enqueued, and then it is the own metadata of that event: a request
    enqueued for a contact that a newer event already created records
    nothing. *)
Theorem own_metadata_newest ext m log m' r contactPK :
  accountOrDistinct (group m) log →
  UpdateIndex ext m log = Some (m', r) →
  contactRequestMetadata m' !! contactPK =
  default None (newest (ownMetadataFor ext log (group m) contactPK) log).
Proof.
  intros Hlog Hup.
  destruct (UpdateIndex_dispatch _ _ _ _ _ Hlog Hup) as (m2&Hl&_&Herase).
  apply (f_equal contactRequestMetadata) in Herase. simpl in Herase.
  rewrite Herase.
  rewrite (dispatchList_ownMetadata ext log (reverse log) contactPK _ _
             (contactsWf_reset m)) with (2 := Hl).
  - simpl. by rewrite lookup_empty.
  - intros _. simpl. by rewrite lookup_empty.
Qed.

Lemma own_metadata_newest_witness :
  UpdateIndex (demoExternals contactTable) (newMetadataIndex accountGroupDemo None)
    contactLog = Some (afterContactLog, None) ∧
  contactRequestMetadata afterContactLog !! keyC = None.
Proof.
  assert (UpdateIndex (demoExternals contactTable)
            (newMetadataIndex accountGroupDemo None) contactLog
          = Some (afterContactLog, None)) as Hup by (vm_compute; reflexivity).
  split; [exact Hup|].
  rewrite (own_metadata_newest (demoExternals contactTable)
             (newMetadataIndex accountGroupDemo None) contactLog afterContactLog None
             keyC (or_introl eq_refl) Hup).
  vm_compute. reflexivity.
Defined.
